(** * Mozart MIDI engine: temporal map, coordinate conversion, note editing

    A shallow embedding of [src/midi-engine.js] and the properties of its
    temporal map ([tempoAtTick], [timeSigAtTick]), coordinate converter
    ([ticksPerMeasure], [measureToTicks], [tickToMeasureBeat]), pitch-name
    codec ([noteNameToMidi], [midiToNoteName]) and note operations
    ([searchNotes], [addNotes], [deleteNotes], [transposeNotes],
    [quantizeNotes]).

    Numbers.  JavaScript has one number type, the IEEE 754 double.
    Quantities the engine divides or scales (ticks, beats, bpm, velocity,
    ppq, time-signature parts) are embedded as rationals [Q]; quantities it
    only counts or indexes with (measure numbers, pitches, lengths) as [Z]
    or [nat].  The functions of the engine that compute with ticks are
    given in two readings.  The exact reading takes [+], [*] and [/] as the
    operations of [Q]; it is used where a statement compares numbers, treats
    a computed bound as a value, or is conditional on a returned result.
    The double reading, in [Module Double], rounds the result of every
    operation to the nearest double, ties to even ([JS.double], [JS.add],
    [JS.mul], ...); it is used wherever a statement depends on what the
    arithmetic yields: that a walk advances and ends, that a computed tick
    is a fixed point, the value of a product.  Infinities, NaN and the sign
    of zero are outside the embedding: [Qdiv] gives 0 where JavaScript
    divides by zero, and no magnitude above the largest double is rounded
    to an infinity; the statements below are about documents whose
    time-signature denominators are not zero.

    Loops.  [for ... of] loops are list recursions.  The bounded [while] of
    [measureToTicks] runs [measure - 1] times and is a recursion on that
    count.  The unbounded [while (true)] of [tickToMeasureBeat] is a
    recursion on an explicit iteration budget; running out of budget is the
    outcome [None], distinct from every value the function can return. *)

From stdpp Require Import gmap strings list.
From Stdlib Require Import Ascii QArith Qround Qabs Qpower Lqa DecimalString Sorted Permutation.

Local Open Scope Z_scope.

(** ** JavaScript numbers *)

Module JS.

(** [Math.round]: nearest integer, ties toward the larger one. *)
Definition Math_round (x : Q) : Z := Qfloor (x + (1 # 2)).

(** [x < y] and [x <= y] on numbers. *)
Definition ltb (x y : Q) : bool := negb (Qle_bool y x).
Definition leb (x y : Q) : bool := Qle_bool x y.

(** A number is truthy when it is not zero; [a || b] on numbers. *)
Definition or_else (a b : Q) : Q := if Qeq_bool a 0 then b else a.

(** *** Doubles

    A double is zero or a number [m * 2^e] with an integer [m] of at most
    53 bits and [e >= -1074].  The result of an arithmetic operation is the
    exact result rounded to the nearest such number, to the one with the
    even [m] at a tie. *)

(** The position of the leading bit of a positive number:
    [2^(ilog2 x) <= x < 2^(ilog2 x + 1)]. *)
Definition ilog2 (x : Q) : Z :=
  let c := Z.log2 (Qnum x) - Z.log2 (Zpos (Qden x)) in
  if Qle_bool (2 ^ c) x then c else c - 1.

(** The nearest integer, the even one at a tie. *)
Definition round_half_even (x : Q) : Z :=
  let f := Qfloor x in
  match (x - inject_Z f ?= 1 # 2)%Q with
  | Lt => f
  | Gt => f + 1
  | Eq => if Z.even f then f else f + 1
  end.

(** The exponent of the last bit kept: 53 bits from the leading one, and
    never below that of the subnormal numbers. *)
Definition exponent (x : Q) : Z := Z.max (ilog2 (Qabs x) - 52) (-1074).

(** The double nearest to [x]. *)
Definition double (x : Q) : Q :=
  if Qeq_bool x 0 then 0%Q
  else Qred (inject_Z (round_half_even (x / 2 ^ exponent x)) * 2 ^ exponent x).

(** [x + y], [x - y], [x * y] and [x / y] on doubles. *)
Definition add (x y : Q) : Q := double (x + y).
Definition sub (x y : Q) : Q := double (x - y).
Definition mul (x y : Q) : Q := double (x * y).
Definition div (x y : Q) : Q := double (x / y).

End JS.

(** ** Data model *)

(** An element of [midi.header.tempos]: [{ ticks, bpm }]. *)
Record TempoEvent := { tempo_ticks : Q; tempo_bpm : Q }.

(** An element of [midi.header.timeSignatures]:
    [{ ticks, timeSignature: [numerator, denominator] }]. *)
Record TimeSigEvent := { ts_ticks : Q; ts_timeSignature : Q * Q }.

Record Header := {
  ppq : Q;
  tempos : list TempoEvent;
  timeSignatures : list TimeSigEvent
}.

(** A note of a track: [{ midi, ticks, durationTicks, velocity }]. *)
Record Note := {
  note_midi : Z;
  note_ticks : Q;
  note_durationTicks : Z;
  note_velocity : Q
}.

Record Track := { track_name : string; notes : list Note }.

Record Midi := { header : Header; tracks : list Track }.

(** A value of the [loaded] map: [{ midi, filePath, dirty }]. *)
Record Entry := { entry_midi : Midi; filePath : option string; dirty : bool }.

(** The module-level [loaded] map, alias to entry. *)
Abbreviation Store := (gmap string Entry).

(** ** Temporal map *)

Fixpoint tempo_scan (ts : list TempoEvent) (tick bpm : Q) : Q :=
  match ts with
  | [] => bpm
  | t :: ts' =>
      if JS.leb (tempo_ticks t) tick then tempo_scan ts' tick (tempo_bpm t)
      else bpm
  end.

Definition tempoAtTick (midi : Midi) (tick : Q) : Q :=
  match tempos (header midi) with
  | [] => 120%Q
  | t0 :: _ => tempo_scan (tempos (header midi)) tick (tempo_bpm t0)
  end.

Fixpoint sig_scan (ss : list TimeSigEvent) (tick : Q) (sig : Q * Q) : Q * Q :=
  match ss with
  | [] => sig
  | s :: ss' =>
      if JS.leb (ts_ticks s) tick
      then sig_scan ss' tick (fst (ts_timeSignature s), snd (ts_timeSignature s))
      else sig
  end.

Definition timeSigAtTick (midi : Midi) (tick : Q) : Q * Q :=
  match timeSignatures (header midi) with
  | [] => (4%Q, 4%Q)
  | s0 :: _ =>
      sig_scan (timeSignatures (header midi)) tick
        (fst (ts_timeSignature s0), snd (ts_timeSignature s0))
  end.

(** ** Coordinate converter

    The exact reading of the converter; [Double.ticksPerMeasure],
    [Double.measureToTicks] and [Double.tickToMeasureBeat] round each
    operation. *)

Definition ticksPerMeasure (midi : Midi) (tick : Q) : Q :=
  let '(num, den) := timeSigAtTick midi tick in
  (ppq (header midi) * num * (4 / den))%Q.

Record TickRange := { start : Q; end_ : Q }.

(** The body of [while (currentMeasure < measure)], run [n] times. *)
Fixpoint measure_walk (midi : Midi) (n : nat) (currentTick : Q) : Q :=
  match n with
  | O => currentTick
  | S n' => measure_walk midi n' (currentTick + ticksPerMeasure midi currentTick)%Q
  end.

Definition measureToTicks (midi : Midi) (measure : Z) : TickRange :=
  let currentTick := measure_walk midi (Z.to_nat (measure - 1)) 0%Q in
  let tpm := ticksPerMeasure midi currentTick in
  {| start := currentTick; end_ := (currentTick + tpm)%Q |}.

Record MeasureBeat := { measure : Z; beat : Q }.

(** The [while (true)] of [tickToMeasureBeat], from the loop state
    [(currentTick, measure)], with [fuel] iterations allowed. *)
Fixpoint tmb_loop (fuel : nat) (midi : Midi) (tick currentTick : Q) (m : Z)
  : option MeasureBeat :=
  match fuel with
  | O => None
  | S fuel' =>
      let tpm := ticksPerMeasure midi currentTick in
      if JS.ltb tick (currentTick + tpm)%Q then
        let '(_, den) := timeSigAtTick midi currentTick in
        let ticksPerBeat := (ppq (header midi) * (4 / den))%Q in
        let beatOffset := ((tick - currentTick) / ticksPerBeat)%Q in
        Some {| measure := m; beat := (beatOffset + 1)%Q |}
      else tmb_loop fuel' midi tick (currentTick + tpm)%Q (m + 1)
  end.

Definition tickToMeasureBeat (fuel : nat) (midi : Midi) (tick : Q)
  : option MeasureBeat :=
  tmb_loop fuel midi tick 0%Q 1.

(** Documents whose conversions are meaningful: positive resolution and
    positive time-signature parts. *)
Definition positive_sig (s : TimeSigEvent) : Prop :=
  (0 < fst (ts_timeSignature s))%Q /\ (0 < snd (ts_timeSignature s))%Q.

Definition well_formed (midi : Midi) : Prop :=
  (0 < ppq (header midi))%Q /\ Forall positive_sig (timeSignatures (header midi)).

(** Strictly increasing event ticks. *)
Definition tempo_before (a b : TempoEvent) : Prop :=
  (tempo_ticks a < tempo_ticks b)%Q.

(** The events at or before [tick], in list order. *)
Definition tempos_upto (tick : Q) (ts : list TempoEvent) : list TempoEvent :=
  List.filter (fun t => JS.leb (tempo_ticks t) tick) ts.


(** ** Pitch-name codec *)

Definition NOTE_NAMES : list string :=
  ["C"; "C#"; "D"; "D#"; "E"; "F"; "F#"; "G"; "G#"; "A"; "A#"; "B"]%string.

(** Template interpolation of an integer: its decimal numeral. *)
Definition string_of_Z (z : Z) : string := NilZero.string_of_int (Z.to_int z).

(** [Math.floor(midiNum / 12)] is [Z.div]; [%] truncates toward zero and is
    [Z.rem]; a table index outside 0..11 reads [undefined]. *)
Definition midiToNoteName (midiNum : Z) : string :=
  let octave := midiNum / 12 - 1 in
  let name :=
    match (if Z.rem midiNum 12 <? 0 then None
           else NOTE_NAMES !! Z.to_nat (Z.rem midiNum 12)) with
    | Some s => s
    | None => "undefined"%string
    end in
  (name +:+ string_of_Z octave)%string.

(** Character classes of the pattern
    [/^([A-Ga-g])(#{0,2}|b{0,2})(-?\d+)$/]. *)
Definition is_letter (c : ascii) : bool :=
  let n := nat_of_ascii c in
  ((65 <=? n) && (n <=? 71) || (97 <=? n) && (n <=? 103))%nat.

Definition is_digit (c : ascii) : bool :=
  let n := nat_of_ascii c in ((48 <=? n) && (n <=? 57))%nat.

Definition sharp : ascii := "#"%char.
Definition flat : ascii := "b"%char.
Definition minus : ascii := "-"%char.

(** [toUpperCase] on the ASCII range. *)
Definition upper_char (c : ascii) : ascii :=
  let n := nat_of_ascii c in
  if ((97 <=? n) && (n <=? 122))%nat then ascii_of_nat (n - 32) else c.

Fixpoint toUpperCase (s : string) : string :=
  match s with
  | EmptyString => EmptyString
  | String c r => String (upper_char c) (toUpperCase r)
  end.

(** Group 2, [(#{0,2}|b{0,2})]: what follows is a sign or a digit, so the
    only split that can let the rest match takes the whole run of one
    accidental, up to two characters. *)
Definition split_accidental (s : string) : string * string :=
  match s with
  | String c1 r1 =>
      if Ascii.eqb c1 sharp then
        match r1 with
        | String c2 r2 =>
            if Ascii.eqb c2 sharp then ("##"%string, r2) else ("#"%string, r1)
        | EmptyString => ("#"%string, r1)
        end
      else if Ascii.eqb c1 flat then
        match r1 with
        | String c2 r2 =>
            if Ascii.eqb c2 flat then ("bb"%string, r2) else ("b"%string, r1)
        | EmptyString => ("b"%string, r1)
        end
      else (EmptyString, s)
  | EmptyString => (EmptyString, s)
  end.

Fixpoint all_digits (s : string) : bool :=
  match s with
  | EmptyString => true
  | String c r => is_digit c && all_digits r
  end.

(** [\d+]: one digit at least, digits only. *)
Definition is_digits (s : string) : bool :=
  match s with
  | EmptyString => false
  | String _ _ => all_digits s
  end.

(** Group 3, [(-?\d+)] up to the end of the string. *)
Definition is_octave (s : string) : bool :=
  match s with
  | String c r => if Ascii.eqb c minus then is_digits r else is_digits s
  | EmptyString => false
  end.

(** [name.match(...)]: the three groups, or no match. *)
Definition match_note_name (name : string) : option (ascii * string * string) :=
  match name with
  | String letter rest =>
      if is_letter letter then
        let '(accidental, octaveStr) := split_accidental rest in
        if is_octave octaveStr then Some (letter, accidental, octaveStr) else None
      else None
  | EmptyString => None
  end.

(** The lookup table [{ C: 0, D: 2, E: 4, F: 5, G: 7, A: 9, B: 11 }] at
    [letter.toUpperCase()]. *)
Definition letter_base (letter : ascii) : Z :=
  match nat_of_ascii (upper_char letter) with
  | 67%nat => 0 | 68%nat => 2 | 69%nat => 4 | 70%nat => 5
  | 71%nat => 7 | 65%nat => 9 | 66%nat => 11
  | _ => 0
  end.

(** [accidental.split('').reduce((sum, ch) => sum + (ch === '#' ? 1 : -1), 0)]. *)
Fixpoint accidental_sum (accidental : string) (sum : Z) : Z :=
  match accidental with
  | EmptyString => sum
  | String ch r => accidental_sum r (sum + (if Ascii.eqb ch sharp then 1 else -1))
  end.

Fixpoint digits_value (s : string) (acc : Z) : Z :=
  match s with
  | EmptyString => acc
  | String c r => digits_value r (acc * 10 + (Z.of_nat (nat_of_ascii c) - 48))
  end.

(** [parseInt(octaveStr, 10)] on a string of the shape [-?\d+]. *)
Definition parseInt (s : string) : Z :=
  match s with
  | String c r => if Ascii.eqb c minus then - digits_value r 0 else digits_value s 0
  | EmptyString => 0
  end.

(** The errors the engine throws, by throw site. *)
Inductive Error :=
| NoMidiLoaded (alias : string)
| TrackDoesNotExist (trackIndex : Z)
| InvalidNoteName (name : string)
| NoteOutOfRange (name : string) (midiNum : Z)
| GridNotPositive.

(** How a call ends: with a value or with a thrown error. *)
Inductive Completion (A : Type) :=
| Return (a : A)
| Throw (e : Error).
Arguments Return {A} a.
Arguments Throw {A} e.

Definition noteNameToMidi (name : string) : Completion Z :=
  match match_note_name name with
  | None => Throw (InvalidNoteName name)
  | Some (letter, accidental, octaveStr) =>
      let base := letter_base letter in
      let acc := accidental_sum accidental 0 in
      let octave := parseInt octaveStr in
      let midiNum := (octave + 1) * 12 + base + acc in
      if (midiNum <? 0) || (midiNum >? 127) then Throw (NoteOutOfRange name midiNum)
      else Return midiNum
  end.

(** [s.replace(/\d+/, '')]: the first run of digits is removed. *)
Fixpoint drop_digits (s : string) : string :=
  match s with
  | EmptyString => EmptyString
  | String c r => if is_digit c then drop_digits r else s
  end.

Fixpoint strip_first_digits (s : string) : string :=
  match s with
  | EmptyString => EmptyString
  | String c r => if is_digit c then drop_digits r else String c (strip_first_digits r)
  end.

(** ** The store and the calls that mutate it

    A call runs against the [loaded] map and leaves it as its writes made
    it, whether the call returns or throws: a throw unwinds the call, not
    the writes made before it. *)

Definition M (A : Type) : Type := Store -> Store * Completion A.

Definition ret {A} (a : A) : M A := fun st => (st, Return a).

Definition throw {A} (e : Error) : M A := fun st => (st, Throw e).

Definition bind {A B} (m : M A) (k : A -> M B) : M B :=
  fun st =>
    match m st with
    | (st', Return a) => k a st'
    | (st', Throw e) => (st', Throw e)
    end.

Notation "'let*' x := m 'in' k" := (bind m (fun x => k))
  (at level 10, x name, m at level 100, k at level 200).

(** A pure step that may throw. *)
Definition lift {A} (c : Completion A) : M A := fun st => (st, c).

Definition requireLoaded (alias : string) : M Entry :=
  fun st =>
    match st !! alias with
    | Some entry => (st, Return entry)
    | None => (st, Throw (NoMidiLoaded alias))
    end.

(** [midi.tracks[trackIndex]]: [undefined] outside the array. *)
Definition track_at (midi : Midi) (trackIndex : Z) : option Track :=
  if trackIndex <? 0 then None else tracks midi !! Z.to_nat trackIndex.

(** [if (!track) throw new Error(`Track ... does not exist.`)]. *)
Definition requireTrack (midi : Midi) (trackIndex : Z) : M Track :=
  match track_at midi trackIndex with
  | Some track => ret track
  | None => throw (TrackDoesNotExist trackIndex)
  end.

(** [entry], [midi] and [track] are references to objects that live in the
    store: a write through one of them is a store update at the alias (and
    the track index). *)
Definition with_notes (f : list Note -> list Note) (t : Track) : Track :=
  {| track_name := track_name t; notes := f (notes t) |}.

Definition with_track (trackIndex : Z) (f : Track -> Track) (e : Entry) : Entry :=
  {| entry_midi :=
       {| header := header (entry_midi e);
          tracks := alter f (Z.to_nat trackIndex) (tracks (entry_midi e)) |};
     filePath := filePath e;
     dirty := dirty e |}.

Definition with_dirty (d : bool) (e : Entry) : Entry :=
  {| entry_midi := entry_midi e; filePath := filePath e; dirty := d |}.

Definition update_notes (alias : string) (trackIndex : Z)
    (f : list Note -> list Note) : M unit :=
  fun st => (alter (with_track trackIndex (with_notes f)) alias st, Return tt).

(** [entry.dirty = true]. *)
Definition set_dirty (alias : string) : M unit :=
  fun st => (alter (with_dirty true) alias st, Return tt).

(** [track.notes], read through the reference. *)
Definition read_notes (alias : string) (trackIndex : Z) : M (list Note) :=
  fun st =>
    (st, Return match st !! alias with
                | Some e =>
                    match track_at (entry_midi e) trackIndex with
                    | Some t => notes t
                    | None => []
                    end
                | None => []
                end).

(** ** Stable sort with a comparator ([Array.prototype.sort])

    The order of the result is fixed by the language for a consistent
    comparator: ascending, equal elements in their original order.  Stable
    insertion computes it. *)

Fixpoint sort_insert {A} (cmp : A -> A -> Q) (x : A) (l : list A) : list A :=
  match l with
  | [] => [x]
  | y :: l' => if JS.leb (cmp x y) 0 then x :: l else y :: sort_insert cmp x l'
  end.

Definition Array_sort {A} (cmp : A -> A -> Q) (l : list A) : list A :=
  foldr (sort_insert cmp) [] l.

(** ** Ranges of the editing operations *)

(** [start = 0, end = Infinity], overridden by the measures given. *)
Definition range_start (midi : Midi) (measureStart : option Z) : Q :=
  match measureStart with
  | Some m => start (measureToTicks midi m)
  | None => 0%Q
  end.

Definition range_end (midi : Midi) (measureEnd : option Z) : option Q :=
  match measureEnd with
  | Some m => Some (end_ (measureToTicks midi m))
  | None => None
  end.

(** [note.ticks >= start && note.ticks < end]. *)
Definition in_range (start : Q) (end_ : option Q) (note : Note) : bool :=
  JS.leb start (note_ticks note) &&
  match end_ with
  | Some e => JS.ltb (note_ticks note) e
  | None => true
  end.

(** ** searchNotes *)

Record SearchOpts := {
  pitchMin : option Z;
  pitchMax : option Z;
  noteName : option string;
  opt_trackIndex : option Z;
  measureStart : option Z;
  measureEnd : option Z
}.

Record Hit := {
  hit_track : nat;
  hit_measure : Z;
  hit_beat : Q;
  hit_name : string;
  hit_midi : Z;
  hit_velocity : Z;
  hit_durationTicks : Z
}.

Record SearchResult := { count : nat; result_notes : list Hit }.

(** The tracks scanned, each with its position in [midi.tracks] (what
    [indexOf] finds for a track object of the array). *)
Definition tracksToScan (midi : Midi) (trackIndex : option Z) : list (nat * Track) :=
  match trackIndex with
  | Some i =>
      match track_at midi i with
      | Some t => [(Z.to_nat i, t)]
      | None => []
      end
  | None => imap (fun i t => (i, t)) (tracks midi)
  end.

(** The pitch filters: [true] when the note is skipped. *)
Definition pitch_skipped (opts : SearchOpts) (note : Note) : bool :=
  match pitchMin opts with Some lo => note_midi note <? lo | None => false end
  || match pitchMax opts with Some hi => note_midi note >? hi | None => false end
  || match noteName opts with
     | Some f =>
         negb (String.eqb f EmptyString) &&
         negb (String.eqb (strip_first_digits (midiToNoteName (note_midi note)))
                          (toUpperCase f))
     | None => false
     end.

(** The measure filter: [true] when the note is skipped. *)
Definition measure_skipped (opts : SearchOpts) (pos : MeasureBeat) : bool :=
  match measureStart opts with Some lo => measure pos <? lo | None => false end
  || match measureEnd opts with Some hi => measure pos >? hi | None => false end.

(** One iteration of the inner loop: [None] when a conversion runs out of
    budget, [Some None] on [continue], [Some (Some hit)] on [push].  The
    exact reading: the beat and velocity reported are rounded from exact
    products ([Double.search_note] rounds each operation). *)
Definition search_note (fuel : nat) (midi : Midi) (opts : SearchOpts) (ti : nat)
    (note : Note) : option (option Hit) :=
  if pitch_skipped opts note then Some None
  else
    match
      (match measureStart opts, measureEnd opts with
       | None, None => Some false
       | _, _ =>
           match tickToMeasureBeat fuel midi (note_ticks note) with
           | Some pos => Some (measure_skipped opts pos)
           | None => None
           end
       end)
    with
    | None => None
    | Some true => Some None
    | Some false =>
        match tickToMeasureBeat fuel midi (note_ticks note) with
        | Some pos =>
            Some (Some {| hit_track := ti;
                          hit_measure := measure pos;
                          hit_beat := (inject_Z (JS.Math_round (beat pos * 100)) / 100)%Q;
                          hit_name := midiToNoteName (note_midi note);
                          hit_midi := note_midi note;
                          hit_velocity := JS.Math_round (note_velocity note * 127)%Q;
                          hit_durationTicks := note_durationTicks note |})
        | None => None
        end
    end.

Fixpoint search_track (fuel : nat) (midi : Midi) (opts : SearchOpts) (ti : nat)
    (ns : list Note) (results : list Hit) : option (list Hit) :=
  match ns with
  | [] => Some results
  | note :: ns' =>
      match search_note fuel midi opts ti note with
      | None => None
      | Some None => search_track fuel midi opts ti ns' results
      | Some (Some hit) => search_track fuel midi opts ti ns' (results ++ [hit])
      end
  end.

Fixpoint search_tracks (fuel : nat) (midi : Midi) (opts : SearchOpts)
    (ts : list (nat * Track)) (results : list Hit) : option (list Hit) :=
  match ts with
  | [] => Some results
  | (ti, track) :: ts' =>
      match search_track fuel midi opts ti (notes track) results with
      | None => None
      | Some results' => search_tracks fuel midi opts ts' results'
      end
  end.

(** [a.measure - b.measure || a.beat - b.beat || a.midi - b.midi]. *)
Definition hit_compare (a b : Hit) : Q :=
  JS.or_else
    (JS.or_else (inject_Z (hit_measure a - hit_measure b)) (hit_beat a - hit_beat b)%Q)
    (inject_Z (hit_midi a - hit_midi b)).

(** [None]: a conversion ran out of budget. *)
Definition searchNotes (fuel : nat) (st : Store) (alias : string) (opts : SearchOpts)
  : option (Completion SearchResult) :=
  match st !! alias with
  | None => Some (Throw (NoMidiLoaded alias))
  | Some entry =>
      let midi := entry_midi entry in
      match search_tracks fuel midi opts (tracksToScan midi (opt_trackIndex opts)) [] with
      | None => None
      | Some results =>
          let sorted := Array_sort hit_compare results in
          Some (Return {| count := length sorted; result_notes := take 200 sorted |})
      end
  end.

(** ** addNotes *)

(** An element of the [notes] argument:
    [{ measure, beat, noteName, velocity, durationBeats }]. *)
Record NoteInput := {
  in_measure : Z;
  in_beat : Q;
  in_noteName : string;
  in_velocity : option Q;
  in_durationBeats : Q
}.

Record AddedNote := {
  added_name : string;
  added_midi : Z;
  added_measure : Z;
  added_beat : Q;
  added_durationBeats : Q;
  added_velocity : Q
}.

Record AddResult := {
  add_trackIndex : Z;
  added : list AddedNote;
  totalNotesInTrack : nat
}.

(** The argument of [track.addNote] for an input note whose name decoded
    to [midiNum]. *)
Definition note_of_input (midi : Midi) (n : NoteInput) (midiNum : Z) : Note :=
  let measureStart := start (measureToTicks midi (in_measure n)) in
  let '(_, den) := timeSigAtTick midi measureStart in
  let ticksPerBeat := (ppq (header midi) * (4 / den))%Q in
  let ticks :=
    (measureStart + inject_Z (JS.Math_round ((in_beat n - 1) * ticksPerBeat)))%Q in
  let durationTicks := JS.Math_round (in_durationBeats n * ticksPerBeat)%Q in
  let vel := ((match in_velocity n with Some v => v | None => 80 end) / 127)%Q in
  {| note_midi := midiNum; note_ticks := ticks;
     note_durationTicks := durationTicks; note_velocity := vel |}.

(** The element pushed on [added]; [velocity || 80]. *)
Definition added_of_input (n : NoteInput) (midiNum : Z) : AddedNote :=
  {| added_name := in_noteName n;
     added_midi := midiNum;
     added_measure := in_measure n;
     added_beat := in_beat n;
     added_durationBeats := in_durationBeats n;
     added_velocity :=
       match in_velocity n with Some v => JS.or_else v 80 | None => 80%Q end |}.

Section AddNotes.

(** [Track.prototype.addNote] belongs to the MIDI library, not to the
    engine: how it places a note in [track.notes] is a parameter. *)
Variable Track_addNote : Note -> list Note -> list Note.

(** The body of [for (const n of notes)].  [midi] is the reference taken
    before the loop; the loop reads its header only, which no iteration
    writes. *)
Fixpoint addNotes_loop (alias : string) (trackIndex : Z) (midi : Midi)
    (ns : list NoteInput) (acc : list AddedNote) : M (list AddedNote) :=
  match ns with
  | [] => ret acc
  | n :: ns' =>
      let* midiNum := lift (noteNameToMidi (in_noteName n)) in
      let* _ := update_notes alias trackIndex
                  (Track_addNote (note_of_input midi n midiNum)) in
      addNotes_loop alias trackIndex midi ns' (acc ++ [added_of_input n midiNum])
  end.

Definition addNotes (alias : string) (trackIndex : Z) (ns : list NoteInput)
  : M AddResult :=
  let* entry := requireLoaded alias in
  let midi := entry_midi entry in
  let* _ := requireTrack midi trackIndex in
  let* acc := addNotes_loop alias trackIndex midi ns [] in
  let* _ := set_dirty alias in
  let* track_notes := read_notes alias trackIndex in
  ret {| add_trackIndex := trackIndex; added := acc;
         totalNotesInTrack := length track_notes |}.

End AddNotes.

(** ** deleteNotes *)

Record PitchOpts := { del_pitchMin : option Z; del_pitchMax : option Z }.

Record DeleteResult := {
  del_trackIndex : Z;
  removedCount : nat;
  remainingNotes : nat
}.

(** The [filter] callback: [true] keeps the note. *)
Definition delete_keeps (start end_ : Q) (opts : PitchOpts) (note : Note) : bool :=
  if JS.ltb (note_ticks note) start || JS.leb end_ (note_ticks note) then true
  else if match del_pitchMin opts with Some lo => note_midi note <? lo | None => false end
  then true
  else if match del_pitchMax opts with Some hi => note_midi note >? hi | None => false end
  then true
  else false.

Definition deleteNotes (alias : string) (trackIndex measureStart measureEnd : Z)
    (opts : PitchOpts) : M DeleteResult :=
  let* entry := requireLoaded alias in
  let midi := entry_midi entry in
  let* track := requireTrack midi trackIndex in
  let start := start (measureToTicks midi measureStart) in
  let end_ := end_ (measureToTicks midi measureEnd) in
  let before := length (notes track) in
  let* _ := update_notes alias trackIndex (List.filter (delete_keeps start end_ opts)) in
  let* track_notes := read_notes alias trackIndex in
  let removed := (before - length track_notes)%nat in
  let* _ := set_dirty alias in
  let* track_notes' := read_notes alias trackIndex in
  ret {| del_trackIndex := trackIndex; removedCount := removed;
         remainingNotes := length track_notes' |}.

(** ** transposeNotes *)

Record TransposeResult := {
  tr_trackIndex : Z;
  tr_semitones : Z;
  transposedCount : nat
}.

(** [Math.max(0, Math.min(127, note.midi + semitones))]. *)
Definition clamp_pitch (p : Z) : Z := Z.max 0 (Z.min 127 p).

Definition transpose_note (start : Q) (end_ : option Q) (semitones : Z)
    (note : Note) : Note :=
  if in_range start end_ note then
    {| note_midi := clamp_pitch (note_midi note + semitones);
       note_ticks := note_ticks note;
       note_durationTicks := note_durationTicks note;
       note_velocity := note_velocity note |}
  else note.

Definition transposeNotes (alias : string) (trackIndex semitones : Z)
    (measureStart measureEnd : option Z) : M TransposeResult :=
  let* entry := requireLoaded alias in
  let midi := entry_midi entry in
  let* track := requireTrack midi trackIndex in
  let start := range_start midi measureStart in
  let end_ := range_end midi measureEnd in
  let count := length (List.filter (in_range start end_) (notes track)) in
  let* _ := update_notes alias trackIndex (map (transpose_note start end_ semitones)) in
  let* _ := set_dirty alias in
  ret {| tr_trackIndex := trackIndex; tr_semitones := semitones;
         transposedCount := count |}.

(** ** quantizeNotes *)

Record QuantizeResult := {
  q_trackIndex : Z;
  q_gridBeats : Q;
  quantizedCount : nat
}.

(** [Math.round(note.ticks / gridTicks) * gridTicks], in the exact reading
    ([Double.nearest] rounds the quotient and the product). *)
Definition nearest (gridTicks : Z) (ticks : Q) : Q :=
  (inject_Z (JS.Math_round (ticks / inject_Z gridTicks)) * inject_Z gridTicks)%Q.

Definition quantize_note (start : Q) (end_ : option Q) (gridTicks : Z)
    (note : Note) : Note :=
  if in_range start end_ note then
    {| note_midi := note_midi note;
       note_ticks := nearest gridTicks (note_ticks note);
       note_durationTicks := note_durationTicks note;
       note_velocity := note_velocity note |}
  else note.

Definition quantizeNotes (alias : string) (trackIndex : Z) (gridBeats : Q)
    (measureStart measureEnd : option Z) : M QuantizeResult :=
  let* entry := requireLoaded alias in
  let midi := entry_midi entry in
  let* track := requireTrack midi trackIndex in
  let gridTicks := JS.Math_round (ppq (header midi) * gridBeats)%Q in
  if gridTicks <=? 0 then throw GridNotPositive
  else
    let start := range_start midi measureStart in
    let end_ := range_end midi measureEnd in
    let count := length (List.filter (in_range start end_) (notes track)) in
    let* _ := update_notes alias trackIndex (map (quantize_note start end_ gridTicks)) in
    let* _ := set_dirty alias in
    ret {| q_trackIndex := trackIndex; q_gridBeats := gridBeats;
           quantizedCount := count |}.

(** ** setTempo and setTimeSignature *)

Definition with_header (f : Header -> Header) (e : Entry) : Entry :=
  {| entry_midi :=
       {| header := f (header (entry_midi e)); tracks := tracks (entry_midi e) |};
     filePath := filePath e;
     dirty := dirty e |}.

Definition with_tempos (f : list TempoEvent -> list TempoEvent) (h : Header) : Header :=
  {| ppq := ppq h; tempos := f (tempos h); timeSignatures := timeSignatures h |}.

Definition with_timeSignatures (f : list TimeSigEvent -> list TimeSigEvent)
    (h : Header) : Header :=
  {| ppq := ppq h; tempos := tempos h; timeSignatures := f (timeSignatures h) |}.

(** Writes to [midi.header.tempos] and [midi.header.timeSignatures]. *)
Definition update_tempos (alias : string)
    (f : list TempoEvent -> list TempoEvent) : M unit :=
  fun st => (alter (with_header (with_tempos f)) alias st, Return tt).

Definition update_timeSignatures (alias : string)
    (f : list TimeSigEvent -> list TimeSigEvent) : M unit :=
  fun st => (alter (with_header (with_timeSignatures f)) alias st, Return tt).

Definition read_header (alias : string) : M (option Header) :=
  fun st => (st, Return (header <$> (entry_midi <$> st !! alias))).

Record SetTempoResult := {
  set_bpm : Q;
  set_atTick : Q;
  allTempos : list TempoEvent
}.

(** [(a, b) => a.ticks - b.ticks]. *)
Definition tempo_compare (a b : TempoEvent) : Q := (tempo_ticks a - tempo_ticks b)%Q.

Definition setTempo (alias : string) (bpm : Q) (atTick : option Q)
  : M SetTempoResult :=
  let atTick := match atTick with Some t => t | None => 0%Q end in
  let* entry := requireLoaded alias in
  let* _ := update_tempos alias
              (List.filter (fun t => negb (Qeq_bool (tempo_ticks t) atTick))) in
  let* _ := update_tempos alias
              (fun ts => ts ++ [ {| tempo_ticks := atTick; tempo_bpm := bpm |} ]) in
  let* _ := update_tempos alias (Array_sort tempo_compare) in
  let* _ := set_dirty alias in
  let* h := read_header alias in
  ret {| set_bpm := bpm; set_atTick := atTick;
         allTempos := match h with Some h => tempos h | None => [] end |}.

(** The text [`${numerator}/${denominator}`], kept as the two numbers it
    interpolates. *)
Record SignatureText := { text_numerator : Q; text_denominator : Q }.

Record SignatureAt := { signature : SignatureText; signature_ticks : Q }.

Record SetTimeSignatureResult := {
  set_signature : SignatureText;
  set_sig_atTick : Q;
  allSignatures : list SignatureAt
}.

Definition sig_compare (a b : TimeSigEvent) : Q := (ts_ticks a - ts_ticks b)%Q.

Definition setTimeSignature (alias : string) (numerator denominator : Q)
    (atTick : option Q) : M SetTimeSignatureResult :=
  let atTick := match atTick with Some t => t | None => 0%Q end in
  let* entry := requireLoaded alias in
  let* _ := update_timeSignatures alias
              (List.filter (fun ts => negb (Qeq_bool (ts_ticks ts) atTick))) in
  let* _ := update_timeSignatures alias
              (fun l => l ++ [ {| ts_ticks := atTick;
                                  ts_timeSignature := (numerator, denominator) |} ]) in
  let* _ := update_timeSignatures alias (Array_sort sig_compare) in
  let* _ := set_dirty alias in
  let* h := read_header alias in
  ret {| set_signature :=
           {| text_numerator := numerator; text_denominator := denominator |};
         set_sig_atTick := atTick;
         allSignatures :=
           map (fun ts =>
                  {| signature :=
                       {| text_numerator := fst (ts_timeSignature ts);
                          text_denominator := snd (ts_timeSignature ts) |};
                     signature_ticks := ts_ticks ts |})
               (match h with Some h => timeSignatures h | None => [] end) |}.

(** ** unloadMidi *)

Record UnloadResult := {
  unload_alias : string;
  unloaded : bool;
  hadUnsavedChanges : bool
}.

(** [unloadMidi] throws an error of its own ([No MIDI loaded with alias
    "..."], without the hint of [requireLoaded]). *)
Inductive UnloadCompletion :=
| Unloaded (r : UnloadResult)
| NothingToUnload (alias : string).

Definition unloadMidi (alias : string) (st : Store) : Store * UnloadCompletion :=
  match st !! alias with
  | None => (st, NothingToUnload alias)
  | Some entry =>
      let wasDirty := dirty entry in
      (delete alias st,
       Unloaded {| unload_alias := alias; unloaded := true;
                   hadUnsavedChanges := wasDirty |})
  end.

(** ** totalMeasures

    The exact reading; [Double.totalMeasures] rounds each sum. *)

(** [note.ticks + note.durationTicks], the largest over the notes seen. *)
Definition last_tick_of_notes (ns : list Note) (lastTick : Q) : Q :=
  fold_left (fun lastTick note =>
               let endTick := (note_ticks note + inject_Z (note_durationTicks note))%Q in
               if JS.ltb lastTick endTick then endTick else lastTick)
            ns lastTick.

Definition last_tick (midi : Midi) : Q :=
  fold_left (fun lastTick track => last_tick_of_notes (notes track) lastTick)
            (tracks midi) 0%Q.

(** The [while (currentTick < lastTick)] loop, with [fuel] iterations
    allowed. *)
Fixpoint total_loop (fuel : nat) (midi : Midi) (lastTick currentTick : Q)
    (measures : Z) : option Z :=
  if JS.ltb currentTick lastTick then
    match fuel with
    | O => None
    | S fuel' =>
        total_loop fuel' midi lastTick
          (currentTick + ticksPerMeasure midi currentTick)%Q (measures + 1)
    end
  else Some measures.

Definition totalMeasures (fuel : nat) (midi : Midi) : option Z :=
  let lastTick := last_tick midi in
  if Qeq_bool lastTick 0 then Some 0
  else total_loop fuel midi lastTick 0%Q 0.

(** ** getMeasures *)

Record MeasureNote := {
  mn_track : nat;
  mn_beat : Q;
  mn_name : string;
  mn_midi : Z;
  mn_velocity : Z;
  mn_durationBeats : Q
}.

Record MeasureInfo := {
  info_measure : Z;
  info_timeSignature : SignatureText;
  info_tempo : Q;
  info_notes : list MeasureNote
}.

Record MeasuresResult := {
  res_startMeasure : Z;
  res_endMeasure : Z;
  res_totalMeasures : Z;
  res_measures : list MeasureInfo
}.

(** One iteration of [for (const note of track.notes)]: [None] when the
    conversion runs out of budget, [Some None] when the note does not start
    within the measure, [Some (Some n)] on [push]. *)
Definition measure_note (fuel : nat) (midi : Midi) (start end_ den : Q) (ti : nat)
    (note : Note) : option (option MeasureNote) :=
  if JS.leb start (note_ticks note) && JS.ltb (note_ticks note) end_ then
    match tickToMeasureBeat fuel midi (note_ticks note) with
    | Some pos =>
        Some (Some {| mn_track := ti;
                      mn_beat := (inject_Z (JS.Math_round (beat pos * 100)) / 100)%Q;
                      mn_name := midiToNoteName (note_midi note);
                      mn_midi := note_midi note;
                      mn_velocity := JS.Math_round (note_velocity note * 127)%Q;
                      mn_durationBeats :=
                        (inject_Z
                           (JS.Math_round
                              (inject_Z (note_durationTicks note) / ppq (header midi)
                               * (den / 4) * 100))
                         / 100)%Q |})
    | None => None
    end
  else Some None.

Fixpoint measure_track (fuel : nat) (midi : Midi) (start end_ den : Q) (ti : nat)
    (ns : list Note) (measureNotes : list MeasureNote) : option (list MeasureNote) :=
  match ns with
  | [] => Some measureNotes
  | note :: ns' =>
      match measure_note fuel midi start end_ den ti note with
      | None => None
      | Some None => measure_track fuel midi start end_ den ti ns' measureNotes
      | Some (Some n) =>
          measure_track fuel midi start end_ den ti ns' (measureNotes ++ [n])
      end
  end.

Fixpoint measure_tracks (fuel : nat) (midi : Midi) (start end_ den : Q)
    (ts : list (nat * Track)) (measureNotes : list MeasureNote)
  : option (list MeasureNote) :=
  match ts with
  | [] => Some measureNotes
  | (ti, track) :: ts' =>
      match measure_track fuel midi start end_ den ti (notes track) measureNotes with
      | None => None
      | Some measureNotes' => measure_tracks fuel midi start end_ den ts' measureNotes'
      end
  end.

(** [a.beat - b.beat || a.midi - b.midi]. *)
Definition measure_note_compare (a b : MeasureNote) : Q :=
  JS.or_else (mn_beat a - mn_beat b)%Q (inject_Z (mn_midi a - mn_midi b)).

(** The body of [for (let m = startMeasure; m <= endMeasure; m++)]. *)
Definition measure_info (fuel : nat) (midi : Midi) (trackIndex : option Z) (m : Z)
  : option MeasureInfo :=
  let range := measureToTicks midi m in
  let '(num, den) := timeSigAtTick midi (start range) in
  let bpm := tempoAtTick midi (start range) in
  match measure_tracks fuel midi (start range) (end_ range) den
          (tracksToScan midi trackIndex) [] with
  | None => None
  | Some measureNotes =>
      Some {| info_measure := m;
              info_timeSignature := {| text_numerator := num; text_denominator := den |};
              info_tempo := (inject_Z (JS.Math_round (bpm * 10)) / 10)%Q;
              info_notes := Array_sort measure_note_compare measureNotes |}
  end.

(** The loop over [count] measure numbers from [m] on. *)
Fixpoint measures_loop (fuel : nat) (midi : Midi) (trackIndex : option Z)
    (count : nat) (m : Z) (acc : list MeasureInfo) : option (list MeasureInfo) :=
  match count with
  | O => Some acc
  | S count' =>
      match measure_info fuel midi trackIndex m with
      | None => None
      | Some info => measures_loop fuel midi trackIndex count' (m + 1) (acc ++ [info])
      end
  end.

(** [None]: a conversion or the measure count ran out of budget. *)
Definition getMeasures (fuel : nat) (st : Store) (alias : string)
    (startMeasure endMeasure : Z) (trackIndex : option Z)
  : option (Completion MeasuresResult) :=
  match st !! alias with
  | None => Some (Throw (NoMidiLoaded alias))
  | Some entry =>
      let midi := entry_midi entry in
      match totalMeasures fuel midi with
      | None => None
      | Some total =>
          let startMeasure := if startMeasure <? 1 then 1 else startMeasure in
          let endMeasure := if endMeasure >? total then total else endMeasure in
          match measures_loop fuel midi trackIndex
                  (Z.to_nat (endMeasure - startMeasure + 1)) startMeasure [] with
          | None => None
          | Some ms =>
              Some (Return {| res_startMeasure := startMeasure;
                              res_endMeasure := endMeasure;
                              res_totalMeasures := total;
                              res_measures := ms |})
          end
      end
  end.

(** ** The tick arithmetic in doubles

    The functions of the engine that add, multiply or divide ticks, with
    the result of each operation rounded as JavaScript rounds it.  They
    follow the same source lines as their namesakes above and differ from
    them in the arithmetic only. *)

Module Double.

(** [ppq * num * (4 / den)]. *)
Definition ticksPerMeasure (midi : Midi) (tick : Q) : Q :=
  let '(num, den) := timeSigAtTick midi tick in
  JS.mul (JS.mul (ppq (header midi)) num) (JS.div 4 den).

(** The body of [while (currentMeasure < measure)], run [n] times:
    [currentTick += tpm]. *)
Fixpoint measure_walk (midi : Midi) (n : nat) (currentTick : Q) : Q :=
  match n with
  | O => currentTick
  | S n' =>
      measure_walk midi n' (JS.add currentTick (ticksPerMeasure midi currentTick))
  end.

Definition measureToTicks (midi : Midi) (measure : Z) : TickRange :=
  let currentTick := measure_walk midi (Z.to_nat (measure - 1)) 0%Q in
  let tpm := ticksPerMeasure midi currentTick in
  {| start := currentTick; end_ := JS.add currentTick tpm |}.

(** [ppq * (4 / den)] under the signature in effect at [currentTick]. *)
Definition ticksPerBeat (midi : Midi) (currentTick : Q) : Q :=
  let '(_, den) := timeSigAtTick midi currentTick in
  JS.mul (ppq (header midi)) (JS.div 4 den).

(** The [while (true)] of [tickToMeasureBeat], from the loop state
    [(currentTick, measure)], with [fuel] iterations allowed. *)
Fixpoint tmb_loop (fuel : nat) (midi : Midi) (tick currentTick : Q) (m : Z)
  : option MeasureBeat :=
  match fuel with
  | O => None
  | S fuel' =>
      let tpm := ticksPerMeasure midi currentTick in
      if JS.ltb tick (JS.add currentTick tpm) then
        let beatOffset := JS.div (JS.sub tick currentTick) (ticksPerBeat midi currentTick) in
        Some {| measure := m; beat := JS.add beatOffset 1 |}
      else tmb_loop fuel' midi tick (JS.add currentTick tpm) (m + 1)
  end.

Definition tickToMeasureBeat (fuel : nat) (midi : Midi) (tick : Q)
  : option MeasureBeat :=
  tmb_loop fuel midi tick 0%Q 1.

(** *** totalMeasures *)

Definition last_tick_of_notes (ns : list Note) (lastTick : Q) : Q :=
  fold_left (fun lastTick note =>
               let endTick :=
                 JS.add (note_ticks note) (inject_Z (note_durationTicks note)) in
               if JS.ltb lastTick endTick then endTick else lastTick)
            ns lastTick.

Definition last_tick (midi : Midi) : Q :=
  fold_left (fun lastTick track => last_tick_of_notes (notes track) lastTick)
            (tracks midi) 0%Q.

Fixpoint total_loop (fuel : nat) (midi : Midi) (lastTick currentTick : Q)
    (measures : Z) : option Z :=
  if JS.ltb currentTick lastTick then
    match fuel with
    | O => None
    | S fuel' =>
        total_loop fuel' midi lastTick
          (JS.add currentTick (ticksPerMeasure midi currentTick)) (measures + 1)
    end
  else Some measures.

Definition totalMeasures (fuel : nat) (midi : Midi) : option Z :=
  let lastTick := last_tick midi in
  if Qeq_bool lastTick 0 then Some 0
  else total_loop fuel midi lastTick 0%Q 0.

(** *** Ranges of the editing operations *)

Definition range_start (midi : Midi) (measureStart : option Z) : Q :=
  match measureStart with
  | Some m => start (measureToTicks midi m)
  | None => 0%Q
  end.

Definition range_end (midi : Midi) (measureEnd : option Z) : option Q :=
  match measureEnd with
  | Some m => Some (end_ (measureToTicks midi m))
  | None => None
  end.

(** *** searchNotes *)

(** One iteration of the inner loop: [None] when a conversion runs out of
    budget, [Some None] on [continue], [Some (Some hit)] on [push]. *)
Definition search_note (fuel : nat) (midi : Midi) (opts : SearchOpts) (ti : nat)
    (note : Note) : option (option Hit) :=
  if pitch_skipped opts note then Some None
  else
    match
      (match measureStart opts, measureEnd opts with
       | None, None => Some false
       | _, _ =>
           match tickToMeasureBeat fuel midi (note_ticks note) with
           | Some pos => Some (measure_skipped opts pos)
           | None => None
           end
       end)
    with
    | None => None
    | Some true => Some None
    | Some false =>
        match tickToMeasureBeat fuel midi (note_ticks note) with
        | Some pos =>
            Some (Some {| hit_track := ti;
                          hit_measure := measure pos;
                          hit_beat :=
                            JS.div (inject_Z (JS.Math_round (JS.mul (beat pos) 100))) 100;
                          hit_name := midiToNoteName (note_midi note);
                          hit_midi := note_midi note;
                          hit_velocity := JS.Math_round (JS.mul (note_velocity note) 127);
                          hit_durationTicks := note_durationTicks note |})
        | None => None
        end
    end.

Fixpoint search_track (fuel : nat) (midi : Midi) (opts : SearchOpts) (ti : nat)
    (ns : list Note) (results : list Hit) : option (list Hit) :=
  match ns with
  | [] => Some results
  | note :: ns' =>
      match search_note fuel midi opts ti note with
      | None => None
      | Some None => search_track fuel midi opts ti ns' results
      | Some (Some hit) => search_track fuel midi opts ti ns' (results ++ [hit])
      end
  end.

Fixpoint search_tracks (fuel : nat) (midi : Midi) (opts : SearchOpts)
    (ts : list (nat * Track)) (results : list Hit) : option (list Hit) :=
  match ts with
  | [] => Some results
  | (ti, track) :: ts' =>
      match search_track fuel midi opts ti (notes track) results with
      | None => None
      | Some results' => search_tracks fuel midi opts ts' results'
      end
  end.

(** [a.measure - b.measure || a.beat - b.beat || a.midi - b.midi]: the
    beats are doubles and their difference is rounded. *)
Definition hit_compare (a b : Hit) : Q :=
  JS.or_else
    (JS.or_else (inject_Z (hit_measure a - hit_measure b))
                (JS.sub (hit_beat a) (hit_beat b)))
    (inject_Z (hit_midi a - hit_midi b)).

Definition searchNotes (fuel : nat) (st : Store) (alias : string) (opts : SearchOpts)
  : option (Completion SearchResult) :=
  match st !! alias with
  | None => Some (Throw (NoMidiLoaded alias))
  | Some entry =>
      let midi := entry_midi entry in
      match search_tracks fuel midi opts (tracksToScan midi (opt_trackIndex opts)) [] with
      | None => None
      | Some results =>
          let sorted := Array_sort hit_compare results in
          Some (Return {| count := length sorted; result_notes := take 200 sorted |})
      end
  end.

(** *** addNotes: the note built for an input *)

Definition note_of_input (midi : Midi) (n : NoteInput) (midiNum : Z) : Note :=
  let measureStart := start (measureToTicks midi (in_measure n)) in
  let ticksPerBeat := ticksPerBeat midi measureStart in
  let ticks :=
    JS.add measureStart
      (inject_Z (JS.Math_round (JS.mul (JS.sub (in_beat n) 1) ticksPerBeat))) in
  let durationTicks := JS.Math_round (JS.mul (in_durationBeats n) ticksPerBeat) in
  let vel := JS.div (match in_velocity n with Some v => v | None => 80%Q end) 127 in
  {| note_midi := midiNum; note_ticks := ticks;
     note_durationTicks := durationTicks; note_velocity := vel |}.

(** *** quantizeNotes *)

(** [Math.round(note.ticks / gridTicks) * gridTicks]. *)
Definition nearest (gridTicks : Z) (ticks : Q) : Q :=
  JS.mul (inject_Z (JS.Math_round (JS.div ticks (inject_Z gridTicks))))
         (inject_Z gridTicks).

Definition quantize_note (start : Q) (end_ : option Q) (gridTicks : Z)
    (note : Note) : Note :=
  if in_range start end_ note then
    {| note_midi := note_midi note;
       note_ticks := nearest gridTicks (note_ticks note);
       note_durationTicks := note_durationTicks note;
       note_velocity := note_velocity note |}
  else note.

(** [Math.round(ppq * gridBeats)]. *)
Definition gridTicks (midi : Midi) (gridBeats : Q) : Z :=
  JS.Math_round (JS.mul (ppq (header midi)) gridBeats).

Definition quantizeNotes (alias : string) (trackIndex : Z) (gridBeats : Q)
    (measureStart measureEnd : option Z) : M QuantizeResult :=
  let* entry := requireLoaded alias in
  let midi := entry_midi entry in
  let* track := requireTrack midi trackIndex in
  let gridTicks := gridTicks midi gridBeats in
  if gridTicks <=? 0 then throw GridNotPositive
  else
    let start := range_start midi measureStart in
    let end_ := range_end midi measureEnd in
    let count := length (List.filter (in_range start end_) (notes track)) in
    let* _ := update_notes alias trackIndex (map (quantize_note start end_ gridTicks)) in
    let* _ := set_dirty alias in
    ret {| q_trackIndex := trackIndex; q_gridBeats := gridBeats;
           quantizedCount := count |}.

End Double.

(** ** Sample documents *)

(** A tempo list whose only event lies after tick 0. *)
Definition late_tempo_midi : Midi :=
  {| header := {| ppq := 480; tempos := [ {| tempo_ticks := 10; tempo_bpm := 90 |} ];
                  timeSignatures := [] |};
     tracks := [] |}.

(** A three-event map queried between its second and third events. *)
Definition three_tempo_midi : Midi :=
  {| header := {| ppq := 480;
                  tempos := [ {| tempo_ticks := 0; tempo_bpm := 100 |};
                              {| tempo_ticks := 960; tempo_bpm := 140 |};
                              {| tempo_ticks := 1920; tempo_bpm := 80 |} ];
                  timeSignatures := [] |};
     tracks := [] |}.

(** 4/4 for two measures, then 3/4. *)
Definition waltz_midi : Midi :=
  {| header := {| ppq := 480;
                  tempos := [ {| tempo_ticks := 0; tempo_bpm := 120 |} ];
                  timeSignatures :=
                    [ {| ts_ticks := 0; ts_timeSignature := (4%Q, 4%Q) |};
                      {| ts_ticks := 3840; ts_timeSignature := (3%Q, 4%Q) |} ] |};
     tracks := [] |}.

(** A time signature of 0/4 at tick 0, as a file can carry it: every
    measure is zero ticks long. *)
Definition zero_numerator_midi : Midi :=
  {| header := {| ppq := 480;
                  tempos := [];
                  timeSignatures :=
                    [ {| ts_ticks := 0; ts_timeSignature := (0%Q, 4%Q) |} ] |};
     tracks := [] |}.

(** One loaded document, alias "song": 4/4 at 120 bpm, ppq 480, one track
    without notes; freshly saved, so not dirty. *)
Definition empty_song : Entry :=
  {| entry_midi :=
       {| header := {| ppq := 480;
                       tempos := [ {| tempo_ticks := 0; tempo_bpm := 120 |} ];
                       timeSignatures :=
                         [ {| ts_ticks := 0; ts_timeSignature := (4%Q, 4%Q) |} ] |};
          tracks := [ {| track_name := "Piano"; notes := [] |} ] |};
     filePath := Some "song.mid"%string;
     dirty := false |}.

Definition empty_song_store : Store := {[ "song"%string := empty_song ]}.

(** A batch of two notes in measure 1: C4 on beat 1, then the invalid
    name H2 on beat 2. *)
Definition c4_then_h2 : list NoteInput :=
  [ {| in_measure := 1; in_beat := 1; in_noteName := "C4";
       in_velocity := Some 90%Q; in_durationBeats := 1 |};
    {| in_measure := 1; in_beat := 2; in_noteName := "H2";
       in_velocity := None; in_durationBeats := 1 |} ].

(** A document with three notes on its one track: A4 late in measure 1 and
    sounding into measure 2, C#-1 in measure 2, G9 in measure 3. *)
Definition three_notes : list Note :=
  [ {| note_midi := 69; note_ticks := 1800; note_durationTicks := 480;
       note_velocity := 80 # 127 |};
    {| note_midi := 1; note_ticks := 2000; note_durationTicks := 240;
       note_velocity := 80 # 127 |};
    {| note_midi := 127; note_ticks := 4100; note_durationTicks := 240;
       note_velocity := 1 |} ].

Definition three_note_track : Track :=
  {| track_name := "Lead"; notes := three_notes |}.

Definition three_note_song : Entry :=
  {| entry_midi :=
       {| header := {| ppq := 480;
                       tempos := [ {| tempo_ticks := 0; tempo_bpm := 120 |} ];
                       timeSignatures :=
                         [ {| ts_ticks := 0; ts_timeSignature := (4%Q, 4%Q) |} ] |};
          tracks := [ three_note_track ] |};
     filePath := None;
     dirty := false |}.

Definition three_note_store : Store := {[ "song"%string := three_note_song ]}.

Definition no_pitch_opts : PitchOpts := {| del_pitchMin := None; del_pitchMax := None |}.

(** Search options with every filter omitted. *)
Definition no_filters : SearchOpts :=
  {| pitchMin := None; pitchMax := None; noteName := None;
     opt_trackIndex := None; measureStart := None; measureEnd := None |}.

(** The pitch-class filter "C#" alone. *)
Definition c_sharp_filter : SearchOpts :=
  {| pitchMin := None; pitchMax := None; noteName := Some "C#"%string;
     opt_trackIndex := None; measureStart := None; measureEnd := None |}.

(** A track of 201 notes, stored latest onset first: onsets 2010, 2000,
    ..., 10, pitches cycling through an octave from C4. *)
Definition busy_notes : list Note :=
  map (fun k : nat =>
         {| note_midi := 60 + Z.of_nat (k mod 12);
            note_ticks := inject_Z (Z.of_nat (2010 - 10 * k));
            note_durationTicks := 10;
            note_velocity := 80 # 127 |})
      (seq 0 201).

Definition busy_song : Entry :=
  {| entry_midi :=
       {| header := {| ppq := 480;
                       tempos := [ {| tempo_ticks := 0; tempo_bpm := 120 |} ];
                       timeSignatures :=
                         [ {| ts_ticks := 0; ts_timeSignature := (4%Q, 4%Q) |} ] |};
          tracks := [ {| track_name := "Busy"; notes := busy_notes |} ] |};
     filePath := None;
     dirty := false |}.

Definition busy_store : Store := {[ "busy"%string := busy_song ]}.

(** What the search of the busy track returns, evaluated. *)
Definition busy_result : SearchResult :=
  Eval vm_compute in
    match searchNotes 3 busy_store "busy" no_filters with
    | Some (Return r) => r
    | _ => {| count := 0; result_notes := [] |}
    end.

(** A search for pitches from 60 up, in measure 1 only. *)
Definition from_c4_in_measure_1 : SearchOpts :=
  {| pitchMin := Some 60; pitchMax := None; noteName := None;
     opt_trackIndex := Some 0; measureStart := Some 1; measureEnd := Some 1 |}.

Definition from_c4_result : SearchResult :=
  Eval vm_compute in
    match searchNotes 3 three_note_store "song" from_c4_in_measure_1 with
    | Some (Return r) => r
    | _ => {| count := 0; result_notes := [] |}
    end.

(** The pitch-class filter "Bb" alone, and the filter "a" alone. *)
Definition b_flat_filter : SearchOpts :=
  {| pitchMin := None; pitchMax := None; noteName := Some "Bb"%string;
     opt_trackIndex := None; measureStart := None; measureEnd := None |}.

Definition lower_a_filter : SearchOpts :=
  {| pitchMin := None; pitchMax := None; noteName := Some "a"%string;
     opt_trackIndex := None; measureStart := None; measureEnd := None |}.

(** A search of track 5 alone. *)
Definition track_5_only : SearchOpts :=
  {| pitchMin := None; pitchMax := None; noteName := None;
     opt_trackIndex := Some 5; measureStart := None; measureEnd := None |}.

(** A track with a single A#4 (also spelled Bb4), in a store of its own. *)
Definition a_sharp_store : Store :=
  {[ "song"%string :=
       {| entry_midi :=
            {| header := {| ppq := 480; tempos := []; timeSignatures := [] |};
               tracks := [ {| track_name := "Lead";
                              notes := [ {| note_midi := 70; note_ticks := 0;
                                            note_durationTicks := 480;
                                            note_velocity := 1 |} ] |} ] |};
          filePath := None; dirty := false |} ]}.

(** 3/4 throughout, ppq 480. *)
Definition three_four_midi : Midi :=
  {| header := {| ppq := 480;
                  tempos := [];
                  timeSignatures :=
                    [ {| ts_ticks := 0; ts_timeSignature := (3%Q, 4%Q) |} ] |};
     tracks := [] |}.

(** An input note on beat 2.5 of measure 4. *)
Definition beat_2_5_of_measure_4 : NoteInput :=
  {| in_measure := 4; in_beat := 5 # 2; in_noteName := "E4";
     in_velocity := Some 100%Q; in_durationBeats := 1 # 2 |}.

(** The waltz document, loaded and saved under the alias "waltz". *)
Definition waltz_song : Entry :=
  {| entry_midi := waltz_midi; filePath := Some "waltz.mid"%string; dirty := false |}.

Definition waltz_store : Store := {[ "waltz"%string := waltz_song ]}.

(** The three-tempo document under the alias "tempo". *)
Definition three_tempo_song : Entry :=
  {| entry_midi := three_tempo_midi; filePath := None; dirty := false |}.

Definition three_tempo_store : Store := {[ "tempo"%string := three_tempo_song ]}.

(** 4/4 for three measures, then from tick 5760 a signature of 1 over 2^52:
    positive parts, and measures of 480 * 2^-50 ticks, far shorter than the
    spacing of the doubles around 5760. *)
Definition absorbed_measure_midi : Midi :=
  {| header := {| ppq := 480;
                  tempos := [];
                  timeSignatures :=
                    [ {| ts_ticks := 0; ts_timeSignature := (4%Q, 4%Q) |};
                      {| ts_ticks := 5760;
                         ts_timeSignature := (1%Q, 4503599627370496%Q) |} ] |};
     tracks := [] |}.

(** The tick 2^64, a double that adding 1920 leaves as it is. *)
Definition far_tick : Q := 18446744073709551616%Q.

(** One note at tick 9857799542537426, above 2^53, in a document of ppq 96:
    a thirty-second of a beat is a grid of 3 ticks. *)
Definition high_onset_song : Entry :=
  {| entry_midi :=
       {| header := {| ppq := 96; tempos := []; timeSignatures := [] |};
          tracks := [ {| track_name := "Far";
                         notes := [ {| note_midi := 60;
                                       note_ticks := 9857799542537426;
                                       note_durationTicks := 96;
                                       note_velocity := 1 |} ] |} ] |};
     filePath := None; dirty := false |}.

Definition high_onset_store : Store := {[ "far"%string := high_onset_song ]}.

(** The busy track as [addNotes] stores it: velocity 80/127 as a double. *)
Definition crowded_notes : list Note :=
  map (fun k : nat =>
         {| note_midi := 60 + Z.of_nat (k mod 12);
            note_ticks := inject_Z (Z.of_nat (2010 - 10 * k));
            note_durationTicks := 10;
            note_velocity := JS.div 80 127 |})
      (seq 0 201).

Definition crowded_song : Entry :=
  {| entry_midi :=
       {| header := {| ppq := 480;
                       tempos := [ {| tempo_ticks := 0; tempo_bpm := 120 |} ];
                       timeSignatures :=
                         [ {| ts_ticks := 0; ts_timeSignature := (4%Q, 4%Q) |} ] |};
          tracks := [ {| track_name := "Busy"; notes := crowded_notes |} ] |};
     filePath := None;
     dirty := false |}.

Definition crowded_store : Store := {[ "busy"%string := crowded_song ]}.

(** What the search of the crowded track returns, evaluated. *)
Definition crowded_result : SearchResult :=
  Eval vm_compute in
    match Double.searchNotes 3 crowded_store "busy" no_filters with
    | Some (Return r) => r
    | _ => {| count := 0; result_notes := [] |}
    end.

(** ** Views of the store used to state properties *)

(** An entry with the notes of one track replaced, everything else
    (header, other tracks, file path, dirty flag) as it was. *)
Definition entry_set_notes (e : Entry) (trackIndex : Z) (ns : list Note) : Entry :=
  with_track trackIndex (with_notes (fun _ => ns)) e.

(** The notes of a track of a loaded document; empty when there is no such
    track. *)
Definition track_notes (st : Store) (alias : string) (trackIndex : Z) : list Note :=
  match st !! alias with
  | Some e =>
      match track_at (entry_midi e) trackIndex with
      | Some t => notes t
      | None => []
      end
  | None => []
  end.

(** Input notes whose pitch name decodes, and the pitch it decodes to. *)
Definition decodable (n : NoteInput) : Prop :=
  exists p, noteNameToMidi (in_noteName n) = Return p.

Definition pitch_of (n : NoteInput) : Z :=
  match noteNameToMidi (in_noteName n) with
  | Return p => p
  | Throw _ => 0
  end.

(** An [addNote] for concrete runs: it keeps the notes ordered by onset,
    a new note after the notes already at its onset. *)
Fixpoint insert_by_ticks (n : Note) (l : list Note) : list Note :=
  match l with
  | [] => [n]
  | x :: l' =>
      if JS.leb (note_ticks x) (note_ticks n) then x :: insert_by_ticks n l'
      else n :: l
  end.

(** What [deleteNotes] is to remove: onset in [[start, end_)] and pitch
    within the bounds given. *)
Definition delete_targets (start end_ : Q) (opts : PitchOpts) (note : Note) : bool :=
  JS.leb start (note_ticks note) && JS.ltb (note_ticks note) end_
  && match del_pitchMin opts with Some lo => lo <=? note_midi note | None => true end
  && match del_pitchMax opts with Some hi => note_midi note <=? hi | None => true end.

(** Ascending order on (measure, beat, pitch), the keys of a hit. *)
Definition hit_le (a b : Hit) : Prop :=
  hit_measure a < hit_measure b \/
  (hit_measure a = hit_measure b /\
   ((hit_beat a < hit_beat b)%Q \/
    ((hit_beat a == hit_beat b)%Q /\ hit_midi a <= hit_midi b))).

(** A pitch-class filter: a letter A-G or a-g, then sharps and flats. *)
Definition is_accidental (c : ascii) : bool := Ascii.eqb c sharp || Ascii.eqb c flat.

Fixpoint all_accidentals (s : string) : bool :=
  match s with
  | EmptyString => true
  | String c r => is_accidental c && all_accidentals r
  end.

Definition is_pitch_class (s : string) : bool :=
  match s with
  | String c r => is_letter c && all_accidentals r
  | EmptyString => false
  end.

Fixpoint last_char (s : string) : option ascii :=
  match s with
  | EmptyString => None
  | String c EmptyString => Some c
  | String _ r => last_char r
  end.

Fixpoint has_char (c : ascii) (s : string) : bool :=
  match s with
  | EmptyString => false
  | String c' r => Ascii.eqb c' c || has_char c r
  end.

(** The accidentals the pattern admits. *)
Definition accidentals : list string := [""; "#"; "##"; "b"; "bb"]%string.

(** The notes of a track after the inputs [ns] went through
    [track.addNote], in order. *)
Definition notes_after (Track_addNote : Note -> list Note -> list Note)
    (midi : Midi) (ns : list NoteInput) (l : list Note) : list Note :=
  fold_left (fun l n => Track_addNote (note_of_input midi n (pitch_of n)) l) ns l.

(** A hit that comes from a note that passed the pitch filters, with that
    note's pitch. *)
Definition from_passing_note (opts : SearchOpts) (h : Hit) : Prop :=
  exists note, pitch_skipped opts note = false /\ hit_midi h = note_midi note.

(** ** Further notions used to state properties *)

(** The pitches of the MIDI range, 0 to 127. *)
Definition midi_pitches : list Z := map Z.of_nat (seq 0 128).

(** A string without its first character. *)
Definition string_tail (s : string) : string :=
  match s with
  | EmptyString => EmptyString
  | String _ r => r
  end.

(** The pitch-class name of a pitch: its entry in [NOTE_NAMES]. *)
Definition pitch_class_name (p : Z) : string :=
  match NOTE_NAMES !! Z.to_nat (p mod 12) with
  | Some s => s
  | None => EmptyString
  end.

(** What the filters of a search ask of a hit, filter by filter. *)
Definition hit_satisfies (opts : SearchOpts) (h : Hit) : Prop :=
  (forall lo, pitchMin opts = Some lo -> lo <= hit_midi h) /\
  (forall hi, pitchMax opts = Some hi -> hit_midi h <= hi) /\
  (forall f, noteName opts = Some f -> f <> EmptyString ->
     strip_first_digits (hit_name h) = toUpperCase f) /\
  (forall a, measureStart opts = Some a -> a <= hit_measure h) /\
  (forall b, measureEnd opts = Some b -> hit_measure h <= b) /\
  (forall i, opt_trackIndex opts = Some i -> Z.of_nat (hit_track h) = i) /\
  hit_name h = midiToNoteName (hit_midi h).

(** Search options that filter notes by nothing but, possibly, the track. *)
Definition track_filter_only (opts : SearchOpts) : Prop :=
  pitchMin opts = None /\ pitchMax opts = None /\ noteName opts = None /\
  measureStart opts = None /\ measureEnd opts = None.


(** Tempo and time-signature events share their shape: a list of events
    with a tick (the key), scanned for the value in effect, and rewritten
    by filter, push and sort. *)
Section Events.

Context {A B : Type} (key : A -> Q) (val : A -> B).

Fixpoint event_scan (l : list A) (tick : Q) (b : B) : B :=
  match l with
  | [] => b
  | a :: l' => if JS.leb (key a) tick then event_scan l' tick (val a) else b
  end.

Definition key_le (a b : A) : Prop := (key a <= key b)%Q.
Definition key_lt (a b : A) : Prop := (key a < key b)%Q.
Definition key_compare (a b : A) : Q := (key a - key b)%Q.

(** The events at or before a tick, in list order. *)
Definition events_upto (tick : Q) (l : list A) : list A :=
  List.filter (fun a => JS.leb (key a) tick) l.

(** Filter out the events at the new event's tick, push it, sort. *)
Definition set_event (new : A) (l : list A) : list A :=
  Array_sort key_compare
    (List.filter (fun a => negb (Qeq_bool (key a) (key new))) l ++ [new]).

End Events.

(** The time signature of an event as the pair [timeSigAtTick] returns. *)
Definition sig_pair (s : TimeSigEvent) : Q * Q :=
  (fst (ts_timeSignature s), snd (ts_timeSignature s)).

Definition sig_before (a b : TimeSigEvent) : Prop := (ts_ticks a < ts_ticks b)%Q.

(** The entry [setTempo] leaves: the tempo list rewritten, the dirty flag
    set, all else as it was. *)
Definition entry_after_setTempo (e : Entry) (bpm atTick : Q) : Entry :=
  with_dirty true
    (with_header
       (with_tempos
          (fun ts => set_event tempo_ticks
                       {| tempo_ticks := atTick; tempo_bpm := bpm |} ts)) e).

Definition entry_after_setTimeSignature (e : Entry) (num den atTick : Q) : Entry :=
  with_dirty true
    (with_header
       (with_timeSignatures
          (fun ss => set_event ts_ticks
                       {| ts_ticks := atTick; ts_timeSignature := (num, den) |} ss)) e).


(** The document under an alias is marked dirty, and unloading it reports
    unsaved changes. *)
Definition marked_dirty (alias : string) (st : Store) : Prop :=
  exists e, st !! alias = Some e /\ dirty e = true /\
    snd (unloadMidi alias st)
    = Unloaded {| unload_alias := alias; unloaded := true; hadUnsavedChanges := true |}.

(** The measure numbers from [a] to [b], both included; none when b < a. *)
Definition measure_numbers (a b : Z) : list Z :=
  map (fun k => a + Z.of_nat k) (seq 0 (Z.to_nat (b - a + 1))).

(** The notes of the tracks a query scans, track after track. *)
Definition scanned_notes (midi : Midi) (trackIndex : option Z) : list Note :=
  concat (map (fun it => notes (snd it)) (tracksToScan midi trackIndex)).

(** Ascending order on (beat, pitch), the keys of a measure's note. *)
Definition measure_note_le (a b : MeasureNote) : Prop :=
  (mn_beat a < mn_beat b)%Q \/ ((mn_beat a == mn_beat b)%Q /\ mn_midi a <= mn_midi b).

(** What [getMeasures] lists for one measure: the notes of the scanned
    tracks whose onset lies in the measure's range, in (beat, pitch) order,
    with the time signature and the tempo sampled at the measure's start. *)
Definition lists_onsets_of_measure (midi : Midi) (trackIndex : option Z)
    (info : MeasureInfo) : Prop :=
  let range := measureToTicks midi (info_measure info) in
  Permutation (map mn_midi (info_notes info))
    (map note_midi
       (List.filter (in_range (start range) (Some (end_ range)))
          (scanned_notes midi trackIndex)))
  /\ StronglySorted measure_note_le (info_notes info)
  /\ (text_numerator (info_timeSignature info), text_denominator (info_timeSignature info))
     = timeSigAtTick midi (start range)
  /\ info_tempo info
     = (inject_Z (JS.Math_round (tempoAtTick midi (start range) * 10)) / 10)%Q.

(** ** Views of the double arithmetic *)

(** A number that rounding leaves as it is. *)
Definition is_double (x : Q) : Prop := (JS.double x == x)%Q.

(** Every measure of the document is at least [c] ticks long. *)
Definition measures_at_least (c : Q) (midi : Midi) : Prop :=
  forall tick, (c <= Double.ticksPerMeasure midi tick)%Q.

(** The length of a measure under a time signature, as computed. *)
Definition double_measure_length (midi : Midi) (sig : Q * Q) : Q :=
  JS.mul (JS.mul (ppq (header midi)) (fst sig)) (JS.div 4 (snd sig)).

(** 2^53: every integer up to it in magnitude is a double. *)
Definition two_53 : Q := 9007199254740992%Q.

(** The product [Math.round(ticks / gridTicks) * gridTicks] of
    [quantizeNotes] is not rounded. *)
Definition snaps_exactly (gridTicks : Z) (ticks : Q) : Prop :=
  is_double (inject_Z (JS.Math_round (JS.div ticks (inject_Z gridTicks)))
             * inject_Z gridTicks).

(** Every onset of the document lies below [b]. *)
Definition onsets_below (b : Q) (midi : Midi) : Prop :=
  Forall (fun track => Forall (fun note => (note_ticks note < b)%Q) (notes track))
         (tracks midi).

(** The budget [fuel] suffices to convert the onset of [note] in doubles. *)
Definition double_converts (midi : Midi) (fuel : nat) (note : Note) : Prop :=
  is_Some (Double.tickToMeasureBeat fuel midi (note_ticks note)).
(** * Comparisons of numbers *)

Module JSFacts.

Lemma ltb_lt x y : JS.ltb x y = true <-> (x < y)%Q.
Proof.
  unfold JS.ltb. rewrite negb_true_iff, <- not_true_iff_false, Qle_bool_iff.
  split; [apply Qnot_le_lt | apply Qlt_not_le].
Qed.

Lemma ltb_ge x y : JS.ltb x y = false <-> (y <= x)%Q.
Proof. unfold JS.ltb. rewrite negb_false_iff. apply Qle_bool_iff. Qed.

Lemma leb_le x y : JS.leb x y = true <-> (x <= y)%Q.
Proof. apply Qle_bool_iff. Qed.

Lemma leb_gt x y : JS.leb x y = false <-> (y < x)%Q.
Proof.
  unfold JS.leb. rewrite <- not_true_iff_false, Qle_bool_iff.
  split; [apply Qnot_le_lt | apply Qlt_not_le].
Qed.

End JSFacts.

(** * Temporal map: properties *)

Section TemporalMap.

#[local] Instance tempo_before_trans : Transitive tempo_before.
Proof. intros a b c; unfold tempo_before; apply Qlt_trans. Qed.

Lemma tempos_upto_late tick t ts :
  StronglySorted tempo_before (t :: ts) ->
  JS.leb (tempo_ticks t) tick = false ->
  tempos_upto tick ts = [].
Proof.
  intros Hs Hlate. apply StronglySorted_inv in Hs as [_ Hall].
  apply JSFacts.leb_gt in Hlate.
  induction ts as [|u ts IH]; [reflexivity|].
  apply Forall_cons in Hall as [Hu Hall]. simpl.
  assert (JS.leb (tempo_ticks u) tick = false) as ->.
  { apply JSFacts.leb_gt. eapply Qlt_trans; [exact Hlate | exact Hu]. }
  auto.
Qed.

Lemma tempo_scan_last ts : forall tick b,
  StronglySorted tempo_before ts ->
  tempo_scan ts tick b =
    match last (tempos_upto tick ts) with
    | Some e => tempo_bpm e
    | None => b
    end.
Proof.
  induction ts as [|t ts IH]; intros tick b Hs; [reflexivity|].
  simpl. destruct (JS.leb (tempo_ticks t) tick) eqn:Ht.
  - rewrite IH by (apply StronglySorted_inv in Hs; tauto).
    rewrite last_cons. destruct (last (tempos_upto tick ts)); reflexivity.
  - fold (tempos_upto tick ts). erewrite tempos_upto_late; eauto.
Qed.

Lemma tempo_scan_comp ts : forall tick tick' b,
  (tick == tick')%Q -> tempo_scan ts tick' b = tempo_scan ts tick b.
Proof.
  induction ts as [|t ts IH]; intros tick tick' b Heq; [reflexivity|].
  simpl. unfold JS.leb. rewrite <- Heq.
  destruct (Qle_bool (tempo_ticks t) tick); auto.
Qed.

End TemporalMap.

(** C2, as stated, fails: the list is strictly increasing and holds no event
    at or before tick 0, yet the lookup answers the first event's 90 bpm, not
    120. *)
Lemma tempoAtTick_not_default_before_first :
  Sorted tempo_before (tempos (header late_tempo_midi)) /\
  tempos_upto 0 (tempos (header late_tempo_midi)) = [] /\
  tempoAtTick late_tempo_midi 0 = 90%Q /\
  ~ (tempoAtTick late_tempo_midi 0 == 120)%Q.
Proof.
  repeat split.
  - repeat constructor.
  - intros H. vm_compute in H. discriminate.
Qed.

(** C2 (amended): for strictly increasing tempo ticks, [tempoAtTick] is the
    bpm of the last event at or before the tick; when there is none it is 120
    for an empty list and the first event's bpm otherwise; queries at equal
    ticks agree. *)
Theorem tempoAtTick_step_function (midi : Midi) (T : Q) :
  Sorted tempo_before (tempos (header midi)) ->
  tempoAtTick midi T =
    match last (tempos_upto T (tempos (header midi))) with
    | Some e => tempo_bpm e
    | None =>
        match tempos (header midi) with
        | [] => 120%Q
        | t0 :: _ => tempo_bpm t0
        end
    end
  /\ (forall T', (T == T')%Q -> tempoAtTick midi T' = tempoAtTick midi T).
Proof.
  intros Hs. apply Sorted_StronglySorted in Hs; [|apply tempo_before_trans].
  unfold tempoAtTick. split.
  - destruct (tempos (header midi)) as [|t0 ts] eqn:E; [reflexivity|].
    now rewrite tempo_scan_last.
  - intros T' Heq. destruct (tempos (header midi)); [reflexivity|].
    now apply tempo_scan_comp.
Qed.

(** Tick 1000 lies between the events at 960 and 1920: 140 bpm. *)
Lemma tempoAtTick_step_function_witness :
  Sorted tempo_before (tempos (header three_tempo_midi)) /\
  tempoAtTick three_tempo_midi 1000 = 140%Q.
Proof.
  assert (Sorted tempo_before (tempos (header three_tempo_midi))) as Hs
    by (repeat constructor).
  split; [exact Hs|].
  exact (proj1 (tempoAtTick_step_function three_tempo_midi 1000 Hs)).
Defined.


(** * Doubles: properties of the rounding *)

(** ** Powers of two *)

Lemma two_pow_pos (e : Z) : (0 < 2 ^ e)%Q.
Proof. apply Qpower_0_lt. reflexivity. Qed.

Lemma two_pow_add (a b : Z) : (2 ^ (a + b) == 2 ^ a * 2 ^ b)%Q.
Proof. apply Qpower_plus. discriminate. Qed.

Lemma two_pow_sub (a b : Z) : (2 ^ (a - b) == 2 ^ a / 2 ^ b)%Q.
Proof.
  unfold Z.sub. rewrite two_pow_add, Qpower_opp. reflexivity.
Qed.

Lemma two_pow_le (a b : Z) : a <= b -> (2 ^ a <= 2 ^ b)%Q.
Proof. intros H. apply Qpower_le_compat_l; [exact H | discriminate]. Qed.

Lemma two_pow_lt (a b : Z) : a < b -> (2 ^ a < 2 ^ b)%Q.
Proof. intros H. apply Qpower_lt_compat_l; [exact H | reflexivity]. Qed.

Lemma two_pow_lt_inv (a b : Z) : (2 ^ a < 2 ^ b)%Q -> a < b.
Proof. intros H. apply (Qpower_lt_compat_l_inv 2); [exact H | reflexivity]. Qed.

Lemma two_pow_Z (e : Z) : 0 <= e -> (2 ^ e == inject_Z (2 ^ e))%Q.
Proof. intros H. symmetry. apply (Zpower_Qpower 2 e H). Qed.

Lemma two_pow_cancel (a : Z) (x : Q) : (x / 2 ^ a * 2 ^ a == x)%Q.
Proof.
  field. intros H. pose proof (two_pow_pos a) as P. rewrite H in P.
  discriminate P.
Qed.

(** ** The position of the leading bit *)

Lemma ilog2_spec (x : Q) :
  (0 < x)%Q -> (2 ^ JS.ilog2 x <= x)%Q /\ (x < 2 ^ (JS.ilog2 x + 1))%Q.
Proof.
  intros Hx. destruct x as [n d].
  assert (Hn : 0 < n) by (unfold Qlt in Hx; simpl in Hx; lia).
  set (a := Z.log2 n). set (b := Z.log2 (Zpos d)).
  destruct (Z.log2_spec n Hn) as [La Ua]. fold a in La, Ua.
  destruct (Z.log2_spec (Zpos d) eq_refl) as [Lb Ub]. fold b in Lb, Ub.
  assert (Ha : 0 <= a) by apply Z.log2_nonneg.
  assert (Hb : 0 <= b) by apply Z.log2_nonneg.
  assert (Hd : (0 < inject_Z (Zpos d))%Q) by reflexivity.
  assert (E : (n # d == inject_Z n / inject_Z (Zpos d))%Q) by apply Qmake_Qdiv.
  assert (Up : (n # d < 2 ^ (a - b + 1))%Q).
  { rewrite E. apply Qlt_shift_div_r; [exact Hd|].
    apply Qlt_le_trans with (2 ^ (a + 1))%Q.
    - rewrite (two_pow_Z (a + 1)) by lia. rewrite <- Zlt_Qlt. exact Ua.
    - replace (a + 1) with ((a - b + 1) + b) at 1 by ring.
      rewrite two_pow_add. apply Qmult_le_l; [apply two_pow_pos|].
      rewrite (two_pow_Z b) by lia. rewrite <- Zle_Qle. exact Lb. }
  assert (Lo : (2 ^ (a - b - 1) <= n # d)%Q).
  { rewrite E. apply Qle_shift_div_l; [exact Hd|].
    apply Qle_trans with (2 ^ a)%Q.
    - replace a with ((a - b - 1) + (b + 1)) at 2 by ring.
      rewrite two_pow_add. apply Qmult_le_l; [apply two_pow_pos|].
      rewrite (two_pow_Z (b + 1)) by lia. rewrite <- Zle_Qle.
      apply Z.lt_le_incl. exact Ub.
    - rewrite (two_pow_Z a) by lia. rewrite <- Zle_Qle. exact La. }
  unfold JS.ilog2. cbn [Qnum Qden]. fold a b.
  destruct (Qle_bool (2 ^ (a - b)) (n # d)) eqn:C.
  - apply Qle_bool_iff in C. split; [exact C | exact Up].
  - split; [exact Lo|].
    replace (a - b - 1 + 1) with (a - b) by ring.
    apply Qnot_le_lt. intros H. apply Qle_bool_iff in H. congruence.
Qed.

Lemma ilog2_unique (x : Q) (k : Z) :
  (2 ^ k <= x)%Q -> (x < 2 ^ (k + 1))%Q -> JS.ilog2 x = k.
Proof.
  intros L U.
  assert (Hx : (0 < x)%Q) by (eapply Qlt_le_trans; [apply two_pow_pos | exact L]).
  destruct (ilog2_spec x Hx) as [L' U'].
  assert (k < JS.ilog2 x + 1).
  { apply two_pow_lt_inv. eapply Qle_lt_trans; [exact L | exact U']. }
  assert (JS.ilog2 x < k + 1).
  { apply two_pow_lt_inv. eapply Qle_lt_trans; [exact L' | exact U]. }
  lia.
Qed.

Lemma ilog2_comp (x y : Q) : (x == y)%Q -> (0 < x)%Q -> JS.ilog2 x = JS.ilog2 y.
Proof.
  intros E Hx. symmetry. destruct (ilog2_spec x Hx) as [L U].
  apply ilog2_unique; rewrite <- E; assumption.
Qed.

Lemma ilog2_mono (x y : Q) : (0 < x)%Q -> (x <= y)%Q -> JS.ilog2 x <= JS.ilog2 y.
Proof.
  intros Hx Hxy.
  assert (Hy : (0 < y)%Q) by (eapply Qlt_le_trans; eassumption).
  destruct (ilog2_spec x Hx) as [L _]. destruct (ilog2_spec y Hy) as [_ U].
  assert (JS.ilog2 x < JS.ilog2 y + 1); [|lia].
  apply two_pow_lt_inv. eapply Qle_lt_trans; [exact L|].
  eapply Qle_lt_trans; [exact Hxy | exact U].
Qed.

(** ** Rounding to the nearest integer, ties to even *)

Lemma round_half_even_comp (x y : Q) :
  (x == y)%Q -> JS.round_half_even x = JS.round_half_even y.
Proof.
  intros E. unfold JS.round_half_even.
  assert (F : Qfloor x = Qfloor y) by (rewrite E; reflexivity).
  rewrite F.
  assert (C : (x - inject_Z (Qfloor y) ?= 1 # 2)%Q = (y - inject_Z (Qfloor y) ?= 1 # 2)%Q).
  { apply Qcompare_comp; [rewrite E|]; reflexivity. }
  rewrite C. reflexivity.
Qed.

Lemma floor_bounds (x : Q) :
  (inject_Z (Qfloor x) <= x)%Q /\ (x < inject_Z (Qfloor x) + 1)%Q.
Proof.
  split; [apply Qfloor_le|].
  pose proof (Qlt_floor x) as H. rewrite inject_Z_plus in H. exact H.
Qed.

Lemma floor_unique (x : Q) (n : Z) :
  (inject_Z n <= x)%Q -> (x < inject_Z n + 1)%Q -> Qfloor x = n.
Proof.
  intros L U. destruct (floor_bounds x) as [L' U'].
  assert (n < Qfloor x + 1).
  { rewrite Zlt_Qlt, inject_Z_plus. change (inject_Z 1) with 1%Q. lra. }
  assert (Qfloor x < n + 1).
  { rewrite Zlt_Qlt, inject_Z_plus. change (inject_Z 1) with 1%Q. lra. }
  lia.
Qed.

(** The rounded value, by the position of [x] between two integers. *)
Lemma round_half_even_cases (x : Q) :
  ((x < inject_Z (Qfloor x) + (1 # 2))%Q /\ JS.round_half_even x = Qfloor x)
  \/ ((inject_Z (Qfloor x) + (1 # 2) < x)%Q /\ JS.round_half_even x = Qfloor x + 1)
  \/ ((x == inject_Z (Qfloor x) + (1 # 2))%Q
      /\ JS.round_half_even x = (if Z.even (Qfloor x) then Qfloor x else Qfloor x + 1)).
Proof.
  unfold JS.round_half_even.
  destruct (Qcompare_spec (x - inject_Z (Qfloor x)) (1 # 2)) as [E | L | G].
  - right. right. split; [|reflexivity].
    rewrite <- E. ring.
  - left. split; [|reflexivity].
    apply Qplus_lt_l with (z := (- inject_Z (Qfloor x))%Q). ring_simplify.
    ring_simplify in L. exact L.
  - right. left. split; [lra | reflexivity].
Qed.

Lemma round_half_even_near (x : Q) :
  (inject_Z (JS.round_half_even x) - (1 # 2) <= x)%Q
  /\ (x <= inject_Z (JS.round_half_even x) + (1 # 2))%Q.
Proof.
  destruct (floor_bounds x) as [L U].
  destruct (round_half_even_cases x) as [[H ->] | [[H ->] | [H ->]]].
  - lra.
  - rewrite inject_Z_plus. change (inject_Z 1) with 1%Q. lra.
  - destruct (Z.even (Qfloor x));
      [|rewrite inject_Z_plus; change (inject_Z 1) with 1%Q]; lra.
Qed.

Lemma round_half_even_Z (n : Z) : JS.round_half_even (inject_Z n) = n.
Proof.
  destruct (round_half_even_cases (inject_Z n)) as [[H E] | [[H E] | [H E]]];
    rewrite Qfloor_Z in *.
  - exact E.
  - lra.
  - lra.
Qed.

Lemma round_half_even_mono (x y : Q) :
  (x <= y)%Q -> JS.round_half_even x <= JS.round_half_even y.
Proof.
  intros Hxy.
  pose proof (Qfloor_resp_le x y Hxy) as Hf.
  destruct (floor_bounds x) as [Lx Ux]. destruct (floor_bounds y) as [Ly Uy].
  destruct (Z.eq_dec (Qfloor x) (Qfloor y)) as [E | N].
  - destruct (round_half_even_cases x) as [[Hx ->] | [[Hx ->] | [Hx ->]]];
    destruct (round_half_even_cases y) as [[Hy ->] | [[Hy ->] | [Hy ->]]];
    rewrite <- ?E in *; try lia; try lra;
    destruct (Z.even (Qfloor x)); lia || lra.
  - assert (Qfloor x + 1 <= Qfloor y) by lia.
    assert (JS.round_half_even x <= Qfloor x + 1).
    { destruct (round_half_even_cases x) as [[_ ->] | [[_ ->] | [_ ->]]];
        [lia | lia | destruct (Z.even (Qfloor x)); lia]. }
    assert (Qfloor y <= JS.round_half_even y).
    { destruct (round_half_even_cases y) as [[_ ->] | [[_ ->] | [_ ->]]];
        [lia | lia | destruct (Z.even (Qfloor y)); lia]. }
    lia.
Qed.

Lemma round_half_even_opp (x : Q) :
  JS.round_half_even (- x) = - JS.round_half_even x.
Proof.
  destruct (floor_bounds x) as [L U].
  destruct (Qeq_dec x (inject_Z (Qfloor x))) as [E | N].
  - rewrite (round_half_even_comp x _ E).
    assert (E' : (- x == inject_Z (- Qfloor x))%Q) by (rewrite inject_Z_opp, <- E; reflexivity).
    rewrite (round_half_even_comp _ _ E'), !round_half_even_Z. reflexivity.
  - assert (F : Qfloor (- x) = - Qfloor x - 1).
    { apply floor_unique; unfold Z.sub; rewrite inject_Z_plus, !inject_Z_opp;
        change (inject_Z 1) with 1%Q.
      - assert (x <= inject_Z (Qfloor x) + 1)%Q by lra. lra.
      - assert (inject_Z (Qfloor x) < x)%Q; [|lra].
        apply Qle_lteq in L. destruct L as [L | L]; [exact L|].
        exfalso. apply N. symmetry. exact L. }
    assert (IF : (inject_Z (Qfloor (- x)) == - inject_Z (Qfloor x) - 1)%Q).
    { rewrite F. unfold Z.sub. rewrite inject_Z_plus, !inject_Z_opp. reflexivity. }
    change (inject_Z 1) with 1%Q in *.
    destruct (round_half_even_cases x) as [[Hx ->] | [[Hx ->] | [Hx ->]]];
    destruct (round_half_even_cases (- x)) as [[Hy ->] | [[Hy ->] | [Hy ->]]];
    rewrite ?IF in Hy; try lra; rewrite ?F; try lia.
    rewrite Z.even_sub, Z.even_opp.
    destruct (Z.even (Qfloor x)); simpl; lia.
Qed.

(** ** Rounding to a double *)

Lemma double_zero (x : Q) : (x == 0)%Q -> JS.double x = 0%Q.
Proof.
  intros E. unfold JS.double.
  apply Qeq_bool_iff in E. rewrite E. reflexivity.
Qed.

Lemma double_unfold (x : Q) :
  ~ (x == 0)%Q ->
  (JS.double x
   == inject_Z (JS.round_half_even (x / 2 ^ JS.exponent x)) * 2 ^ JS.exponent x)%Q.
Proof.
  intros N. unfold JS.double.
  destruct (Qeq_bool x 0) eqn:E.
  - apply Qeq_bool_iff in E. contradiction.
  - apply Qred_correct.
Qed.

Lemma Qabs_pos_lt (x : Q) : ~ (x == 0)%Q -> (0 < Qabs x)%Q.
Proof.
  intros N. destruct (Qlt_le_dec 0 (Qabs x)) as [H | H]; [exact H|].
  exfalso. apply N. pose proof (Qabs_nonneg x) as P.
  assert (E : (Qabs x == 0)%Q) by lra.
  destruct (Qlt_le_dec x 0) as [Hx | Hx].
  - rewrite Qabs_neg in E by lra. lra.
  - rewrite Qabs_pos in E by exact Hx. exact E.
Qed.

Lemma exponent_comp (x y : Q) :
  (x == y)%Q -> ~ (x == 0)%Q -> JS.exponent x = JS.exponent y.
Proof.
  intros E N. unfold JS.exponent. f_equal. f_equal.
  apply ilog2_comp; [rewrite E; reflexivity | apply Qabs_pos_lt, N].
Qed.

Lemma exponent_opp (x : Q) : JS.exponent (- x) = JS.exponent x.
Proof.
  unfold JS.exponent. destruct x as [n d]. unfold Qopp, Qabs. cbn [Qnum Qden].
  rewrite Z.abs_opp. reflexivity.
Qed.

Lemma exponent_min (x : Q) : -1074 <= JS.exponent x.
Proof. unfold JS.exponent. lia. Qed.

Lemma double_comp (x y : Q) : (x == y)%Q -> JS.double x = JS.double y.
Proof.
  intros E. destruct (Qeq_dec x 0) as [Z | N].
  - rewrite (double_zero x Z), (double_zero y); [reflexivity | rewrite <- E; exact Z].
  - unfold JS.double.
    assert (Bx : Qeq_bool x 0 = false).
    { destruct (Qeq_bool x 0) eqn:B; [|reflexivity].
      apply Qeq_bool_iff in B. contradiction. }
    assert (By : Qeq_bool y 0 = false).
    { destruct (Qeq_bool y 0) eqn:B; [|reflexivity].
      apply Qeq_bool_iff in B. rewrite <- E in B. contradiction. }
    rewrite Bx, By, <- (exponent_comp x y E N).
    apply Qred_complete.
    rewrite (round_half_even_comp (x / 2 ^ JS.exponent x) (y / 2 ^ JS.exponent x));
      [reflexivity | apply Qdiv_comp; [exact E | reflexivity]].
Qed.

#[global] Instance double_proper : Proper (Qeq ==> Qeq) JS.double.
Proof. intros x y E. rewrite (double_comp x y E). reflexivity. Qed.

Lemma double_opp (x : Q) : (JS.double (- x) == - JS.double x)%Q.
Proof.
  destruct (Qeq_dec x 0) as [Z | N].
  - rewrite (double_zero x Z), (double_zero (- x)); [reflexivity | rewrite Z; reflexivity].
  - assert (N' : ~ (- x == 0)%Q) by (intros H; apply N; lra).
    rewrite (double_unfold x N), (double_unfold (- x) N'), exponent_opp.
    assert (E : (- x / 2 ^ JS.exponent x == - (x / 2 ^ JS.exponent x))%Q).
    { field. intros H. pose proof (two_pow_pos (JS.exponent x)) as P. lra. }
    rewrite (round_half_even_comp _ _ E), round_half_even_opp, inject_Z_opp.
    ring.
Qed.

(** A number [M * 2^e] with at most 53 significant bits, not below the
    smallest exponent, is a double. *)
Lemma double_representable (x : Q) (M e : Z) :
  (x == inject_Z M * 2 ^ e)%Q -> Z.abs M <= 2 ^ 53 -> -1074 <= e ->
  (JS.double x == x)%Q.
Proof.
  assert (Main : forall x M e,
    (x == inject_Z M * 2 ^ e)%Q -> Z.abs M < 2 ^ 53 -> -1074 <= e ->
    (JS.double x == x)%Q).
  { clear. intros x M e E B He.
    destruct (Qeq_dec x 0) as [Z | N].
    { rewrite (double_zero x Z). symmetry. exact Z. }
    rewrite (double_unfold x N).
    set (e' := JS.exponent x).
    assert (Le : e' <= e).
    { unfold e', JS.exponent.
      destruct (ilog2_spec (Qabs x) (Qabs_pos_lt x N)) as [L _].
      assert (JS.ilog2 (Qabs x) < 53 + e); [|lia].
      apply two_pow_lt_inv. eapply Qle_lt_trans; [exact L|].
      rewrite E, Qabs_Qmult, (Qabs_pos (2 ^ e)), two_pow_add
        by (apply Qlt_le_weak, two_pow_pos).
      apply Qmult_lt_compat_r; [apply two_pow_pos|].
      rewrite (two_pow_Z 53) by lia.
      change (Qabs (inject_Z M)) with (inject_Z (Z.abs M)).
      rewrite <- Zlt_Qlt. exact B. }
    assert (S : (x / 2 ^ e' == inject_Z (M * 2 ^ (e - e')))%Q).
    { rewrite inject_Z_mult, <- (two_pow_Z (e - e')) by lia.
      rewrite two_pow_sub, E. field.
      intros H. pose proof (two_pow_pos e') as P. lra. }
    rewrite (round_half_even_comp _ _ S), round_half_even_Z, <- S.
    apply two_pow_cancel. }
  intros E B He.
  destruct (Z.eq_dec (Z.abs M) (2 ^ 53)) as [T | T].
  - apply (Main x (M / 2) (e + 1)); [| |lia].
    + rewrite E, two_pow_add.
      assert (D : M = 2 * (M / 2)).
      { apply Z.div_exact; [lia|].
        destruct (Z.abs_spec M) as [[_ A] | [_ A]]; rewrite A in T.
        - rewrite T. reflexivity.
        - replace M with (- 2 ^ 53) by lia. reflexivity. }
      rewrite D at 1. rewrite inject_Z_mult.
      change (2 ^ 1)%Q with 2%Q. change (inject_Z 2) with 2%Q. ring.
    + destruct (Z.abs_spec M) as [[_ A] | [_ A]]; rewrite A in T.
      * rewrite T. reflexivity.
      * replace M with (- 2 ^ 53) by lia. reflexivity.
  - apply (Main x M e E); lia.
Qed.

Lemma double_Z (n : Z) : Z.abs n <= 2 ^ 53 -> (JS.double (inject_Z n) == inject_Z n)%Q.
Proof.
  intros B. apply (double_representable _ n 0); [|exact B|lia].
  change (2 ^ 0)%Q with 1%Q. ring.
Qed.

Lemma double_nonneg (x : Q) : (0 <= x)%Q -> (0 <= JS.double x)%Q.
Proof.
  intros Hx. destruct (Qeq_dec x 0) as [Z | N].
  - rewrite (double_zero x Z). apply Qle_refl.
  - rewrite (double_unfold x N).
    apply Qmult_le_0_compat; [|apply Qlt_le_weak, two_pow_pos].
    change 0%Q with (inject_Z 0). rewrite <- Zle_Qle.
    rewrite <- (round_half_even_Z 0). apply round_half_even_mono.
    apply Qle_shift_div_l; [apply two_pow_pos|].
    change (inject_Z 0) with 0%Q. rewrite Qmult_0_l. exact Hx.
Qed.

(** Bounds of the rounded value of a positive number by the powers of two
    around it. *)
Lemma double_upper (x : Q) :
  (0 < x)%Q ->
  (JS.double x <= 2 ^ Z.max (JS.ilog2 x + 1) (JS.exponent x))%Q.
Proof.
  intros Hx.
  assert (N : ~ (x == 0)%Q) by lra.
  rewrite (double_unfold x N).
  set (e := JS.exponent x). set (l := JS.ilog2 x).
  destruct (ilog2_spec x Hx) as [_ U]. fold l in U.
  set (k := Z.max (l + 1 - e) 0).
  replace (Z.max (l + 1) e) with (k + e) by lia.
  rewrite two_pow_add. apply Qmult_le_compat_r; [|apply Qlt_le_weak, two_pow_pos].
  rewrite (two_pow_Z k) by lia. rewrite <- Zle_Qle.
  rewrite <- (round_half_even_Z (2 ^ k)). apply round_half_even_mono.
  rewrite <- (two_pow_Z k) by lia.
  apply Qle_shift_div_r; [apply two_pow_pos|].
  rewrite <- two_pow_add. apply Qlt_le_weak.
  eapply Qlt_le_trans; [exact U|]. apply two_pow_le. lia.
Qed.

Lemma double_lower (x : Q) :
  (0 < x)%Q -> -1074 <= JS.ilog2 x - 52 ->
  (2 ^ JS.ilog2 x <= JS.double x)%Q.
Proof.
  intros Hx He.
  assert (N : ~ (x == 0)%Q) by lra.
  rewrite (double_unfold x N).
  assert (A : (Qabs x == x)%Q) by (apply Qabs_pos; lra).
  assert (E : JS.exponent x = JS.ilog2 x - 52).
  { unfold JS.exponent. rewrite (ilog2_comp _ _ A) by (rewrite A; exact Hx). lia. }
  rewrite E. set (l := JS.ilog2 x).
  destruct (ilog2_spec x Hx) as [L _]. fold l in L.
  replace l with (52 + (l - 52)) at 1 by ring.
  rewrite two_pow_add. apply Qmult_le_compat_r; [|apply Qlt_le_weak, two_pow_pos].
  rewrite (two_pow_Z 52) by lia. rewrite <- Zle_Qle.
  rewrite <- (round_half_even_Z (2 ^ 52)). apply round_half_even_mono.
  rewrite <- (two_pow_Z 52) by lia.
  apply Qle_shift_div_l; [apply two_pow_pos|].
  rewrite <- two_pow_add. replace (52 + (l - 52)) with l by ring. exact L.
Qed.

Lemma exponent_pos (x : Q) :
  (0 < x)%Q -> JS.exponent x = Z.max (JS.ilog2 x - 52) (-1074).
Proof.
  intros Hx. unfold JS.exponent.
  assert (A : (Qabs x == x)%Q) by (apply Qabs_pos; lra).
  rewrite (ilog2_comp _ _ A) by (rewrite A; exact Hx). reflexivity.
Qed.

Lemma double_mono_pos (x y : Q) :
  (0 < x)%Q -> (x <= y)%Q -> (JS.double x <= JS.double y)%Q.
Proof.
  intros Hx Hxy.
  assert (Hy : (0 < y)%Q) by lra.
  pose proof (ilog2_mono x y Hx Hxy) as Hl.
  pose proof (exponent_pos x Hx) as Ex. pose proof (exponent_pos y Hy) as Ey.
  destruct (Z.eq_dec (JS.exponent x) (JS.exponent y)) as [E | NE].
  - rewrite (double_unfold x), (double_unfold y) by lra.
    rewrite E. apply Qmult_le_compat_r; [|apply Qlt_le_weak, two_pow_pos].
    rewrite <- Zle_Qle. apply round_half_even_mono.
    apply Qmult_le_compat_r; [exact Hxy|].
    apply Qlt_le_weak, Qinv_lt_0_compat, two_pow_pos.
  - eapply Qle_trans; [apply (double_upper x Hx)|].
    eapply Qle_trans; [|apply (double_lower y Hy); lia].
    apply two_pow_le. lia.
Qed.

Lemma double_mono (x y : Q) : (x <= y)%Q -> (JS.double x <= JS.double y)%Q.
Proof.
  intros Hxy.
  destruct (Qlt_le_dec 0 x) as [Hx | Hx].
  - apply double_mono_pos; assumption.
  - destruct (Qlt_le_dec y 0) as [Hy | Hy].
    + assert (H : (JS.double (- y) <= JS.double (- x))%Q)
        by (apply double_mono_pos; lra).
      rewrite !double_opp in H. lra.
    + assert (H : (0 <= JS.double (- x))%Q) by (apply double_nonneg; lra).
      rewrite double_opp in H.
      pose proof (double_nonneg y Hy). lra.
Qed.

Lemma double_idem (x : Q) : (JS.double (JS.double x) == JS.double x)%Q.
Proof.
  assert (Pos : forall x, (0 < x)%Q -> (JS.double (JS.double x) == JS.double x)%Q).
  { clear. intros x Hx.
    assert (N : ~ (x == 0)%Q) by lra.
    apply (double_representable _
             (JS.round_half_even (x / 2 ^ JS.exponent x)) (JS.exponent x));
      [apply double_unfold, N | | apply exponent_min].
    assert (S : (0 <= x / 2 ^ JS.exponent x)%Q).
    { apply Qle_shift_div_l; [apply two_pow_pos | lra]. }
    assert (L : 0 <= JS.round_half_even (x / 2 ^ JS.exponent x)).
    { rewrite <- (round_half_even_Z 0). apply round_half_even_mono. exact S. }
    rewrite Z.abs_eq by exact L.
    rewrite <- (round_half_even_Z (2 ^ 53)). apply round_half_even_mono.
    rewrite <- (two_pow_Z 53) by lia.
    apply Qle_shift_div_r; [apply two_pow_pos|].
    rewrite <- two_pow_add.
    destruct (ilog2_spec x Hx) as [_ U].
    apply Qlt_le_weak. eapply Qlt_le_trans; [exact U|].
    apply two_pow_le. rewrite (exponent_pos x Hx). lia. }
  destruct (Qlt_le_dec 0 x) as [Hx | Hx]; [apply Pos, Hx|].
  destruct (Qeq_dec x 0) as [Z | N].
  - rewrite (double_zero x Z). reflexivity.
  - assert (H : (JS.double (JS.double (- x)) == JS.double (- x))%Q) by (apply Pos; lra).
    rewrite (double_comp (JS.double (- x)) (- JS.double x)) in H by apply double_opp.
    rewrite !double_opp in H. lra.
Qed.

(** Rounding never crosses a double. *)
Lemma double_le_double (x d : Q) :
  (JS.double d == d)%Q -> (x <= d)%Q -> (JS.double x <= d)%Q.
Proof. intros D H. rewrite <- D. apply double_mono, H. Qed.

Lemma double_ge_double (x d : Q) :
  (JS.double d == d)%Q -> (d <= x)%Q -> (d <= JS.double x)%Q.
Proof. intros D H. rewrite <- D. apply double_mono, H. Qed.

(** ** Doubles in canonical form *)

Lemma double_canonical x : Qred (JS.double x) = JS.double x.
Proof.
  unfold JS.double. destruct (Qeq_bool x 0); [reflexivity|].
  apply Qred_complete, Qred_correct.
Qed.

(** Two roundings that agree as numbers are the same value. *)
Lemma double_leibniz a b :
  (JS.double a == JS.double b)%Q -> JS.double a = JS.double b.
Proof.
  intros E. rewrite <- (double_canonical a), <- (double_canonical b).
  apply Qred_complete, E.
Qed.

Lemma double_of_double a : JS.double (JS.double a) = JS.double a.
Proof. apply (double_leibniz (JS.double a) a), double_idem. Qed.

(** ** Doubles and integers *)

Lemma zero_is_double : is_double 0.
Proof. reflexivity. Qed.

Lemma Z_is_double n : Z.abs n <= 2 ^ 53 -> is_double (inject_Z n).
Proof. apply double_Z. Qed.

Lemma ilog2_two_pow k : JS.ilog2 (2 ^ k) = k.
Proof.
  apply ilog2_unique; [apply Qle_refl | apply two_pow_lt; lia].
Qed.

(** A double of magnitude 2^52 or more is an integer. *)
Lemma large_double_is_integer x :
  is_double x -> (2 ^ 52 <= x)%Q -> exists n, (x == inject_Z n)%Q.
Proof.
  intros Hx Hbig.
  assert (Hpos : (0 < x)%Q).
  { eapply Qlt_le_trans; [apply (two_pow_pos 52) | exact Hbig]. }
  assert (N : ~ (x == 0)%Q) by lra.
  pose proof (double_unfold x N) as U. unfold is_double in Hx. rewrite Hx in U.
  assert (He : 0 <= JS.exponent x).
  { rewrite (exponent_pos x Hpos).
    pose proof (ilog2_mono (2 ^ 52) x (two_pow_pos 52) Hbig) as H.
    rewrite ilog2_two_pow in H. lia. }
  exists (JS.round_half_even (x / 2 ^ JS.exponent x) * 2 ^ JS.exponent x).
  rewrite inject_Z_mult, <- (two_pow_Z _ He). exact U.
Qed.

(** ** The sign of a difference of doubles *)

(** Every double is a whole multiple of 2^-1074. *)
Lemma double_on_grid x :
  is_double x -> exists K, (x == inject_Z K * 2 ^ (-1074))%Q.
Proof.
  intros Hx. destruct (Qeq_dec x 0) as [Z | N].
  - exists 0. rewrite Z. change (inject_Z 0) with 0%Q. ring.
  - pose proof (double_unfold x N) as U. unfold is_double in Hx. rewrite Hx in U.
    pose proof (exponent_min x) as He.
    exists (JS.round_half_even (x / 2 ^ JS.exponent x) * 2 ^ (JS.exponent x + 1074)).
    rewrite inject_Z_mult, <- (two_pow_Z (JS.exponent x + 1074)) by lia.
    rewrite <- Qmult_assoc, <- two_pow_add.
    replace (JS.exponent x + 1074 + -1074) with (JS.exponent x) by lia.
    exact U.
Qed.

(** The difference of two doubles rounds to a number of the same sign:
    it is zero or at least 2^-1074 in magnitude. *)
Lemma double_sub_positive x y :
  is_double x -> is_double y -> (y < x)%Q -> (0 < JS.sub x y)%Q.
Proof.
  intros Hx Hy Hlt.
  destruct (double_on_grid x Hx) as [Kx Ex]. destruct (double_on_grid y Hy) as [Ky Ey].
  pose proof (two_pow_pos (-1074)) as P.
  assert (HK : Ky < Kx).
  { destruct (Z.lt_ge_cases Ky Kx) as [H | H]; [exact H|]. exfalso.
    rewrite Zle_Qle in H.
    apply (Qmult_le_compat_r _ _ (2 ^ (-1074))) in H; [|lra].
    rewrite <- Ex, <- Ey in H. lra. }
  assert (Hstep : (2 ^ (-1074) <= x - y)%Q).
  { rewrite Ex, Ey.
    assert (H : 1 <= Kx - Ky) by lia.
    rewrite Zle_Qle in H. unfold Z.sub in H.
    rewrite inject_Z_plus, inject_Z_opp in H. change (inject_Z 1) with 1%Q in H.
    apply (Qmult_le_compat_r _ _ (2 ^ (-1074))) in H; [|lra].
    lra. }
  assert (D : is_double (2 ^ (-1074))%Q).
  { apply (double_representable _ 1 (-1074)); [|vm_compute; discriminate|lia].
    change (inject_Z 1) with 1%Q. ring. }
  pose proof (double_ge_double _ _ D Hstep) as H. unfold JS.sub. lra.
Qed.

Lemma double_sub_sign x y :
  is_double x -> is_double y ->
  JS.leb (JS.sub x y) 0 = JS.leb (x - y) 0
  /\ Qeq_bool (JS.sub x y) 0 = Qeq_bool (x - y) 0.
Proof.
  intros Hx Hy.
  destruct (Q_dec x y) as [[Hlt | Hgt] | Heq].
  - assert (H : (0 < JS.sub y x)%Q) by (apply double_sub_positive; assumption).
    assert (E : (JS.sub x y == - JS.sub y x)%Q).
    { unfold JS.sub. rewrite <- double_opp. apply double_proper. ring. }
    split.
    + assert (JS.leb (JS.sub x y) 0 = true) as -> by (apply JSFacts.leb_le; lra).
      symmetry. apply JSFacts.leb_le. lra.
    + assert (Qeq_bool (JS.sub x y) 0 = false) as ->.
      { destruct (Qeq_bool (JS.sub x y) 0) eqn:B; [|reflexivity].
        apply Qeq_bool_iff in B. lra. }
      symmetry. destruct (Qeq_bool (x - y) 0) eqn:B; [|reflexivity].
      apply Qeq_bool_iff in B. lra.
  - assert (H : (0 < JS.sub x y)%Q) by (apply double_sub_positive; assumption).
    split.
    + assert (JS.leb (JS.sub x y) 0 = false) as -> by (apply JSFacts.leb_gt; lra).
      symmetry. apply JSFacts.leb_gt. lra.
    + assert (Qeq_bool (JS.sub x y) 0 = false) as ->.
      { destruct (Qeq_bool (JS.sub x y) 0) eqn:B; [|reflexivity].
        apply Qeq_bool_iff in B. lra. }
      symmetry. destruct (Qeq_bool (x - y) 0) eqn:B; [|reflexivity].
      apply Qeq_bool_iff in B. lra.
  - assert (E : JS.sub x y = 0%Q) by (unfold JS.sub; apply double_zero; lra).
    rewrite E. split.
    + symmetry. apply JSFacts.leb_le. lra.
    + symmetry. apply Qeq_bool_iff. lra.
Qed.
(** * Coordinate converter: properties *)

Section Converter.

Variable midi : Midi.
Hypothesis Hwf : well_formed midi.

Lemma sig_scan_positive ss : forall tick sig,
  Forall positive_sig ss ->
  (0 < fst sig)%Q /\ (0 < snd sig)%Q ->
  (0 < fst (sig_scan ss tick sig))%Q /\ (0 < snd (sig_scan ss tick sig))%Q.
Proof.
  induction ss as [|s ss IH]; intros tick sig Hall Hsig; [exact Hsig|].
  apply Forall_cons in Hall as [Hs Hall]. simpl.
  destruct (JS.leb (ts_ticks s) tick); [|exact Hsig].
  apply IH; [exact Hall | exact Hs].
Qed.

Lemma timeSigAtTick_positive tick :
  (0 < fst (timeSigAtTick midi tick))%Q /\ (0 < snd (timeSigAtTick midi tick))%Q.
Proof.
  destruct Hwf as [_ Hall]. unfold timeSigAtTick.
  destruct (timeSignatures (header midi)) as [|s0 ss] eqn:E.
  - simpl. split; reflexivity.
  - apply sig_scan_positive; [exact Hall|].
    apply Forall_cons in Hall as [Hs _]. exact Hs.
Qed.

(** The time signature in effect is the default or that of one of the
    events. *)
Lemma sig_scan_choice ss : forall tick sig,
  sig_scan ss tick sig = sig \/
  In (sig_scan ss tick sig) (map ts_timeSignature ss).
Proof.
  induction ss as [|s ss IH]; intros tick sig; simpl; [now left|].
  destruct (JS.leb (ts_ticks s) tick); [|now left].
  destruct (IH tick (fst (ts_timeSignature s), snd (ts_timeSignature s))) as [E|HIn].
  - right. left. rewrite E. now destruct (ts_timeSignature s).
  - right. now right.
Qed.

Lemma timeSigAtTick_choice tick :
  In (timeSigAtTick midi tick)
     ((4%Q, 4%Q) :: map ts_timeSignature (timeSignatures (header midi))).
Proof.
  unfold timeSigAtTick.
  destruct (timeSignatures (header midi)) as [|s0 ss] eqn:E; [now left|].
  right.
  destruct (sig_scan_choice (s0 :: ss) tick
              (fst (ts_timeSignature s0), snd (ts_timeSignature s0))) as [E'|HIn].
  - rewrite E'. left. now destruct (ts_timeSignature s0).
  - exact HIn.
Qed.

End Converter.

(** The conversions read the header only: documents that differ in their
    tracks convert alike. *)
Section SameHeader.

Variables m1 m2 : Midi.
Hypothesis Hheader : header m1 = header m2.

Lemma timeSigAtTick_header tick : timeSigAtTick m1 tick = timeSigAtTick m2 tick.
Proof. unfold timeSigAtTick. now rewrite Hheader. Qed.

Lemma ticksPerMeasure_header tick : ticksPerMeasure m1 tick = ticksPerMeasure m2 tick.
Proof. unfold ticksPerMeasure. now rewrite timeSigAtTick_header, Hheader. Qed.

Lemma measure_walk_header n : forall ct, measure_walk m1 n ct = measure_walk m2 n ct.
Proof.
  induction n as [|n IH]; intros ct; [reflexivity|].
  simpl. now rewrite ticksPerMeasure_header, IH.
Qed.

Lemma measureToTicks_header m : measureToTicks m1 m = measureToTicks m2 m.
Proof.
  unfold measureToTicks. now rewrite measure_walk_header, ticksPerMeasure_header.
Qed.

Lemma range_start_header ms : range_start m1 ms = range_start m2 ms.
Proof. destruct ms; [|reflexivity]. unfold range_start. now rewrite measureToTicks_header. Qed.

Lemma range_end_header me : range_end m1 me = range_end m2 me.
Proof. destruct me; [|reflexivity]. unfold range_end. now rewrite measureToTicks_header. Qed.

End SameHeader.

(** * The store: writes through references *)

Section StoreWrites.

Variables (st : Store) (alias : string) (e : Entry) (i : Z) (t : Track).
Hypothesis Hentry : st !! alias = Some e.
Hypothesis Htrack : track_at (entry_midi e) i = Some t.

Lemma track_at_lookup : tracks (entry_midi e) !! Z.to_nat i = Some t.
Proof. unfold track_at in Htrack. now destruct (i <? 0). Qed.

Lemma with_track_notes f :
  with_track i (with_notes f) e = entry_set_notes e i (f (notes t)).
Proof.
  unfold entry_set_notes, with_track. do 2 f_equal.
  apply list_alter_ext; [|reflexivity].
  intros x Hx. rewrite track_at_lookup in Hx. now injection Hx as <-.
Qed.

Lemma track_at_set_notes ns :
  track_at (entry_midi (entry_set_notes e i ns)) i =
  Some {| track_name := track_name t; notes := ns |}.
Proof.
  pose proof track_at_lookup as Hl. unfold track_at in *. simpl.
  destruct (i <? 0); [discriminate|].
  now rewrite list_lookup_alter_eq, Hl.
Qed.

Lemma update_notes_run f :
  update_notes alias i f st =
  (<[alias := entry_set_notes e i (f (notes t))]> st, Return tt).
Proof.
  unfold update_notes. now rewrite (alter_alt_Some _ _ _ _ Hentry), with_track_notes.
Qed.

Lemma set_dirty_run :
  set_dirty alias st = (<[alias := with_dirty true e]> st, Return tt).
Proof. unfold set_dirty. now rewrite (alter_alt_Some _ _ _ _ Hentry). Qed.

Lemma read_notes_run : read_notes alias i st = (st, Return (notes t)).
Proof. unfold read_notes. now rewrite Hentry, Htrack. Qed.

End StoreWrites.

Lemma entry_set_notes_id e i t :
  track_at (entry_midi e) i = Some t -> entry_set_notes e i (notes t) = e.
Proof.
  intros Htrack. pose proof (track_at_lookup e i t Htrack) as Hl.
  destruct e as [[h ts] fp d]. unfold entry_set_notes, with_track. simpl in *.
  do 2 f_equal.
  transitivity (alter (fun _ => t) (Z.to_nat i) ts).
  - apply list_alter_ext; [|reflexivity].
    intros x Hx. rewrite Hl in Hx. injection Hx as <-. now destruct t.
  - rewrite <- list_insert_alter. now apply list_insert_id.
Qed.

Lemma entry_set_notes_twice e i ns ns' :
  entry_set_notes (entry_set_notes e i ns) i ns' = entry_set_notes e i ns'.
Proof.
  unfold entry_set_notes, with_track. simpl. do 2 f_equal.
  now rewrite list_alter_alter_eq.
Qed.

Lemma track_at_with_dirty e i d :
  track_at (entry_midi (with_dirty d e)) i = track_at (entry_midi e) i.
Proof. reflexivity. Qed.

(** The common opening of the editing calls: the alias is loaded and the
    track exists. *)
Ltac enter_call Hentry Htrack :=
  unfold bind at 1, requireLoaded; rewrite Hentry;
  unfold bind at 1, requireTrack; rewrite Htrack; unfold ret at 1.

(** * The converter in doubles: properties *)

Lemma add_is_double x y : is_double (JS.add x y).
Proof. apply double_idem. Qed.

Lemma mul_is_double x y : is_double (JS.mul x y).
Proof. apply double_idem. Qed.

Lemma div_is_double x y : is_double (JS.div x y).
Proof. apply double_idem. Qed.

(** Adding a non-negative number to a double does not go below it. *)
Lemma add_ge s t : is_double s -> (0 <= t)%Q -> (s <= JS.add s t)%Q.
Proof. intros Hs Ht. apply double_ge_double; [exact Hs | lra]. Qed.

(** Below 2^53, adding at least 1 to a double passes the next integer. *)
Lemma add_advances s t :
  (0 <= s)%Q -> (s < two_53)%Q -> (1 <= t)%Q ->
  Qfloor s + 1 <= Qfloor (JS.add s t).
Proof.
  intros Hs Hb Ht.
  destruct (floor_bounds s) as [Lo Hi].
  assert (F0 : 0 <= Qfloor s).
  { change 0 with (Qfloor 0). apply Qfloor_resp_le, Hs. }
  assert (F1 : Qfloor s < 2 ^ 53).
  { rewrite Zlt_Qlt. eapply Qle_lt_trans; [exact Lo | exact Hb]. }
  assert (D : is_double (inject_Z (Qfloor s + 1))) by (apply Z_is_double; lia).
  rewrite <- (Qfloor_Z (Qfloor s + 1)). apply Qfloor_resp_le.
  apply double_ge_double; [exact D|].
  rewrite inject_Z_plus. change (inject_Z 1) with 1%Q. lra.
Qed.

Section DoubleWalk.

Variable midi : Midi.

Lemma double_ticksPerMeasure_choice tick :
  exists sig,
    In sig ((4%Q, 4%Q) :: map ts_timeSignature (timeSignatures (header midi))) /\
    Double.ticksPerMeasure midi tick = double_measure_length midi sig.
Proof.
  exists (timeSigAtTick midi tick). split; [apply timeSigAtTick_choice|].
  unfold Double.ticksPerMeasure, double_measure_length.
  destruct (timeSigAtTick midi tick); reflexivity.
Qed.

(** The check of [measures_at_least] on the signatures of the document. *)
Lemma measures_at_least_events c :
  Forall (fun sig => (c <= double_measure_length midi sig)%Q)
    ((4%Q, 4%Q) :: map ts_timeSignature (timeSignatures (header midi))) ->
  measures_at_least c midi.
Proof.
  intros Hall tick.
  destruct (double_ticksPerMeasure_choice tick) as (sig & HIn & ->).
  rewrite List.Forall_forall in Hall. apply Hall, HIn.
Qed.

Lemma double_ticksPerMeasure_nonneg :
  well_formed midi -> measures_at_least 0 midi.
Proof.
  intros Hwf tick. unfold Double.ticksPerMeasure.
  pose proof (timeSigAtTick_positive midi Hwf tick) as [Hn Hd].
  destruct Hwf as [Hp _].
  destruct (timeSigAtTick midi tick) as [num den]. cbn [fst snd] in *.
  apply double_nonneg. apply Qmult_le_0_compat.
  - apply double_nonneg. apply Qmult_le_0_compat; lra.
  - apply double_nonneg. apply Qle_shift_div_l; [exact Hd | lra].
Qed.

Lemma measures_at_least_weaken c c' :
  (c' <= c)%Q -> measures_at_least c midi -> measures_at_least c' midi.
Proof. intros Hle H tick. specialize (H tick). lra. Qed.

Lemma double_measure_walk_add a : forall b s,
  Double.measure_walk midi (a + b) s
  = Double.measure_walk midi b (Double.measure_walk midi a s).
Proof.
  induction a as [|a IH]; intros b s; [reflexivity|]. simpl. apply IH.
Qed.

Lemma double_measure_walk_succ n s :
  Double.measure_walk midi (S n) s
  = JS.add (Double.measure_walk midi n s)
      (Double.ticksPerMeasure midi (Double.measure_walk midi n s)).
Proof.
  replace (S n) with (n + 1)%nat by lia.
  rewrite double_measure_walk_add. reflexivity.
Qed.

Lemma double_measure_walk_is_double n : forall s,
  is_double s -> is_double (Double.measure_walk midi n s).
Proof.
  induction n as [|n IH]; intros s Hs; [exact Hs|].
  simpl. apply IH, add_is_double.
Qed.

Section NonNegative.

Hypothesis Hnonneg : measures_at_least 0 midi.

Lemma double_measure_walk_ge n : forall s,
  is_double s -> (s <= Double.measure_walk midi n s)%Q.
Proof.
  induction n as [|n IH]; intros s Hs; [apply Qle_refl|].
  simpl. eapply Qle_trans; [apply (add_ge s _ Hs (Hnonneg s))|].
  apply IH, add_is_double.
Qed.

Lemma double_measure_walk_mono n n' s :
  is_double s -> (n <= n')%nat ->
  (Double.measure_walk midi n s <= Double.measure_walk midi n' s)%Q.
Proof.
  intros Hs Hle. replace n' with (n + (n' - n))%nat by lia.
  rewrite double_measure_walk_add.
  apply double_measure_walk_ge, double_measure_walk_is_double, Hs.
Qed.

(** The walk of [tickToMeasureBeat] takes the steps of [measureToTicks]:
    a tick inside the range of the measure reached after [n] steps is
    found there. *)
Lemma double_tmb_loop_in_measure tick n : forall fuel s m0,
  is_double s ->
  (Double.measure_walk midi n s <= tick)%Q ->
  (tick < Double.measure_walk midi (S n) s)%Q ->
  Double.tmb_loop (S n + fuel) midi tick s m0 =
    Some {| measure := m0 + Z.of_nat n;
            beat := JS.add
                      (JS.div (JS.sub tick (Double.measure_walk midi n s))
                         (Double.ticksPerBeat midi (Double.measure_walk midi n s)))
                      1 |}.
Proof.
  induction n as [|n IH]; intros fuel s m0 Hs Hlo Hhi.
  - cbn [Double.measure_walk] in *. cbn [Double.tmb_loop Nat.add].
    apply JSFacts.ltb_lt in Hhi. rewrite Hhi.
    replace (m0 + Z.of_nat 0) with m0 by lia. reflexivity.
  - change (S (S n) + fuel)%nat with (S (S n + fuel)).
    cbn [Double.tmb_loop].
    set (s' := JS.add s (Double.ticksPerMeasure midi s)).
    assert (Hs' : is_double s') by apply add_is_double.
    assert (Hge : (s' <= tick)%Q).
    { eapply Qle_trans; [|exact Hlo].
      change (Double.measure_walk midi (S n) s) with (Double.measure_walk midi n s').
      apply double_measure_walk_ge, Hs'. }
    apply JSFacts.ltb_ge in Hge. rewrite Hge.
    rewrite (IH fuel s' (m0 + 1) Hs' Hlo Hhi).
    do 2 f_equal. lia.
Qed.

End NonNegative.

Lemma double_tmb_loop_fuel_mono tick : forall n n' ct m mb,
  Double.tmb_loop n midi tick ct m = Some mb -> (n <= n')%nat ->
  Double.tmb_loop n' midi tick ct m = Some mb.
Proof.
  induction n as [|n IH]; intros n' ct m mb E Hle; [discriminate|].
  destruct n' as [|n']; [lia|]. cbn [Double.tmb_loop] in *.
  destruct (JS.ltb tick (JS.add ct (Double.ticksPerMeasure midi ct))); [exact E|].
  apply IH; [exact E | lia].
Qed.

(** A walk whose addition returns the tick it started from stays there. *)
Lemma double_tmb_loop_stuck tick c :
  JS.add c (Double.ticksPerMeasure midi c) = c -> (c <= tick)%Q ->
  forall fuel m, Double.tmb_loop fuel midi tick c m = None.
Proof.
  intros Hfix Hle. induction fuel as [|fuel IH]; intros m; [reflexivity|].
  cbn [Double.tmb_loop]. rewrite Hfix.
  apply JSFacts.ltb_ge in Hle. rewrite Hle. apply IH.
Qed.

Lemma double_tmb_loop_continue tick fuel c m :
  (JS.add c (Double.ticksPerMeasure midi c) <= tick)%Q ->
  Double.tmb_loop (S fuel) midi tick c m
  = Double.tmb_loop fuel midi tick (JS.add c (Double.ticksPerMeasure midi c)) (m + 1).
Proof.
  intros H. cbn [Double.tmb_loop]. apply JSFacts.ltb_ge in H. rewrite H. reflexivity.
Qed.

Section Advancing.

Hypothesis Hlong : measures_at_least 1 midi.

Lemma double_step_advances s :
  (0 <= s)%Q -> (s < two_53)%Q ->
  Qfloor s + 1 <= Qfloor (JS.add s (Double.ticksPerMeasure midi s)).
Proof. intros H0 Hb. apply add_advances; [exact H0 | exact Hb | apply Hlong]. Qed.

(** Below 2^53 every step of the walk passes an integer, so the walk
    passes the tick within [floor tick + 1] steps. *)
Lemma double_tmb_loop_returns tick :
  (tick < two_53)%Q ->
  forall fuel s m0,
    is_double s -> (0 <= s)%Q ->
    (Z.to_nat (Qfloor tick - Qfloor s) < fuel)%nat ->
    exists mb, Double.tmb_loop fuel midi tick s m0 = Some mb.
Proof.
  intros Hb. induction fuel as [|fuel IH]; intros s m0 Hs H0 Hfuel; [lia|].
  cbn [Double.tmb_loop].
  destruct (JS.ltb tick (JS.add s (Double.ticksPerMeasure midi s))) eqn:E; [eauto|].
  apply JSFacts.ltb_ge in E.
  set (s' := JS.add s (Double.ticksPerMeasure midi s)) in *.
  assert (Hss' : (s <= s')%Q).
  { apply add_ge; [exact Hs|]. specialize (Hlong s). lra. }
  assert (Hadv : Qfloor s + 1 <= Qfloor s') by (apply double_step_advances; lra).
  pose proof (Qfloor_resp_le _ _ E) as Hft.
  apply IH; [apply add_is_double | lra | lia].
Qed.

End Advancing.

End DoubleWalk.

Lemma double_beat_at_start c tpb : JS.add (JS.div (JS.sub c c) tpb) 1 = 1%Q.
Proof.
  assert (E1 : JS.sub c c = 0%Q).
  { unfold JS.sub. apply double_zero. ring. }
  rewrite E1.
  assert (E2 : JS.div 0 tpb = 0%Q).
  { unfold JS.div. apply double_zero. unfold Qdiv. ring. }
  rewrite E2. vm_compute. reflexivity.
Qed.

Lemma double_measureToTicks_end midi m :
  end_ (Double.measureToTicks midi m)
  = Double.measure_walk midi (S (Z.to_nat (m - 1))) 0.
Proof. unfold Double.measureToTicks. cbn [end_]. now rewrite double_measure_walk_succ. Qed.

(** A tick inside the range of measure m converts to measure m. *)
Lemma double_tickToMeasureBeat_in_range midi m tick fuel :
  well_formed midi -> 1 <= m ->
  (start (Double.measureToTicks midi m) <= tick)%Q ->
  (tick < end_ (Double.measureToTicks midi m))%Q ->
  (Z.to_nat m <= fuel)%nat ->
  Double.tickToMeasureBeat fuel midi tick =
    Some {| measure := m;
            beat := JS.add
                      (JS.div (JS.sub tick (start (Double.measureToTicks midi m)))
                         (Double.ticksPerBeat midi (start (Double.measureToTicks midi m))))
                      1 |}.
Proof.
  intros Hwf Hm Hlo Hhi Hfuel.
  rewrite double_measureToTicks_end in Hhi.
  unfold Double.tickToMeasureBeat, Double.measureToTicks in *. cbn [start] in *.
  pose proof (double_tmb_loop_in_measure midi (double_ticksPerMeasure_nonneg midi Hwf)
                tick (Z.to_nat (m - 1)) (fuel - Z.to_nat m) 0%Q 1
                zero_is_double Hlo Hhi) as E.
  replace (S (Z.to_nat (m - 1)) + (fuel - Z.to_nat m))%nat with fuel in E by lia.
  rewrite E. do 2 f_equal. lia.
Qed.

(** Below 2^53 a measure of at least one tick is not empty. *)
Lemma double_measure_not_empty midi m :
  measures_at_least 1 midi ->
  (start (Double.measureToTicks midi m) < two_53)%Q ->
  (start (Double.measureToTicks midi m) < end_ (Double.measureToTicks midi m))%Q.
Proof.
  intros Hlong Hb. unfold Double.measureToTicks in *. cbn [start end_] in *.
  set (s := Double.measure_walk midi (Z.to_nat (m - 1)) 0) in *.
  assert (H0 : (0 <= s)%Q).
  { apply (double_measure_walk_ge midi); [|exact zero_is_double].
    apply (measures_at_least_weaken midi 1); [discriminate | exact Hlong]. }
  pose proof (double_step_advances midi Hlong s H0 Hb) as Hadv.
  destruct (floor_bounds s) as [_ Hs].
  destruct (floor_bounds (JS.add s (Double.ticksPerMeasure midi s))) as [He _].
  rewrite Zle_Qle, inject_Z_plus in Hadv. change (inject_Z 1) with 1%Q in Hadv. lra.
Qed.

(** With measures of at least one tick the conversion of a tick below 2^53
    returns within [floor tick + 1] iterations, and more budget does not
    change what it returns. *)
Lemma double_tickToMeasureBeat_returns (midi : Midi) (tick : Q) :
  measures_at_least 1 midi -> (tick < two_53)%Q ->
  exists mb, forall fuel, (Z.to_nat (Qfloor tick) < fuel)%nat ->
    Double.tickToMeasureBeat fuel midi tick = Some mb.
Proof.
  intros Hlong Hb.
  destruct (double_tmb_loop_returns midi Hlong tick Hb
              (S (Z.to_nat (Qfloor tick))) 0%Q 1 zero_is_double (Qle_refl 0))
    as [mb E].
  { change (Qfloor 0) with 0. rewrite Z.sub_0_r. lia. }
  exists mb. intros fuel Hfuel. unfold Double.tickToMeasureBeat.
  eapply double_tmb_loop_fuel_mono; [exact E | lia].
Qed.

(** ** One time signature throughout *)

(** Steps of a whole number [n] of ticks add up exactly as long as the sum
    stays within 2^53. *)
Lemma double_measure_walk_constant midi n k : forall j s,
  (forall tick, (Double.ticksPerMeasure midi tick == inject_Z n)%Q) ->
  0 <= n -> 0 <= j ->
  (j + Z.of_nat k) * n <= 2 ^ 53 ->
  (s == inject_Z (j * n))%Q ->
  (Double.measure_walk midi k s == inject_Z ((j + Z.of_nat k) * n))%Q.
Proof.
  induction k as [|k IH]; intros j s Hc Hn Hj Hb Hs.
  - cbn [Double.measure_walk]. rewrite Hs.
    replace (j + Z.of_nat 0) with j by lia. reflexivity.
  - cbn [Double.measure_walk].
    replace (j + Z.of_nat (S k)) with ((j + 1) + Z.of_nat k) in * by lia.
    apply IH; [exact Hc | exact Hn | lia | exact Hb |].
    unfold JS.add.
    assert (E : (s + Double.ticksPerMeasure midi s == inject_Z ((j + 1) * n))%Q).
    { rewrite (Hc s), Hs, <- inject_Z_plus. f_equiv. ring. }
    rewrite (double_comp _ _ E). apply double_Z.
    rewrite Z.abs_eq by nia. nia.
Qed.

(** ** The loop of totalMeasures *)

Lemma double_total_loop_fuel_mono midi lt : forall n n' ct k r,
  Double.total_loop n midi lt ct k = Some r -> (n <= n')%nat ->
  Double.total_loop n' midi lt ct k = Some r.
Proof.
  induction n as [|n IH]; intros n' ct k r; cbn [Double.total_loop].
  - destruct (JS.ltb ct lt) eqn:E; [discriminate|]. intros H _.
    destruct n'; cbn [Double.total_loop]; now rewrite E.
  - destruct (JS.ltb ct lt) eqn:E.
    + intros H Hle. destruct n' as [|n']; [lia|]. cbn [Double.total_loop]. rewrite E.
      apply IH; [exact H | lia].
    + intros H _. destruct n'; cbn [Double.total_loop]; now rewrite E.
Qed.

Lemma double_total_loop_returns midi lt :
  measures_at_least 1 midi -> (lt <= two_53)%Q ->
  forall fuel s k,
    is_double s -> (0 <= s)%Q ->
    (Z.to_nat (Qceiling lt - Qfloor s) <= fuel)%nat ->
    exists r, Double.total_loop fuel midi lt s k = Some r.
Proof.
  intros Hlong Hb. induction fuel as [|fuel IH]; intros s k Hs H0 Hfuel;
    cbn [Double.total_loop]; destruct (JS.ltb s lt) eqn:E; eauto;
    apply JSFacts.ltb_lt in E;
    destruct (floor_bounds s) as [Lo _]; pose proof (Qle_ceiling lt) as Hc.
  - assert (Qfloor s < Qceiling lt) by (rewrite Zlt_Qlt; lra). lia.
  - assert (Qfloor s < Qceiling lt) by (rewrite Zlt_Qlt; lra).
    assert (Hadv : Qfloor s + 1
                   <= Qfloor (JS.add s (Double.ticksPerMeasure midi s)))
      by (apply double_step_advances; [exact Hlong | exact H0 | lra]).
    apply IH; [apply add_is_double | | lia].
    eapply Qle_trans; [exact H0|]. apply add_ge; [exact Hs|].
    specialize (Hlong s). lra.
Qed.

(** The ranges read the header only. *)
Section DoubleSameHeader.

Variables m1 m2 : Midi.
Hypothesis Hheader : header m1 = header m2.

Lemma double_ticksPerMeasure_header tick :
  Double.ticksPerMeasure m1 tick = Double.ticksPerMeasure m2 tick.
Proof.
  unfold Double.ticksPerMeasure.
  now rewrite (timeSigAtTick_header m1 m2 Hheader), Hheader.
Qed.

Lemma double_measure_walk_header n : forall ct,
  Double.measure_walk m1 n ct = Double.measure_walk m2 n ct.
Proof.
  induction n as [|n IH]; intros ct; [reflexivity|].
  simpl. now rewrite double_ticksPerMeasure_header, IH.
Qed.

Lemma double_measureToTicks_header m :
  Double.measureToTicks m1 m = Double.measureToTicks m2 m.
Proof.
  unfold Double.measureToTicks.
  now rewrite double_measure_walk_header, double_ticksPerMeasure_header.
Qed.

Lemma double_range_start_header ms :
  Double.range_start m1 ms = Double.range_start m2 ms.
Proof.
  destruct ms; [|reflexivity]. unfold Double.range_start.
  now rewrite double_measureToTicks_header.
Qed.

Lemma double_range_end_header me :
  Double.range_end m1 me = Double.range_end m2 me.
Proof.
  destruct me; [|reflexivity]. unfold Double.range_end.
  now rewrite double_measureToTicks_header.
Qed.

End DoubleSameHeader.

(** * Coordinate converter: the claims *)

(** C3, as stated, fails: under a 0/4 signature [ticksPerMeasure] is zero,
    no guard sees it, and the conversion of tick 0 neither returns nor throws
    whatever the iteration budget. *)
Lemma tickToMeasureBeat_zero_measure_never_returns :
  Double.ticksPerMeasure zero_numerator_midi 0 = 0%Q /\
  ~ (exists fuel mb, Double.tickToMeasureBeat fuel zero_numerator_midi 0 = Some mb).
Proof.
  split; [vm_compute; reflexivity|]. intros (fuel & mb & E).
  unfold Double.tickToMeasureBeat in E.
  rewrite (double_tmb_loop_stuck zero_numerator_midi 0 0) in E;
    [discriminate | vm_compute; reflexivity | apply Qle_refl].
Qed.

(** Nor do positive measures suffice in doubles.  A tick so large that
    adding a measure to it is absorbed is never passed: under 4/4 at ppq 480
    the walk stays at or below 2^64, whose sum with 1920 rounds to 2^64. *)
Lemma double_tmb_loop_far_tick : forall fuel s m,
  (s <= far_tick)%Q -> Double.tmb_loop fuel (entry_midi empty_song) far_tick s m = None.
Proof.
  induction fuel as [|fuel IH]; intros s m Hs; [reflexivity|].
  cbn [Double.tmb_loop].
  assert (Hstep : (JS.add s (Double.ticksPerMeasure (entry_midi empty_song) s) <= far_tick)%Q).
  { assert (E : Double.ticksPerMeasure (entry_midi empty_song) s = 1920%Q).
    { unfold Double.ticksPerMeasure, timeSigAtTick. simpl.
      destruct (JS.leb 0 s); vm_compute; reflexivity. }
    rewrite E. unfold JS.add.
    assert (F : (JS.double (far_tick + 1920) == far_tick)%Q)
      by (vm_compute; reflexivity).
    rewrite <- F. apply double_mono. lra. }
  apply JSFacts.ltb_ge in Hstep. rewrite Hstep.
  apply IH. apply JSFacts.ltb_ge. exact Hstep.
Qed.

Lemma tickToMeasureBeat_far_tick_never_returns :
  measures_at_least 1 (entry_midi empty_song) /\
  ~ (exists fuel mb,
       Double.tickToMeasureBeat fuel (entry_midi empty_song) far_tick = Some mb).
Proof.
  split.
  - apply measures_at_least_events. repeat constructor; vm_compute; discriminate.
  - intros (fuel & mb & E). unfold Double.tickToMeasureBeat in E.
    rewrite double_tmb_loop_far_tick in E; [discriminate | vm_compute; discriminate].
Qed.

(** C3 (amended): when every measure of the document is at least one tick
    long, [tickToMeasureBeat] returns for every tick below 2^53, within
    floor(tick) + 1 iterations of its walk, and more iterations allowed do
    not change the measure and beat it returns.  (The walk has no guard on
    [ticksPerMeasure] and no error path.) *)
Theorem tickToMeasureBeat_terminates (midi : Midi) (tick : Q) :
  measures_at_least 1 midi -> (tick < two_53)%Q ->
  exists mb, forall fuel, (Z.to_nat (Qfloor tick) < fuel)%nat ->
    Double.tickToMeasureBeat fuel midi tick = Some mb.
Proof.
  intros Hlong Hb.
  destruct (double_tmb_loop_returns midi Hlong tick Hb
              (S (Z.to_nat (Qfloor tick))) 0%Q 1 zero_is_double (Qle_refl 0))
    as [mb E].
  { change (Qfloor 0) with 0. rewrite Z.sub_0_r. lia. }
  exists mb. intros fuel Hfuel. unfold Double.tickToMeasureBeat.
  eapply double_tmb_loop_fuel_mono; [exact E | lia].
Qed.

Lemma waltz_midi_well_formed : well_formed waltz_midi.
Proof.
  split; [reflexivity|]. repeat constructor.
Qed.

Lemma waltz_measures_at_least_1 : measures_at_least 1 waltz_midi.
Proof.
  apply measures_at_least_events. repeat constructor; vm_compute; discriminate.
Qed.

(** Tick 5000 of the waltz document converts: it lies in measure 3. *)
Lemma tickToMeasureBeat_terminates_witness :
  measures_at_least 1 waltz_midi /\ (5000 < two_53)%Q /\
  Double.tickToMeasureBeat 3 waltz_midi 5000
  = Some {| measure := 3; beat := 7693649363424597 # 2251799813685248 |} /\
  exists mb, forall fuel, (Z.to_nat (Qfloor 5000) < fuel)%nat ->
    Double.tickToMeasureBeat fuel waltz_midi 5000 = Some mb.
Proof.
  assert (Hb : (5000 < two_53)%Q) by reflexivity.
  split; [exact waltz_measures_at_least_1|]. split; [exact Hb|].
  split; [vm_compute; reflexivity|].
  exact (tickToMeasureBeat_terminates waltz_midi 5000 waltz_measures_at_least_1 Hb).
Defined.

(** C5, as stated, fails: every part of the signatures is positive, and
    measure 4 starts at tick 5760, where adding its 480 * 2^-50 ticks gives
    5760 again; the range of measure 4 is empty and the conversion of its
    start never returns. *)
Lemma tickToMeasureBeat_absorbed_measure_never_returns :
  well_formed absorbed_measure_midi /\
  Double.measureToTicks absorbed_measure_midi 4 = {| start := 5760; end_ := 5760 |} /\
  ~ (exists fuel mb,
       Double.tickToMeasureBeat fuel absorbed_measure_midi
         (start (Double.measureToTicks absorbed_measure_midi 4)) = Some mb).
Proof.
  assert (Hr : Double.measureToTicks absorbed_measure_midi 4
               = {| start := 5760; end_ := 5760 |}) by (vm_compute; reflexivity).
  split; [split; [reflexivity | repeat constructor]|]. split; [exact Hr|].
  rewrite Hr. cbn [start]. intros (fuel & mb & E).
  unfold Double.tickToMeasureBeat in E.
  destruct fuel as [|[|[|fuel]]];
    [vm_compute in E; discriminate | vm_compute in E; discriminate
    | vm_compute in E; discriminate |].
  rewrite !double_tmb_loop_continue in E by (vm_compute; discriminate).
  rewrite double_tmb_loop_stuck in E;
    [discriminate | vm_compute; reflexivity | vm_compute; discriminate].
Qed.

(** C5 (amended): for a document with positive ppq and positive
    time-signature parts and every measure number m >= 1 whose range is not
    empty (start < end), converting the start tick of measure m back gives
    exactly measure m and beat 1, as soon as the budget covers the m
    measures walked.  The range is not empty whenever every measure is at
    least one tick long and measure m starts below 2^53. *)
Theorem tickToMeasureBeat_of_measure_start (midi : Midi) (m : Z) (fuel : nat) :
  well_formed midi -> 1 <= m -> (Z.to_nat m <= fuel)%nat ->
  let range := Double.measureToTicks midi m in
  ((start range < end_ range)%Q ->
   Double.tickToMeasureBeat fuel midi (start range)
   = Some {| measure := m; beat := 1 |})
  /\ (measures_at_least 1 midi -> (start range < two_53)%Q ->
      (start range < end_ range)%Q).
Proof.
  intros Hwf Hm Hfuel range. split.
  - intros Hpos.
    rewrite (double_tickToMeasureBeat_in_range midi m (start range) fuel
               Hwf Hm (Qle_refl _) Hpos Hfuel).
    fold range. now rewrite double_beat_at_start.
  - apply double_measure_not_empty.
Qed.

(** Measure 4 of the waltz document starts at tick 5280, after two
    measures of 4/4 and one of 3/4, and converts back to measure 4, beat 1. *)
Lemma tickToMeasureBeat_of_measure_start_witness :
  well_formed waltz_midi /\ 1 <= 4 /\ (Z.to_nat 4 <= 4)%nat /\
  start (Double.measureToTicks waltz_midi 4) = 5280%Q /\
  end_ (Double.measureToTicks waltz_midi 4) = 6720%Q /\
  Double.tickToMeasureBeat 4 waltz_midi 5280 = Some {| measure := 4; beat := 1 |}.
Proof.
  assert (1 <= 4) as H1 by lia.
  assert (Z.to_nat 4 <= 4)%nat as H2 by (simpl; lia).
  assert (start (Double.measureToTicks waltz_midi 4) = 5280%Q) as Hs
    by (vm_compute; reflexivity).
  assert (end_ (Double.measureToTicks waltz_midi 4) = 6720%Q) as He
    by (vm_compute; reflexivity).
  split; [exact waltz_midi_well_formed|].
  split; [exact H1|]. split; [exact H2|]. split; [exact Hs|]. split; [exact He|].
  destruct (tickToMeasureBeat_of_measure_start waltz_midi 4 4
              waltz_midi_well_formed H1 H2) as [Hrun _].
  rewrite Hs, He in Hrun. apply Hrun. reflexivity.
Defined.

(** * Pitch-name codec: properties *)

Lemma digit_not_accidental c :
  is_digit c = true \/ c = minus ->
  Ascii.eqb c sharp = false /\ Ascii.eqb c flat = false.
Proof.
  intros [H| ->]; [|split; reflexivity].
  destruct c as [[] [] [] [] [] [] [] []]; split; try reflexivity; discriminate H.
Qed.

Lemma digit_not_minus c : is_digit c = true -> Ascii.eqb c minus = false.
Proof.
  intros H. destruct c as [[] [] [] [] [] [] [] []]; try reflexivity; discriminate H.
Qed.

Lemma is_digits_head s :
  is_digits s = true -> exists c r, s = String c r /\ is_digit c = true.
Proof.
  destruct s as [|c r]; [discriminate|]. simpl. intros H.
  apply andb_true_iff in H as [H _]. eauto.
Qed.

Lemma is_octave_head s :
  is_octave s = true ->
  exists c r, s = String c r /\ (is_digit c = true \/ c = minus).
Proof.
  destruct s as [|c r]; [discriminate|]. simpl. intros H. exists c, r.
  split; [reflexivity|]. destruct (Ascii.eqb_spec c minus) as [->|_]; [now right|].
  left. now apply andb_true_iff in H as [H _].
Qed.

Lemma is_octave_split s :
  is_octave s = true <->
  exists sign digits,
    s = (sign +:+ digits)%string /\
    (sign = EmptyString \/ sign = String minus EmptyString) /\
    is_digits digits = true.
Proof.
  split.
  - destruct s as [|c r]; [discriminate|]. cbn [is_octave].
    destruct (Ascii.eqb_spec c minus) as [->|Hc]; intros H.
    + exists (String minus EmptyString), r. auto.
    + exists EmptyString, (String c r). auto.
  - intros (sign & digits & -> & [-> | ->] & Hd).
    + destruct (is_digits_head _ Hd) as (c & r & -> & Hc).
      change (is_octave (String c r) = true). cbn [is_octave].
      now rewrite (digit_not_minus _ Hc).
    + exact Hd.
Qed.

Lemma split_accidental_sound s a r :
  split_accidental s = (a, r) -> s = (a +:+ r)%string /\ In a accidentals.
Proof.
  unfold split_accidental.
  destruct s as [|c1 r1]; [intros [= <- <-]; split; [reflexivity | simpl; tauto]|].
  destruct (Ascii.eqb_spec c1 sharp) as [->|_].
  { destruct r1 as [|c2 r2]; [intros [= <- <-]; split; [reflexivity | simpl; tauto]|].
    destruct (Ascii.eqb_spec c2 sharp) as [->|_]; intros [= <- <-];
      (split; [reflexivity | simpl; tauto]). }
  destruct (Ascii.eqb_spec c1 flat) as [->|_].
  { destruct r1 as [|c2 r2]; [intros [= <- <-]; split; [reflexivity | simpl; tauto]|].
    destruct (Ascii.eqb_spec c2 flat) as [->|_]; intros [= <- <-];
      (split; [reflexivity | simpl; tauto]). }
  intros [= <- <-]; split; [reflexivity | simpl; tauto].
Qed.

Lemma split_accidental_complete a s :
  In a accidentals -> is_octave s = true ->
  split_accidental (a +:+ s)%string = (a, s).
Proof.
  intros Ha Hs. destruct (is_octave_head _ Hs) as (c & r & -> & Hc).
  destruct (digit_not_accidental _ Hc) as [Hsharp Hflat].
  unfold accidentals in Ha. simpl in Ha.
  destruct Ha as [<-|[<-|[<-|[<-|[<-|[]]]]]];
    simpl; rewrite ?Hsharp, ?Hflat; reflexivity.
Qed.

(** C4, as stated, fails: three sharps are "zero or more" accidentals of one
    kind before a signed integer octave, and the formula gives 63, within
    0..127; the pattern admits at most two accidentals and the decoder
    throws. *)
Lemma noteNameToMidi_three_sharps_rejected :
  (parseInt "4" + 1) * 12 + letter_base "C" + accidental_sum "###" 0 = 63 /\
  noteNameToMidi "C###4" = Throw (InvalidNoteName "C###4").
Proof. split; reflexivity. Qed.

(** C4 (amended): the decoder returns a pitch exactly for a letter A-G or
    a-g, followed by zero, one or two '#' or zero, one or two 'b', followed
    by an octave of decimal digits with an optional leading '-', when
    (octave+1)*12 + letterBase + (+1 per '#', -1 per 'b') lies in 0..127, and
    that number is the pitch; on every other string it throws.  "C4" gives
    60, "F#3" 54, "Bb5" 82, "H2" throws; pitch 60 encodes as "C4". *)
Theorem noteNameToMidi_characterised (name : string) (p : Z) :
  (noteNameToMidi name = Return p <->
   exists letter accidental sign digits,
     name = String letter (accidental +:+ (sign +:+ digits))%string /\
     is_letter letter = true /\
     In accidental accidentals /\
     (sign = EmptyString \/ sign = String minus EmptyString) /\
     is_digits digits = true /\
     p = (parseInt (sign +:+ digits)%string + 1) * 12
         + letter_base letter + accidental_sum accidental 0 /\
     0 <= p <= 127)
  /\ (forall e, noteNameToMidi name = Throw e ->
        e = InvalidNoteName name \/
        exists v, e = NoteOutOfRange name v /\ (v < 0 \/ 127 < v))
  /\ map (fun a => accidental_sum a 0) accidentals = [0; 1; 2; -1; -2]
  /\ map letter_base ["C"; "D"; "E"; "F"; "G"; "A"; "B"; "c"; "d"; "e"; "f"; "g"; "a"; "b"]%char
     = [0; 2; 4; 5; 7; 9; 11; 0; 2; 4; 5; 7; 9; 11]
  /\ noteNameToMidi "C4" = Return 60
  /\ noteNameToMidi "F#3" = Return 54
  /\ noteNameToMidi "Bb5" = Return 82
  /\ noteNameToMidi "H2" = Throw (InvalidNoteName "H2")
  /\ midiToNoteName 60 = "C4"%string.
Proof.
  split; [|split; [|repeat split]].
  - split.
    + unfold noteNameToMidi, match_note_name.
      destruct name as [|letter rest]; [discriminate|].
      destruct (is_letter letter) eqn:Hl; [|discriminate].
      destruct (split_accidental rest) as [accidental octaveStr] eqn:Hsplit.
      destruct (is_octave octaveStr) eqn:Hoct; [|discriminate].
      apply split_accidental_sound in Hsplit as [-> Ha].
      destruct (proj1 (is_octave_split _) Hoct) as (sign & digits & -> & Hsign & Hd).
      destruct (_ || _) eqn:Hrange; [discriminate|]. intros [= <-].
      apply orb_false_iff in Hrange as [Hlo Hhi].
      exists letter, accidental, sign, digits.
      repeat split; auto; lia.
    + intros (letter & accidental & sign & digits & -> & Hl & Ha & Hsign & Hd & -> & Hlo & Hhi).
      assert (is_octave (sign +:+ digits)%string = true) as Hoct
        by (apply is_octave_split; eauto).
      unfold noteNameToMidi, match_note_name.
      rewrite Hl, (split_accidental_complete _ _ Ha Hoct), Hoct.
      destruct (_ || _) eqn:Hrange; [|reflexivity].
      apply orb_true_iff in Hrange. lia.
  - intros e. unfold noteNameToMidi.
    destruct (match_note_name name) as [[[letter accidental] octaveStr]|];
      [|intros [= <-]; now left].
    destruct (_ || _) eqn:Hrange; [|discriminate]. intros [= <-]. right.
    eexists; split; [reflexivity|]. apply orb_true_iff in Hrange. lia.
Qed.

(** * addNotes: properties *)

Section AddNotesFacts.

Variable Track_addNote : Note -> list Note -> list Note.
Variables (alias : string) (i : Z) (midi : Midi).

(** The loop consumes every decodable input with a write to the track. *)
Lemma addNotes_loop_decodable good : forall tail st e t acc,
  st !! alias = Some e ->
  track_at (entry_midi e) i = Some t ->
  Forall decodable good ->
  addNotes_loop Track_addNote alias i midi (good ++ tail) acc st =
  addNotes_loop Track_addNote alias i midi tail
    (acc ++ map (fun n => added_of_input n (pitch_of n)) good)
    (<[alias := entry_set_notes e i (notes_after Track_addNote midi good (notes t))]> st).
Proof.
  induction good as [|n good IH]; intros tail st e t acc Hentry Htrack Hgood.
  - simpl. rewrite app_nil_r, (entry_set_notes_id e i t Htrack).
    now rewrite (insert_id _ _ _ Hentry).
  - apply Forall_cons in Hgood as [[p Hp] Hgood].
    assert (pitch_of n = p) as Hpitch by (unfold pitch_of; now rewrite Hp).
    cbn [app addNotes_loop]. unfold bind at 1, lift at 1. rewrite Hp.
    unfold bind at 1. rewrite (update_notes_run st alias e i t Hentry Htrack).
    rewrite (IH tail _ (entry_set_notes e i (Track_addNote (note_of_input midi n p) (notes t)))
               {| track_name := track_name t;
                  notes := Track_addNote (note_of_input midi n p) (notes t) |});
      [|apply lookup_insert_eq|now apply track_at_set_notes|exact Hgood].
    rewrite insert_insert_eq, entry_set_notes_twice, <- app_assoc.
    cbn [map app notes notes_after fold_left]. now rewrite Hpitch.
Qed.

End AddNotesFacts.

(** C1, as stated, fails: the batch throws on its second name, and yet the
    first note of the batch is in the track. *)
Lemma addNotes_failed_batch_leaves_notes :
  snd (addNotes insert_by_ticks "song" 0 c4_then_h2 empty_song_store)
    = Throw (InvalidNoteName "H2") /\
  track_notes empty_song_store "song" 0 = [] /\
  map note_midi
    (track_notes (fst (addNotes insert_by_ticks "song" 0 c4_then_h2 empty_song_store))
       "song" 0) = [60].
Proof. vm_compute. repeat split. Qed.

(** The notes of the other tracks are not touched by a write to one. *)
Lemma track_notes_other_track st alias e i j t ns :
  st !! alias = Some e -> track_at (entry_midi e) i = Some t -> j <> i ->
  track_notes (<[alias := entry_set_notes e i ns]> st) alias j = track_notes st alias j.
Proof.
  intros Hentry Htrack Hj. unfold track_notes. rewrite lookup_insert_eq, Hentry.
  assert (0 <= i) as Hi.
  { unfold track_at in Htrack. destruct (Z.ltb_spec i 0); [discriminate | lia]. }
  unfold track_at, entry_set_notes, with_track. cbn [entry_midi tracks].
  destruct (Z.ltb_spec j 0); [reflexivity|].
  rewrite list_lookup_alter_ne by lia. reflexivity.
Qed.

(** C1 (amended): on an existing alias and track, a batch whose first
    undecodable pitch name comes after the inputs [good] throws that name's
    error, with exactly the notes of [good] added to the track, in order,
    and no other track or document touched; a batch of decodable names
    returns, adds every note and sets the dirty flag. *)
Theorem addNotes_adds_up_to_first_invalid
    (Track_addNote : Note -> list Note -> list Note)
    (st : Store) (alias : string) (i : Z) (e : Entry) (t : Track)
    (good rest : list NoteInput) (bad : NoteInput) (err : Error) :
  st !! alias = Some e ->
  track_at (entry_midi e) i = Some t ->
  Forall decodable good ->
  noteNameToMidi (in_noteName bad) = Throw err ->
  let kept := notes_after Track_addNote (entry_midi e) good (notes t) in
  let all := notes_after Track_addNote (entry_midi e) (good ++ rest) (notes t) in
  let failed := addNotes Track_addNote alias i (good ++ bad :: rest) st in
  snd failed = Throw err
  /\ track_notes (fst failed) alias i = kept
  /\ (forall j, j <> i -> track_notes (fst failed) alias j = track_notes st alias j)
  /\ (forall other, other <> alias -> fst failed !! other = st !! other)
  /\ (Forall decodable rest ->
      addNotes Track_addNote alias i (good ++ rest) st =
        (<[alias := with_dirty true (entry_set_notes e i all)]> st,
         Return {| add_trackIndex := i;
                   added := map (fun n => added_of_input n (pitch_of n)) (good ++ rest);
                   totalNotesInTrack := length all |})).
Proof.
  intros Hentry Htrack Hgood Hbad kept all failed.
  assert (forall ns, track_notes (<[alias := entry_set_notes e i ns]> st) alias i = ns)
    as Hread.
  { intros ns. unfold track_notes.
    now rewrite lookup_insert_eq, (track_at_set_notes e i t Htrack). }
  assert (failed = (<[alias := entry_set_notes e i kept]> st, Throw err)) as Hrun.
  { unfold failed, addNotes. enter_call Hentry Htrack.
    unfold bind at 1.
    rewrite (addNotes_loop_decodable Track_addNote alias i (entry_midi e) good
               (bad :: rest) st e t [] Hentry Htrack Hgood).
    cbn [addNotes_loop]. unfold bind at 1, lift at 1. now rewrite Hbad. }
  rewrite Hrun. cbn [fst snd].
  split; [reflexivity|]. split; [apply Hread|].
  split; [intros j Hj; now apply (track_notes_other_track st alias e i j t)|].
  split; [intros other Hother; now apply lookup_insert_ne|].
  intros Hrest.
  assert (Forall decodable (good ++ rest)) as Hall by (apply Forall_app; auto).
  unfold addNotes. enter_call Hentry Htrack.
  unfold bind at 1.
  rewrite <- (app_nil_r (good ++ rest)) at 1.
  rewrite (addNotes_loop_decodable Track_addNote alias i (entry_midi e) (good ++ rest)
             [] st e t [] Hentry Htrack Hall).
  cbn [addNotes_loop app]. unfold ret at 1. fold all.
  unfold bind at 1.
  rewrite (set_dirty_run _ alias (entry_set_notes e i all) (lookup_insert_eq _ _ _)).
  rewrite insert_insert_eq. unfold bind at 1.
  rewrite (read_notes_run _ alias (with_dirty true (entry_set_notes e i all)) i
             {| track_name := track_name t; notes := all |}
             (lookup_insert_eq _ _ _));
    [reflexivity|].
  rewrite track_at_with_dirty. now apply track_at_set_notes.
Qed.

Lemma c4_decodable :
  Forall decodable
    [ {| in_measure := 1; in_beat := 1; in_noteName := "C4";
         in_velocity := Some 90%Q; in_durationBeats := 1 |} ].
Proof. repeat constructor. exists 60. reflexivity. Qed.

(** The batch [C4, H2] on the empty song: H2 is reported, C4 is in the
    track. *)
Lemma addNotes_adds_up_to_first_invalid_witness :
  snd (addNotes insert_by_ticks "song" 0 c4_then_h2 empty_song_store)
    = Throw (InvalidNoteName "H2") /\
  map note_midi
    (track_notes (fst (addNotes insert_by_ticks "song" 0 c4_then_h2 empty_song_store))
       "song" 0) = [60].
Proof.
  pose proof (addNotes_adds_up_to_first_invalid insert_by_ticks empty_song_store
                "song" 0 empty_song
                {| track_name := "Piano"; notes := [] |}
                [ {| in_measure := 1; in_beat := 1; in_noteName := "C4";
                     in_velocity := Some 90%Q; in_durationBeats := 1 |} ]
                []
                {| in_measure := 1; in_beat := 2; in_noteName := "H2";
                   in_velocity := None; in_durationBeats := 1 |}
                (InvalidNoteName "H2")
                eq_refl eq_refl c4_decodable eq_refl) as (Hthrow & Hread & _).
  change ([ _ ] ++ _ :: []) with c4_then_h2 in Hthrow, Hread.
  split; [exact Hthrow|].
  rewrite Hread. reflexivity.
Defined.

(** * deleteNotes: properties *)

Lemma delete_keeps_targets s e opts n :
  delete_keeps s e opts n = negb (delete_targets s e opts n).
Proof.
  unfold delete_keeps, delete_targets, JS.ltb, JS.leb.
  destruct (Qle_bool s (note_ticks n)), (Qle_bool e (note_ticks n)); simpl; try reflexivity.
  destruct (del_pitchMin opts) as [lo|], (del_pitchMax opts) as [hi|]; simpl;
    repeat match goal with
           | |- context [?a <? ?b] => destruct (Z.ltb_spec a b)
           | |- context [?a >? ?b] => rewrite (Z.gtb_ltb a b)
           | |- context [?a <=? ?b] => destruct (Z.leb_spec a b)
           end; simpl; try reflexivity; lia.
Qed.

Lemma filter_split_length {A} (p : A -> bool) (l : list A) :
  (length (List.filter p l) + length (List.filter (fun x => negb (p x)) l)
   = length l)%nat.
Proof.
  induction l as [|x l IH]; [reflexivity|]. simpl.
  destruct (p x); simpl; lia.
Qed.

Lemma filter_all {A} (p : A -> bool) (l : list A) :
  (forall x, In x l -> p x = true) -> List.filter p l = l.
Proof.
  induction l as [|x l IH]; intros H; [reflexivity|]. simpl.
  rewrite (H x) by now left. f_equal. apply IH. intros y Hy. apply H. now right.
Qed.

(** C8: on an existing alias and track, [deleteNotes] leaves in the track
    exactly the notes that are not both onset-in-[[start, end_)] and
    pitch-in-range, as they were and in their order; a note starting before
    the interval stays whatever its duration; removed plus remaining is the
    count before; with no onset in the interval nothing is removed and
    removedCount is 0. *)
Theorem deleteNotes_removes_onsets_in_range
    (st : Store) (alias : string) (i : Z) (e : Entry) (t : Track)
    (measureStart measureEnd : Z) (opts : PitchOpts) :
  st !! alias = Some e ->
  track_at (entry_midi e) i = Some t ->
  let s := start (measureToTicks (entry_midi e) measureStart) in
  let en := end_ (measureToTicks (entry_midi e) measureEnd) in
  let kept := List.filter (fun n => negb (delete_targets s en opts n)) (notes t) in
  let gone := List.filter (delete_targets s en opts) (notes t) in
  deleteNotes alias i measureStart measureEnd opts st =
    (<[alias := with_dirty true (entry_set_notes e i kept)]> st,
     Return {| del_trackIndex := i;
               removedCount := length gone;
               remainingNotes := length kept |})
  /\ (length gone + length kept = length (notes t))%nat
  /\ (forall n, In n (notes t) -> (note_ticks n < s)%Q -> In n kept)
  /\ ((forall n, In n (notes t) ->
         ~ (s <= note_ticks n /\ note_ticks n < en)%Q) ->
      kept = notes t /\ length gone = 0%nat).
Proof.
  intros Hentry Htrack s en kept gone.
  assert (List.filter (delete_keeps s en opts) (notes t) = kept) as Hkeep.
  { unfold kept. apply filter_ext. intros n. apply delete_keeps_targets. }
  assert (length gone + length kept = length (notes t))%nat as Hlen
    by apply filter_split_length.
  split; [|split; [exact Hlen|split]].
  - unfold deleteNotes. enter_call Hentry Htrack.
    unfold bind at 1. rewrite (update_notes_run st alias e i t Hentry Htrack).
    fold s en. rewrite Hkeep.
    assert (track_at (entry_midi (entry_set_notes e i kept)) i
            = Some {| track_name := track_name t; notes := kept |}) as Htrack'
      by now apply track_at_set_notes.
    unfold bind at 1.
    rewrite (read_notes_run _ alias _ i _ (lookup_insert_eq _ _ _) Htrack').
    unfold bind at 1.
    rewrite (set_dirty_run _ alias (entry_set_notes e i kept) (lookup_insert_eq _ _ _)).
    rewrite insert_insert_eq. unfold bind at 1.
    rewrite (read_notes_run _ alias (with_dirty true (entry_set_notes e i kept)) i
               {| track_name := track_name t; notes := kept |}
               (lookup_insert_eq _ _ _) Htrack').
    unfold ret. cbn [notes]. do 3 f_equal. lia.
  - intros n HIn Hbefore. unfold kept. apply filter_In. split; [exact HIn|].
    unfold delete_targets.
    assert (JS.leb s (note_ticks n) = false) as -> by now apply JSFacts.leb_gt.
    reflexivity.
  - intros Hnone.
    assert (kept = notes t) as Hsame.
    { unfold kept. apply filter_all. intros n HIn. unfold delete_targets.
      destruct (JS.leb s (note_ticks n)) eqn:Hs; [|reflexivity].
      destruct (JS.ltb (note_ticks n) en) eqn:He; [|reflexivity].
      exfalso. apply (Hnone n HIn). split; [now apply JSFacts.leb_le | now apply JSFacts.ltb_lt]. }
    split; [exact Hsame|]. rewrite Hsame in Hlen. lia.
Qed.

(** Deleting measure 2 of the three-note track removes the note that
    starts there and keeps the one that sounds into it from measure 1. *)
Lemma deleteNotes_removes_onsets_in_range_witness :
  snd (deleteNotes "song" 0 2 2 no_pitch_opts three_note_store)
    = Return {| del_trackIndex := 0; removedCount := 1; remainingNotes := 2 |} /\
  map note_midi
    (track_notes (fst (deleteNotes "song" 0 2 2 no_pitch_opts three_note_store)) "song" 0)
    = [69; 127].
Proof.
  destruct (deleteNotes_removes_onsets_in_range three_note_store "song" 0
              three_note_song three_note_track 2 2 no_pitch_opts eq_refl eq_refl)
    as (Hrun & _).
  rewrite Hrun. cbn [fst snd]. split; vm_compute; reflexivity.
Defined.

(** * transposeNotes: properties *)

Lemma clamp_pitch_range p : 0 <= clamp_pitch p <= 127.
Proof. unfold clamp_pitch. lia. Qed.

Lemma clamp_pitch_id p : 0 <= p <= 127 -> clamp_pitch p = p.
Proof. unfold clamp_pitch. lia. Qed.

Lemma in_range_transpose a b s n :
  in_range a b (transpose_note a b s n) = in_range a b n.
Proof. unfold transpose_note. now destruct (in_range a b n) eqn:E. Qed.

Lemma transpose_note_back a b s n :
  0 <= note_midi n <= 127 -> 0 <= note_midi n + s <= 127 ->
  transpose_note a b (- s) (transpose_note a b s n) = n.
Proof.
  intros Hn Hs. unfold transpose_note at 1. rewrite in_range_transpose.
  unfold transpose_note. destruct (in_range a b n); [|reflexivity].
  destruct n as [p tk d v]. cbn [note_midi note_ticks note_durationTicks note_velocity] in *.
  f_equal. rewrite (clamp_pitch_id (p + s)) by lia.
  rewrite clamp_pitch_id; lia.
Qed.

Lemma transposeNotes_run st alias i e t s ms me :
  st !! alias = Some e ->
  track_at (entry_midi e) i = Some t ->
  transposeNotes alias i s ms me st =
    (<[alias := with_dirty true
                  (entry_set_notes e i
                     (map (transpose_note (range_start (entry_midi e) ms)
                             (range_end (entry_midi e) me) s) (notes t)))]> st,
     Return {| tr_trackIndex := i; tr_semitones := s;
               transposedCount :=
                 length (List.filter (in_range (range_start (entry_midi e) ms)
                                        (range_end (entry_midi e) me)) (notes t)) |}).
Proof.
  intros Hentry Htrack.
  unfold transposeNotes. enter_call Hentry Htrack.
  unfold bind at 1. rewrite (update_notes_run st alias e i t Hentry Htrack).
  unfold bind at 1.
  rewrite (set_dirty_run _ alias _ (lookup_insert_eq _ _ _)).
  now rewrite insert_insert_eq.
Qed.

(** C9: on an existing alias and track, [transposeNotes] returns (it does
    not throw) and sets the pitch of each note whose onset is in the range
    to the original pitch plus [semitones] clamped to 0..127, leaving every
    other note as it was; transposing by [s] and then by [-s] over the same
    range gives back each note whose pitch stayed within 0..127 in both
    passes - in particular for s = 12. *)
Theorem transposeNotes_clamps_and_round_trips
    (st : Store) (alias : string) (i : Z) (e : Entry) (t : Track)
    (s : Z) (ms me : option Z) :
  st !! alias = Some e ->
  track_at (entry_midi e) i = Some t ->
  let a := range_start (entry_midi e) ms in
  let b := range_end (entry_midi e) me in
  let once := transposeNotes alias i s ms me st in
  let twice := transposeNotes alias i (- s) ms me (fst once) in
  (exists r, snd once = Return r)
  /\ track_notes (fst once) alias i = map (transpose_note a b s) (notes t)
  /\ (forall n,
        (in_range a b n = true ->
         transpose_note a b s n =
           {| note_midi := Z.max 0 (Z.min 127 (note_midi n + s));
              note_ticks := note_ticks n;
              note_durationTicks := note_durationTicks n;
              note_velocity := note_velocity n |}) /\
        (in_range a b n = false -> transpose_note a b s n = n))
  /\ (exists r, snd twice = Return r)
  /\ Forall2 (fun n n' =>
                note_ticks n' = note_ticks n /\
                (in_range a b n = false -> n' = n) /\
                (0 <= note_midi n <= 127 -> 0 <= note_midi n + s <= 127 -> n' = n))
       (notes t) (track_notes (fst twice) alias i).
Proof.
  intros Hentry Htrack a b once twice.
  pose proof (transposeNotes_run st alias i e t s ms me Hentry Htrack) as Honce.
  fold a b once in Honce.
  set (ns1 := map (transpose_note a b s) (notes t)) in *.
  set (e1 := with_dirty true (entry_set_notes e i ns1)) in *.
  assert (track_at (entry_midi e1) i = Some {| track_name := track_name t; notes := ns1 |})
    as Htrack1 by (unfold e1; rewrite track_at_with_dirty; now apply track_at_set_notes).
  pose proof (transposeNotes_run (<[alias:=e1]> st) alias i e1
                {| track_name := track_name t; notes := ns1 |} (- s) ms me
                (lookup_insert_eq _ _ _) Htrack1) as Htwice.
  rewrite (range_start_header (entry_midi e1) (entry_midi e) eq_refl),
          (range_end_header (entry_midi e1) (entry_midi e) eq_refl) in Htwice.
  fold a b in Htwice.
  cbn [notes] in Htwice. rewrite insert_insert_eq in Htwice.
  assert (twice = transposeNotes alias i (- s) ms me (<[alias:=e1]> st)) as Etw
    by (unfold twice; now rewrite Honce).
  rewrite Htwice in Etw.
  split; [rewrite Honce; eexists; reflexivity|].
  split.
  { rewrite Honce. cbn [fst]. unfold track_notes.
    now rewrite lookup_insert_eq, Htrack1. }
  split.
  { intros n. unfold transpose_note. split; intros ->; reflexivity. }
  split; [rewrite Etw; eexists; reflexivity|].
  rewrite Etw. cbn [fst]. unfold track_notes.
  rewrite lookup_insert_eq, track_at_with_dirty.
  rewrite (track_at_set_notes e1 i _ Htrack1). cbn [notes].
  unfold ns1. clear. induction (notes t) as [|n l IH]; [constructor|].
  cbn [map]. constructor; [|exact IH]. split; [|split].
  - unfold transpose_note.
    destruct (in_range a b n) eqn:E; cbn [note_ticks];
      repeat match goal with |- context [in_range ?x ?y ?z] => destruct (in_range x y z) end;
      reflexivity.
  - intros E. unfold transpose_note. now rewrite E, E.
  - apply transpose_note_back.
Qed.

(** Up an octave and back on the three-note track: A4 and C#-1 return,
    G9 was clamped at 127 and comes back as 115. *)
Lemma transposeNotes_clamps_and_round_trips_witness :
  map note_midi
    (track_notes (fst (transposeNotes "song" 0 12 None None three_note_store)) "song" 0)
    = [81; 13; 127] /\
  map note_midi
    (track_notes
       (fst (transposeNotes "song" 0 (-12) None None
               (fst (transposeNotes "song" 0 12 None None three_note_store))))
       "song" 0)
    = [69; 1; 115].
Proof.
  destruct (transposeNotes_clamps_and_round_trips three_note_store "song" 0
              three_note_song three_note_track 12 None None eq_refl eq_refl)
    as (_ & Honce & _ & _ & _).
  split; [rewrite Honce; reflexivity|].
  vm_compute. reflexivity.
Defined.

(** * quantizeNotes: properties *)

Lemma Math_round_bounds x :
  (inject_Z (JS.Math_round x) <= x + (1 # 2) < inject_Z (JS.Math_round x) + 1)%Q.
Proof.
  unfold JS.Math_round. split; [apply Qfloor_le|].
  pose proof (Qlt_floor (x + (1 # 2))) as H.
  rewrite inject_Z_plus in H. exact H.
Qed.

Lemma Math_round_inject k : JS.Math_round (inject_Z k) = k.
Proof.
  pose proof (Math_round_bounds (inject_Z k)) as [Hlo Hhi].
  set (f := JS.Math_round (inject_Z k)) in *.
  destruct (Z.lt_trichotomy f k) as [Hlt|[Heq|Hgt]]; [|exact Heq|].
  - exfalso. assert (f + 1 <= k) as H by lia.
    rewrite Zle_Qle, inject_Z_plus in H. change (inject_Z 1) with 1%Q in H. lra.
  - exfalso. assert (k + 1 <= f) as H by lia.
    rewrite Zle_Qle, inject_Z_plus in H. change (inject_Z 1) with 1%Q in H. lra.
Qed.

Lemma Math_round_comp x y : (x == y)%Q -> JS.Math_round x = JS.Math_round y.
Proof. intros E. unfold JS.Math_round. apply Qfloor_comp. now rewrite E. Qed.

Lemma inject_Z_pos g : 0 < g -> (0 < inject_Z g)%Q.
Proof. intros H. now rewrite Zlt_Qlt in H. Qed.

(** The nearest grid point lies within half a grid step, the upper one at a
    tie. *)
Lemma nearest_within_half g tk :
  0 < g ->
  (tk - inject_Z g / 2 < nearest g tk <= tk + inject_Z g / 2)%Q.
Proof.
  intros Hg. apply inject_Z_pos in Hg. unfold nearest.
  pose proof (Math_round_bounds (tk / inject_Z g)) as [Hlo Hhi].
  set (k := inject_Z (JS.Math_round (tk / inject_Z g))) in *.
  assert ((tk / inject_Z g + (1 # 2)) * inject_Z g == tk + inject_Z g / 2)%Q
    as Hdiv by (field; lra).
  apply (Qmult_le_compat_r _ _ (inject_Z g)) in Hlo; [|lra].
  apply (Qmult_lt_compat_r _ _ (inject_Z g)) in Hhi; [|lra].
  rewrite Hdiv in Hlo, Hhi.
  assert (inject_Z g / 2 == inject_Z g * (1 # 2))%Q as Hhalf by reflexivity.
  split; lra.
Qed.

Lemma quantizeNotes_run st alias i e t gridBeats ms me :
  st !! alias = Some e ->
  track_at (entry_midi e) i = Some t ->
  0 < JS.Math_round (ppq (header (entry_midi e)) * gridBeats)%Q ->
  quantizeNotes alias i gridBeats ms me st =
    (<[alias := with_dirty true
                  (entry_set_notes e i
                     (map (quantize_note (range_start (entry_midi e) ms)
                             (range_end (entry_midi e) me)
                             (JS.Math_round (ppq (header (entry_midi e)) * gridBeats)%Q))
                        (notes t)))]> st,
     Return {| q_trackIndex := i; q_gridBeats := gridBeats;
               quantizedCount :=
                 length (List.filter (in_range (range_start (entry_midi e) ms)
                                        (range_end (entry_midi e) me)) (notes t)) |}).
Proof.
  intros Hentry Htrack Hg.
  unfold quantizeNotes. enter_call Hentry Htrack.
  destruct (Z.leb_spec (JS.Math_round (ppq (header (entry_midi e)) * gridBeats)%Q) 0);
    [lia|].
  unfold bind at 1. rewrite (update_notes_run st alias e i t Hentry Htrack).
  unfold bind at 1.
  rewrite (set_dirty_run _ alias _ (lookup_insert_eq _ _ _)).
  now rewrite insert_insert_eq.
Qed.

(** ** [Math.round] of a double *)

Lemma Math_round_is_double x :
  is_double x -> is_double (inject_Z (JS.Math_round x)).
Proof.
  intros Hx.
  assert (P52 : (2 ^ 52 == inject_Z (2 ^ 52))%Q) by (apply two_pow_Z; lia).
  destruct (Qlt_le_dec x (2 ^ 52)) as [Hlt | Hge].
  - destruct (Qlt_le_dec (- (2 ^ 52)) x) as [Hgt | Hle].
    + apply Z_is_double.
      pose proof (Math_round_bounds x) as [Hlo Hhi].
      assert (JS.Math_round x <= 2 ^ 52).
      { rewrite Zle_Qle, <- P52.
        assert (inject_Z (JS.Math_round x) < 2 ^ 52 + 1)%Q by lra.
        destruct (Z.le_gt_cases (JS.Math_round x) (2 ^ 52)) as [H1 | H1];
          [rewrite Zle_Qle, <- P52 in H1; exact H1|].
        exfalso. assert (H2 : 2 ^ 52 + 1 <= JS.Math_round x) by lia.
        rewrite Zle_Qle, inject_Z_plus, <- P52 in H2.
        change (inject_Z 1) with 1%Q in H2. lra. }
      assert (- 2 ^ 52 <= JS.Math_round x).
      { destruct (Z.le_gt_cases (- 2 ^ 52) (JS.Math_round x)) as [H1 | H1];
          [exact H1|].
        exfalso. assert (H2 : JS.Math_round x + 1 <= - 2 ^ 52) by lia.
        rewrite Zle_Qle, inject_Z_plus, inject_Z_opp, <- P52 in H2.
        change (inject_Z 1) with 1%Q in H2. lra. }
      lia.
    + assert (Hx' : is_double (- x)).
      { unfold is_double. rewrite double_opp. unfold is_double in Hx.
        rewrite Hx. reflexivity. }
      destruct (large_double_is_integer (- x) Hx') as [n Hn]; [lra|].
      assert (E : (x == inject_Z (- n))%Q) by (rewrite inject_Z_opp, <- Hn; ring).
      unfold is_double.
      rewrite (Math_round_comp _ _ E), Math_round_inject, <- E. exact Hx.
  - destruct (large_double_is_integer x Hx Hge) as [n Hn].
    unfold is_double.
    rewrite (Math_round_comp _ _ Hn), Math_round_inject, <- Hn. exact Hx.
Qed.

(** ** The snap to the grid, in doubles *)

(** An onset that is a whole multiple of the grid is left where it is. *)
Lemma double_nearest_multiple g k t :
  0 < g -> is_double (inject_Z k) -> (t == inject_Z k * inject_Z g)%Q ->
  Double.nearest g t = JS.double t.
Proof.
  intros Hg Hk Ht. apply inject_Z_pos in Hg. unfold Double.nearest, JS.mul.
  assert (E : JS.div t (inject_Z g) = JS.double (inject_Z k)).
  { unfold JS.div. apply double_comp. rewrite Ht. field. lra. }
  rewrite E, (Math_round_comp _ _ Hk), Math_round_inject.
  apply double_comp. symmetry. exact Ht.
Qed.

Lemma double_nearest_idempotent g t :
  0 < g -> snaps_exactly g t ->
  Double.nearest g (Double.nearest g t) = Double.nearest g t.
Proof.
  intros Hg Hex.
  set (k := JS.Math_round (JS.div t (inject_Z g))) in *.
  assert (Hk : is_double (inject_Z k)) by apply Math_round_is_double, div_is_double.
  assert (E : (Double.nearest g t == inject_Z k * inject_Z g)%Q) by exact Hex.
  rewrite (double_nearest_multiple g k _ Hg Hk E).
  unfold Double.nearest, JS.mul. apply double_of_double.
Qed.

Lemma double_quantize_note_idempotent a b g n :
  0 < g -> (in_range a b n = true -> snaps_exactly g (note_ticks n)) ->
  Double.quantize_note a b g (Double.quantize_note a b g n)
  = Double.quantize_note a b g n.
Proof.
  intros Hg Hex. destruct (in_range a b n) eqn:E.
  - assert (Double.quantize_note a b g n =
            {| note_midi := note_midi n;
               note_ticks := Double.nearest g (note_ticks n);
               note_durationTicks := note_durationTicks n;
               note_velocity := note_velocity n |}) as ->
      by (unfold Double.quantize_note; now rewrite E).
    unfold Double.quantize_note.
    match goal with |- context [in_range a b ?x] => destruct (in_range a b x) end;
      [|reflexivity].
    cbn [note_midi note_ticks note_durationTicks note_velocity].
    now rewrite double_nearest_idempotent by auto.
  - assert (Double.quantize_note a b g n = n) as ->
      by (unfold Double.quantize_note; now rewrite E).
    unfold Double.quantize_note. now rewrite E.
Qed.

(** [Math.round] of a quotient of integers, as an integer division. *)
Lemma Math_round_div T g :
  0 < g -> JS.Math_round (inject_Z T / inject_Z g) = (2 * T + g) / (2 * g).
Proof.
  intros Hg. unfold JS.Math_round. rewrite Zdiv_Qdiv. apply Qfloor_comp.
  pose proof (inject_Z_pos g Hg).
  rewrite inject_Z_plus, !inject_Z_mult. change (inject_Z 2) with 2%Q.
  field. lra.
Qed.

(** Below 2^50, with a grid of at most 2^49, the rounding of the quotient
    does not change the integer it rounds to. *)
Lemma Math_round_div_double T g :
  0 < g -> g <= 2 ^ 49 -> Z.abs T <= 2 ^ 50 ->
  JS.Math_round (JS.div (inject_Z T) (inject_Z g))
  = JS.Math_round (inject_Z T / inject_Z g).
Proof.
  intros Hg Hgb HT.
  pose proof (inject_Z_pos g Hg) as Hgq.
  set (q := (inject_Z T / inject_Z g)%Q).
  set (n := JS.Math_round q).
  assert (Hn : n = (2 * T + g) / (2 * g)) by (apply Math_round_div, Hg).
  assert (Hlo : 2 * g * n <= 2 * T + g) by (rewrite Hn; apply Z.mul_div_le; lia).
  assert (Hhi : 2 * T + g < 2 * g * (n + 1)).
  { rewrite Hn. apply (Z.mul_succ_div_gt (2 * T + g) (2 * g)). lia. }
  assert (Hq : (q * inject_Z g == inject_Z T)%Q) by (unfold q; field; lra).
  (* the bounds of q, from those of 2T *)
  assert (Qlo : (inject_Z n - (1 # 2) <= q)%Q).
  { apply (Qmult_le_r _ _ (2 * inject_Z g)); [lra|].
    assert (E : ((inject_Z n - (1 # 2)) * (2 * inject_Z g)
                 == inject_Z (2 * g * n - g))%Q).
    { unfold Z.sub. rewrite inject_Z_plus, inject_Z_opp, !inject_Z_mult.
      change (inject_Z 2) with 2%Q. ring. }
    assert (E' : (q * (2 * inject_Z g) == inject_Z (2 * T))%Q).
    { rewrite inject_Z_mult. change (inject_Z 2) with 2%Q. rewrite <- Hq. ring. }
    rewrite E, E', <- Zle_Qle. lia. }
  set (j := Z.log2_up (2 * g)).
  destruct (Z.log2_up_spec (2 * g)) as [Jlo Jhi]; [lia|]. fold j in Jlo, Jhi.
  assert (Hj1 : 1 <= j).
  { assert (0 < Z.log2_up (2 * g)) by (apply Z.log2_up_pos; lia). unfold j. lia. }
  assert (Hj50 : j <= 50).
  { apply Z.log2_up_le_pow2; lia. }
  replace (Z.pred j) with (j - 1) in Jlo by lia.
  set (M := (2 * n + 1) * 2 ^ (j - 1) - 1).
  set (r := (inject_Z M * 2 ^ (- j))%Q).
  assert (Pj : (2 ^ (- j) * inject_Z (2 ^ j) == 1)%Q).
  { rewrite <- (two_pow_Z j) by lia. rewrite <- two_pow_add.
    replace (- j + j) with 0 by lia. reflexivity. }
  assert (P2 : 2 ^ j = 2 * 2 ^ (j - 1)).
  { replace j with (1 + (j - 1)) at 1 by lia. rewrite Z.pow_add_r by lia. reflexivity. }
  assert (Rval : (r == inject_Z n + (1 # 2) - 2 ^ (- j))%Q).
  { unfold r, M.
    assert (E : (inject_Z ((2 * n + 1) * 2 ^ (j - 1) - 1)
                 == (inject_Z n + (1 # 2)) * inject_Z (2 ^ j) - 1)%Q).
    { rewrite P2. unfold Z.sub at 1.
      rewrite inject_Z_plus, inject_Z_opp, !inject_Z_mult, inject_Z_plus, !inject_Z_mult.
      change (inject_Z 2) with 2%Q. change (inject_Z 1) with 1%Q. ring. }
    rewrite E.
    transitivity ((inject_Z n + (1 # 2)) * (2 ^ (- j) * inject_Z (2 ^ j)) - 2 ^ (- j))%Q;
      [ring | rewrite Pj; ring]. }
  assert (Pinv : (2 ^ (- j) * (2 * inject_Z g) <= 1)%Q).
  { rewrite <- Pj. apply Qmult_le_l; [apply two_pow_pos|].
    change 2%Q with (inject_Z 2). rewrite <- inject_Z_mult, <- Zle_Qle. exact Jhi. }
  assert (Qhi : (q <= r)%Q).
  { rewrite Rval. apply (Qmult_le_r _ _ (2 * inject_Z g)); [lra|].
    assert (E' : (q * (2 * inject_Z g) == inject_Z (2 * T))%Q).
    { rewrite inject_Z_mult. change (inject_Z 2) with 2%Q. rewrite <- Hq. ring. }
    assert (E : ((inject_Z n + (1 # 2)) * (2 * inject_Z g)
                 == inject_Z (2 * g * n + g))%Q).
    { rewrite inject_Z_plus, !inject_Z_mult. change (inject_Z 2) with 2%Q. ring. }
    assert (Hz : (inject_Z (2 * T) <= inject_Z (2 * g * n + g) - 1)%Q).
    { assert (2 * T <= 2 * g * n + g - 1) as Hz by lia.
      rewrite Zle_Qle in Hz. unfold Z.sub in Hz.
      rewrite inject_Z_plus, inject_Z_opp in Hz. exact Hz. }
    rewrite E'.
    apply Qle_trans with (inject_Z (2 * g * n + g) - 1)%Q; [exact Hz|].
    rewrite <- E. 
    assert (((inject_Z n + (1 # 2) - 2 ^ (- j)) * (2 * inject_Z g)
             == (inject_Z n + (1 # 2)) * (2 * inject_Z g)
                - 2 ^ (- j) * (2 * inject_Z g))%Q) as -> by ring.
    lra. }
  assert (Rdouble : is_double r).
  { apply (double_representable r M (- j)); [reflexivity | | lia].
    assert (Habs : Z.abs n * g <= Z.abs T + g) by nia.
    assert (Z.abs M <= (2 * Z.abs n + 1) * 2 ^ (j - 1) + 1).
    { unfold M. assert (0 < 2 ^ (j - 1)) by (apply Z.pow_pos_nonneg; lia). nia. }
    assert ((2 * Z.abs n + 1) * 2 ^ (j - 1) <= (2 * Z.abs n + 1) * (2 * g)) by nia.
    assert ((2 * Z.abs n + 1) * (2 * g) <= 4 * Z.abs T + 6 * g) by nia.
    assert (4 * Z.abs T + 6 * g + 1 <= 2 ^ 53) by lia.
    lia. }
  assert (Ldouble : is_double (inject_Z n - (1 # 2))%Q).
  { apply (double_representable _ (2 * n - 1) (- 1)); [| |lia].
    - unfold Z.sub. rewrite inject_Z_plus, inject_Z_opp, inject_Z_mult.
      change (inject_Z 2) with 2%Q. change (inject_Z 1) with 1%Q.
      change (2 ^ (-1))%Q with (1 # 2)%Q. ring.
    - assert (Habs : Z.abs n * g <= Z.abs T + g) by nia.
      assert (Z.abs n <= Z.abs T + g) by nia. lia. }
  pose proof (double_ge_double q _ Ldouble Qlo) as Dlo.
  pose proof (double_le_double q _ Rdouble Qhi) as Dhi.
  pose proof (two_pow_pos (- j)) as Ppos.
  unfold JS.Math_round at 1. apply floor_unique;
    change (JS.div (inject_Z T) (inject_Z g)) with (JS.double q).
  - lra.
  - rewrite Rval in Dhi. lra.
Qed.

(** For an integer onset below 2^50 in magnitude and a grid of at most
    2^49 ticks the snap is computed exactly. *)
Lemma double_nearest_exact T g :
  0 < g -> g <= 2 ^ 49 -> Z.abs T <= 2 ^ 50 ->
  snaps_exactly g (inject_Z T)
  /\ (Double.nearest g (inject_Z T) == nearest g (inject_Z T))%Q.
Proof.
  intros Hg Hgb HT.
  assert (Hn : JS.Math_round (inject_Z T / inject_Z g) = (2 * T + g) / (2 * g))
    by (apply Math_round_div, Hg).
  assert (Hlo : 2 * g * ((2 * T + g) / (2 * g)) <= 2 * T + g)
    by (apply Z.mul_div_le; lia).
  assert (Hhi : 2 * T + g < 2 * g * ((2 * T + g) / (2 * g) + 1))
    by (apply (Z.mul_succ_div_gt (2 * T + g) (2 * g)); lia).
  assert (Hex : snaps_exactly g (inject_Z T)).
  { unfold snaps_exactly. rewrite (Math_round_div_double T g Hg Hgb HT), Hn.
    unfold is_double. rewrite <- inject_Z_mult. apply double_Z.
    set (n := (2 * T + g) / (2 * g)) in *. nia. }
  split; [exact Hex|].
  unfold Double.nearest, JS.mul, nearest.
  rewrite <- (Math_round_div_double T g Hg Hgb HT). exact Hex.
Qed.

Lemma double_nearest_comp g t t' :
  (t == t')%Q -> Double.nearest g t = Double.nearest g t'.
Proof.
  intros E. unfold Double.nearest.
  assert (JS.div t (inject_Z g) = JS.div t' (inject_Z g)) as ->
    by (unfold JS.div; apply double_comp; now rewrite E).
  reflexivity.
Qed.

Lemma double_quantizeNotes_run st alias i e t gridBeats ms me :
  st !! alias = Some e ->
  track_at (entry_midi e) i = Some t ->
  0 < Double.gridTicks (entry_midi e) gridBeats ->
  Double.quantizeNotes alias i gridBeats ms me st =
    (<[alias := with_dirty true
                  (entry_set_notes e i
                     (map (Double.quantize_note (Double.range_start (entry_midi e) ms)
                             (Double.range_end (entry_midi e) me)
                             (Double.gridTicks (entry_midi e) gridBeats))
                        (notes t)))]> st,
     Return {| q_trackIndex := i; q_gridBeats := gridBeats;
               quantizedCount :=
                 length (List.filter (in_range (Double.range_start (entry_midi e) ms)
                                        (Double.range_end (entry_midi e) me)) (notes t)) |}).
Proof.
  intros Hentry Htrack Hg.
  unfold Double.quantizeNotes. enter_call Hentry Htrack.
  destruct (Z.leb_spec (Double.gridTicks (entry_midi e) gridBeats) 0); [lia|].
  unfold bind at 1. rewrite (update_notes_run st alias e i t Hentry Htrack).
  unfold bind at 1.
  rewrite (set_dirty_run _ alias _ (lookup_insert_eq _ _ _)).
  now rewrite insert_insert_eq.
Qed.

Lemma double_quantizeNotes_fails st alias i gridBeats ms me :
  (st !! alias = None
   \/ (exists e, st !! alias = Some e /\
         (track_at (entry_midi e) i = None
          \/ Double.gridTicks (entry_midi e) gridBeats <= 0))) ->
  fst (Double.quantizeNotes alias i gridBeats ms me st) = st.
Proof.
  unfold Double.quantizeNotes, bind, requireLoaded, requireTrack.
  intros [Hnone | (e & Hentry & [Htrack | Hgrid])].
  - now rewrite Hnone.
  - now rewrite Hentry, Htrack.
  - rewrite Hentry. destruct (track_at (entry_midi e) i); [|reflexivity].
    unfold ret.
    now destruct (Z.leb_spec (Double.gridTicks (entry_midi e) gridBeats) 0); [|lia].
Qed.

(** C6, as stated, fails: the onset 9857799542537426 lies above 2^53, where
    the doubles are the even integers.  With a grid of 3 ticks the first
    call moves it to 9857799542537428 (the product 3285933180845809 * 3,
    rounded), the second call moves it again, to 9857799542537430; neither
    is a multiple of 3. *)
Lemma quantizeNotes_twice_moves_high_onset :
  Double.gridTicks (entry_midi high_onset_song) (1 # 32) = 3 /\
  map note_ticks
    (track_notes
       (fst (Double.quantizeNotes "far" 0 (1 # 32) None None high_onset_store))
       "far" 0) = [9857799542537428%Q] /\
  map note_ticks
    (track_notes
       (fst (Double.quantizeNotes "far" 0 (1 # 32) None None
               (fst (Double.quantizeNotes "far" 0 (1 # 32) None None high_onset_store))))
       "far" 0) = [9857799542537430%Q] /\
  fst (Double.quantizeNotes "far" 0 (1 # 32) None None
         (fst (Double.quantizeNotes "far" 0 (1 # 32) None None high_onset_store)))
  <> fst (Double.quantizeNotes "far" 0 (1 # 32) None None high_onset_store).
Proof.
  assert (H1 : map note_ticks
    (track_notes
       (fst (Double.quantizeNotes "far" 0 (1 # 32) None None high_onset_store))
       "far" 0) = [9857799542537428%Q]) by (vm_compute; reflexivity).
  assert (H2 : map note_ticks
    (track_notes
       (fst (Double.quantizeNotes "far" 0 (1 # 32) None None
               (fst (Double.quantizeNotes "far" 0 (1 # 32) None None high_onset_store))))
       "far" 0) = [9857799542537430%Q]) by (vm_compute; reflexivity).
  split; [vm_compute; reflexivity|]. split; [exact H1|]. split; [exact H2|].
  intros E. rewrite E, H1 in H2. discriminate H2.
Qed.

(** C6 (amended): quantizing twice with the same arguments leaves the
    store, and so every note's onset, as one quantization leaves it,
    whenever no snapped onset [Math.round(onset / gridTicks) * gridTicks] of
    the first call is rounded.  With a positive grid on an existing track
    the call returns and each onset in the range becomes that product.  For
    whole-number onsets of at most 2^50 in magnitude and a grid of at most
    2^49 ticks no product is rounded, and the snapped onset is a multiple of
    gridTicks within half a grid step of the onset, the larger one at a tie;
    an onset k * gridTicks within 2^53 maps to itself.  A call that fails
    leaves the store as it was. *)
Theorem quantizeNotes_idempotent
    (st : Store) (alias : string) (i : Z) (gridBeats : Q) (ms me : option Z) :
  let once := Double.quantizeNotes alias i gridBeats ms me st in
  let twice := Double.quantizeNotes alias i gridBeats ms me (fst once) in
  (forall e t,
     st !! alias = Some e ->
     track_at (entry_midi e) i = Some t ->
     let g := Double.gridTicks (entry_midi e) gridBeats in
     let a := Double.range_start (entry_midi e) ms in
     let b := Double.range_end (entry_midi e) me in
     0 < g ->
     (exists r, snd once = Return r) /\
     track_notes (fst once) alias i = map (Double.quantize_note a b g) (notes t) /\
     (forall n, in_range a b n = true ->
        note_ticks (Double.quantize_note a b g n) = Double.nearest g (note_ticks n)) /\
     (Forall (fun n => in_range a b n = true -> snaps_exactly g (note_ticks n))
        (notes t) ->
      fst twice = fst once))
  /\ (forall g T tk,
        0 < g -> g <= 2 ^ 49 -> Z.abs T <= 2 ^ 50 -> (tk == inject_Z T)%Q ->
        snaps_exactly g tk /\
        (Double.nearest g tk == inject_Z (JS.Math_round (tk / inject_Z g) * g))%Q /\
        (tk - inject_Z g / 2 < Double.nearest g tk <= tk + inject_Z g / 2)%Q)
  /\ (forall g k,
        0 < g -> Z.abs (k * g) <= 2 ^ 53 -> Z.abs k <= 2 ^ 53 ->
        (Double.nearest g (inject_Z (k * g)) == inject_Z (k * g))%Q)
  /\ ((st !! alias = None
       \/ (exists e, st !! alias = Some e /\
             (track_at (entry_midi e) i = None
              \/ Double.gridTicks (entry_midi e) gridBeats <= 0))) ->
      fst twice = fst once /\ fst once = st).
Proof.
  intros once twice. split; [|split; [|split]].
  - intros e t Hentry Htrack g a b Hg.
    pose proof (double_quantizeNotes_run st alias i e t gridBeats ms me Hentry Htrack Hg)
      as Honce.
    fold once g a b in Honce.
    set (ns1 := map (Double.quantize_note a b g) (notes t)) in *.
    set (e1 := with_dirty true (entry_set_notes e i ns1)) in *.
    assert (track_at (entry_midi e1) i
            = Some {| track_name := track_name t; notes := ns1 |}) as Htrack1
      by (unfold e1; rewrite track_at_with_dirty; now apply track_at_set_notes).
    split; [rewrite Honce; eexists; reflexivity|].
    split; [rewrite Honce; cbn [fst]; unfold track_notes;
            now rewrite lookup_insert_eq, Htrack1|].
    split; [intros n Hn; unfold Double.quantize_note; now rewrite Hn|].
    intros Hex. unfold twice. rewrite Honce. cbn [fst].
    assert (Hg1 : 0 < Double.gridTicks (entry_midi e1) gridBeats) by exact Hg.
    rewrite (double_quantizeNotes_run (<[alias:=e1]> st) alias i e1
               {| track_name := track_name t; notes := ns1 |} gridBeats ms me
               (lookup_insert_eq _ _ _) Htrack1 Hg1).
    cbn [fst notes]. rewrite insert_insert_eq.
    rewrite (double_range_start_header (entry_midi e1) (entry_midi e) eq_refl),
            (double_range_end_header (entry_midi e1) (entry_midi e) eq_refl).
    change (Double.gridTicks (entry_midi e1) gridBeats) with g.
    fold a b.
    assert (map (Double.quantize_note a b g) ns1 = ns1) as ->.
    { unfold ns1. rewrite map_map.
      apply map_ext_in. intros n HIn.
      apply double_quantize_note_idempotent; [exact Hg|].
      rewrite List.Forall_forall in Hex. apply Hex, HIn. }
    unfold e1.
    change (entry_set_notes (with_dirty true (entry_set_notes e i ns1)) i ns1)
      with (with_dirty true (entry_set_notes (entry_set_notes e i ns1) i ns1)).
    now rewrite entry_set_notes_twice.
  - intros g T tk Hg Hgb HT Htk.
    destruct (double_nearest_exact T g Hg Hgb HT) as [Hex Hnear].
    assert (Ecomp : Double.nearest g tk = Double.nearest g (inject_Z T))
      by (apply double_nearest_comp, Htk).
    pose proof (inject_Z_pos g Hg) as Hgq.
    split; [|split].
    + unfold snaps_exactly in *.
      assert (JS.div tk (inject_Z g) = JS.div (inject_Z T) (inject_Z g)) as ->
        by (unfold JS.div; apply double_comp; now rewrite Htk).
      exact Hex.
    + rewrite Ecomp, Hnear. unfold nearest. rewrite inject_Z_mult.
      rewrite (Math_round_comp (tk / inject_Z g) (inject_Z T / inject_Z g))
        by (now rewrite Htk).
      reflexivity.
    + rewrite Ecomp, Hnear.
      pose proof (nearest_within_half g (inject_Z T) Hg) as H.
      rewrite Htk. exact H.
  - intros g k Hg Hb Hk.
    rewrite (double_nearest_multiple g k (inject_Z (k * g)) Hg).
    + apply double_Z, Hb.
    + apply Z_is_double, Hk.
    + rewrite inject_Z_mult. reflexivity.
  - intros Hfail.
    assert (E : fst once = st) by (apply double_quantizeNotes_fails, Hfail).
    split; [|exact E]. unfold twice. rewrite E. exact E.
Qed.

(** Quantizing the three-note track to quarter notes (480 ticks): onsets
    1800, 2000, 4100 become 1920, 1920, 4320, and stay there. *)
Lemma quantizeNotes_idempotent_witness :
  map note_ticks
    (track_notes (fst (Double.quantizeNotes "song" 0 1 None None three_note_store))
       "song" 0)
  = [1920; 1920; 4320]%Q /\
  fst (Double.quantizeNotes "song" 0 1 None None
         (fst (Double.quantizeNotes "song" 0 1 None None three_note_store)))
  = fst (Double.quantizeNotes "song" 0 1 None None three_note_store).
Proof.
  destruct (quantizeNotes_idempotent three_note_store "song" 0 1 None None)
    as (Hrun & Hexact & _).
  destruct (Hrun three_note_song three_note_track eq_refl eq_refl)
    as (_ & Honce & _ & Hidem).
  { vm_compute. reflexivity. }
  split; [rewrite Honce; vm_compute; reflexivity|].
  apply Hidem.
  assert (Hsnap : forall T, Z.abs T <= 2 ^ 50 -> snaps_exactly 480 (inject_Z T)).
  { intros T HT.
    apply (Hexact 480 T (inject_Z T));
      [lia | vm_compute; discriminate | exact HT | reflexivity]. }
  constructor; [intros _; apply (Hsnap 1800); vm_compute; discriminate|].
  constructor; [intros _; apply (Hsnap 2000); vm_compute; discriminate|].
  constructor; [intros _; apply (Hsnap 4100); vm_compute; discriminate|].
  constructor.
Defined.

(** * Sorting: properties *)

Section ArraySort.

Context {A : Type} (cmp : A -> A -> Q) (le : A -> A -> Prop).
Hypothesis cmp_le : forall x y, JS.leb (cmp x y) 0 = true -> le x y.
Hypothesis cmp_gt : forall x y, JS.leb (cmp x y) 0 = false -> le y x.

Lemma sort_insert_perm x l : Permutation (sort_insert cmp x l) (x :: l).
Proof.
  induction l as [|y l IH]; [reflexivity|]. simpl.
  destruct (JS.leb (cmp x y) 0); [reflexivity|].
  rewrite IH. apply perm_swap.
Qed.

Lemma Array_sort_perm l : Permutation (Array_sort cmp l) l.
Proof.
  induction l as [|x l IH]; [reflexivity|].
  unfold Array_sort. simpl. rewrite sort_insert_perm. now constructor.
Qed.

Lemma Array_sort_length l : length (Array_sort cmp l) = length l.
Proof. apply Permutation_length, Array_sort_perm. Qed.

Lemma sort_insert_hd x y l :
  le y x -> HdRel le y l -> HdRel le y (sort_insert cmp x l).
Proof.
  intros Hyx Hhd. destruct l as [|z l]; simpl; [now constructor|].
  destruct (JS.leb (cmp x z) 0); constructor; [exact Hyx|].
  now inversion Hhd.
Qed.

Lemma sort_insert_sorted x l : Sorted le l -> Sorted le (sort_insert cmp x l).
Proof.
  induction l as [|y l IH]; intros Hs; simpl; [repeat constructor|].
  destruct (JS.leb (cmp x y) 0) eqn:E.
  - constructor; [exact Hs|]. constructor. now apply cmp_le.
  - apply Sorted_inv in Hs as [Hs Hhd]. constructor; [now apply IH|].
    apply sort_insert_hd; [now apply cmp_gt | exact Hhd].
Qed.

Lemma Array_sort_sorted l : Sorted le (Array_sort cmp l).
Proof.
  induction l as [|x l IH]; [constructor|].
  unfold Array_sort. simpl. now apply sort_insert_sorted.
Qed.

End ArraySort.

Lemma inject_Z_zero z : (inject_Z z == 0)%Q <-> z = 0.
Proof.
  split; [|intros ->; reflexivity].
  intros H. now apply (inject_Z_injective z 0).
Qed.

Lemma or_else_zero a b : (a == 0)%Q -> JS.or_else a b = b.
Proof. intros H. unfold JS.or_else. now apply Qeq_bool_iff in H as ->. Qed.

Lemma or_else_nonzero a b : ~ (a == 0)%Q -> JS.or_else a b = a.
Proof.
  intros H. unfold JS.or_else. destruct (Qeq_bool a 0) eqn:E; [|reflexivity].
  now apply Qeq_bool_iff in E.
Qed.

(** The comparator decides the order on (measure, beat, pitch). *)
Lemma hit_compare_le a b : JS.leb (hit_compare a b) 0 = true <-> hit_le a b.
Proof.
  unfold hit_compare, hit_le. rewrite JSFacts.leb_le.
  destruct (Z.eq_dec (hit_measure a) (hit_measure b)) as [Em|Nm].
  - rewrite (or_else_zero (inject_Z _)) by (apply inject_Z_zero; lia).
    destruct (Qeq_dec (hit_beat a - hit_beat b) 0) as [Eb|Nb].
    + rewrite or_else_zero by exact Eb.
      rewrite <- (Zle_Qle _ 0).
      split; [intros H; right; split; [exact Em|]; right; split; [lra|lia]|].
      intros [H|[_ [H|[_ H]]]]; [lia|lra|lia].
    + rewrite or_else_nonzero by exact Nb.
      split; [intros H; right; split; [exact Em|]; left; lra|].
      intros [H|[_ [H|[H _]]]]; [lia|lra|lra].
  - assert (~ (inject_Z (hit_measure a - hit_measure b) == 0)%Q) as Nz
      by (rewrite inject_Z_zero; lia).
    rewrite (or_else_nonzero (inject_Z _)) by exact Nz.
    rewrite or_else_nonzero by exact Nz.
    rewrite <- (Zle_Qle _ 0). split; [intros H; left; lia|].
    intros [H|[H _]]; lia.
Qed.

Lemma hit_le_total a b : hit_le a b \/ hit_le b a.
Proof.
  unfold hit_le.
  destruct (Z.lt_trichotomy (hit_measure a) (hit_measure b)) as [H|[H|H]];
    [left; now left| |right; now left].
  destruct (Q_dec (hit_beat a) (hit_beat b)) as [[Hb|Hb]|Hb].
  - left; right; split; [exact H|now left].
  - right; right; split; [now symmetry|now left].
  - destruct (Z.le_ge_cases (hit_midi a) (hit_midi b)).
    + left; right; split; [exact H|]. right. now split.
    + right; right; split; [now symmetry|]. right. split; [now symmetry|assumption].
Qed.

Lemma hit_le_trans : Transitive hit_le.
Proof.
  intros a b c. unfold hit_le.
  intros [H1|[E1 [H1|[Q1 H1]]]] [H2|[E2 [H2|[Q2 H2]]]];
    try (left; lia);
    right; (split; [lia|]);
    try (left; lra);
    right; split; [lra|lia].
Qed.

Lemma hit_sort_sorted l : StronglySorted hit_le (Array_sort hit_compare l).
Proof.
  apply Sorted_StronglySorted; [exact hit_le_trans|].
  apply Array_sort_sorted.
  - intros x y. apply hit_compare_le.
  - intros x y H. destruct (hit_le_total x y) as [Hxy|Hyx]; [|exact Hyx].
    apply hit_compare_le in Hxy. congruence.
Qed.

(** * searchNotes in doubles: properties *)

(** On hits whose beats are doubles the comparator decides as the exact
    differences do. *)
Lemma double_hit_compare_leb a b :
  is_double (hit_beat a) -> is_double (hit_beat b) ->
  JS.leb (Double.hit_compare a b) 0 = JS.leb (hit_compare a b) 0.
Proof.
  intros Ha Hb. destruct (double_sub_sign _ _ Ha Hb) as [Hle Heq].
  unfold Double.hit_compare, hit_compare, JS.or_else.
  destruct (Qeq_bool (inject_Z (hit_measure a - hit_measure b)) 0); [|reflexivity].
  rewrite Heq. destruct (Qeq_bool (hit_beat a - hit_beat b) 0); [reflexivity|].
  exact Hle.
Qed.

Lemma sort_insert_ext_in {A} (cmp cmp' : A -> A -> Q) x l :
  (forall y, In y l -> JS.leb (cmp x y) 0 = JS.leb (cmp' x y) 0) ->
  sort_insert cmp x l = sort_insert cmp' x l.
Proof.
  induction l as [|y l IH]; intros H; [reflexivity|]. simpl.
  rewrite (H y (or_introl eq_refl)).
  destruct (JS.leb (cmp' x y) 0); [reflexivity|].
  f_equal. apply IH. intros z Hz. apply H. now right.
Qed.

Lemma Array_sort_ext_in {A} (cmp cmp' : A -> A -> Q) (P : A -> Prop) l :
  (forall x y, P x -> P y -> JS.leb (cmp x y) 0 = JS.leb (cmp' x y) 0) ->
  Forall P l -> Array_sort cmp l = Array_sort cmp' l.
Proof.
  intros H. induction 1 as [|x l Hx Hl IH]; [reflexivity|].
  unfold Array_sort in *. cbn [foldr]. rewrite IH.
  apply sort_insert_ext_in. intros y Hy. apply H; [exact Hx|].
  assert (Hperm : Permutation (foldr (sort_insert cmp') [] l) l)
    by apply (Array_sort_perm cmp').
  rewrite List.Forall_forall in Hl. apply Hl.
  eapply Permutation_in; [exact Hperm | exact Hy].
Qed.

Lemma double_hit_sort l :
  Forall (fun h => is_double (hit_beat h)) l ->
  Array_sort Double.hit_compare l = Array_sort hit_compare l.
Proof.
  apply Array_sort_ext_in. intros x y. apply double_hit_compare_leb.
Qed.

(** ** The runs of the search *)

Section DoubleSearchRuns.

Variables (midi : Midi) (opts : SearchOpts).

Lemma double_search_note_some fuel ti note :
  double_converts midi fuel note ->
  is_Some (Double.search_note fuel midi opts ti note).
Proof.
  intros [pos Hpos]. unfold Double.search_note. rewrite Hpos.
  destruct (pitch_skipped opts note); [eauto|].
  destruct (measureStart opts), (measureEnd opts);
    try destruct (measure_skipped opts pos); eauto.
Qed.

Lemma double_search_track_some fuel ti ns : forall results,
  Forall (double_converts midi fuel) ns ->
  is_Some (Double.search_track fuel midi opts ti ns results).
Proof.
  induction ns as [|note ns IH]; intros results Hall; [simpl; eauto|].
  apply Forall_cons in Hall as [Hnote Hall]. simpl.
  destruct (double_search_note_some fuel ti note Hnote) as [[hit|] ->]; now apply IH.
Qed.

Lemma double_search_tracks_some fuel ts : forall results,
  Forall (fun it => Forall (double_converts midi fuel) (notes (snd it))) ts ->
  is_Some (Double.search_tracks fuel midi opts ts results).
Proof.
  induction ts as [|[ti track] ts IH]; intros results Hall; [simpl; eauto|].
  apply Forall_cons in Hall as [Htrack Hall]. simpl in *.
  destruct (double_search_track_some fuel ti (notes track) results Htrack) as [res ->].
  now apply IH.
Qed.

Lemma double_search_note_beat fuel ti note h :
  Double.search_note fuel midi opts ti note = Some (Some h) ->
  is_double (hit_beat h).
Proof.
  unfold Double.search_note. destruct (pitch_skipped opts note); [discriminate|].
  intros H.
  destruct (Double.tickToMeasureBeat fuel midi (note_ticks note)) as [pos|];
    destruct (measureStart opts), (measureEnd opts);
    try destruct (measure_skipped opts pos);
    try discriminate; injection H as <-; apply div_is_double.
Qed.

Lemma double_search_track_beats fuel ti ns : forall results res,
  Forall (fun h => is_double (hit_beat h)) results ->
  Double.search_track fuel midi opts ti ns results = Some res ->
  Forall (fun h => is_double (hit_beat h)) res.
Proof.
  induction ns as [|note ns IH]; intros results res Hres; simpl.
  - now intros [= <-].
  - destruct (Double.search_note fuel midi opts ti note) as [[h|]|] eqn:E;
      [| |discriminate].
    + apply IH. apply Forall_app. split; [exact Hres|].
      constructor; [|constructor]. eapply double_search_note_beat; eauto.
    + now apply IH.
Qed.

Lemma double_search_tracks_beats fuel ts : forall results res,
  Forall (fun h => is_double (hit_beat h)) results ->
  Double.search_tracks fuel midi opts ts results = Some res ->
  Forall (fun h => is_double (hit_beat h)) res.
Proof.
  induction ts as [|[ti track] ts IH]; intros results res Hres; simpl.
  - now intros [= <-].
  - destruct (Double.search_track fuel midi opts ti (notes track) results)
      as [res'|] eqn:E; [|discriminate].
    apply IH. eapply double_search_track_beats; eauto.
Qed.

End DoubleSearchRuns.

Lemma double_converts_all midi (ns : list Note) :
  measures_at_least 1 midi ->
  Forall (fun note => (note_ticks note < two_53)%Q) ns ->
  exists fuel0, forall fuel, (fuel0 <= fuel)%nat ->
    Forall (double_converts midi fuel) ns.
Proof.
  intros Hlong. induction 1 as [|note ns Hnote Hns (f1 & H1)].
  - exists 0%nat. constructor.
  - destruct (double_tickToMeasureBeat_returns midi (note_ticks note) Hlong Hnote)
      as (mb & H2).
    exists (Nat.max f1 (S (Z.to_nat (Qfloor (note_ticks note))))).
    intros fuel Hle. constructor.
    + exists mb. apply H2. lia.
    + apply H1. lia.
Qed.

Lemma tracksToScan_In midi trackIndex ti track :
  In (ti, track) (tracksToScan midi trackIndex) -> In track (tracks midi).
Proof.
  unfold tracksToScan. destruct trackIndex as [i|].
  - unfold track_at. destruct (i <? 0); [intros []|].
    destruct (tracks midi !! Z.to_nat i) as [t|] eqn:E; [|intros []].
    intros [[= _ <-] | []].
    apply list_elem_of_In. eapply list_elem_of_lookup_2; eauto.
  - intros H. apply list_elem_of_In in H.
    apply list_elem_of_lookup in H as [k Hk].
    rewrite list_lookup_imap in Hk.
    destruct (tracks midi !! k) as [t|] eqn:E; [|discriminate].
    injection Hk as _ <-.
    apply list_elem_of_In. eapply list_elem_of_lookup_2; eauto.
Qed.

Lemma double_converts_all_tracks midi (ts : list (nat * Track)) :
  measures_at_least 1 midi ->
  Forall (fun it => Forall (fun note => (note_ticks note < two_53)%Q) (notes (snd it))) ts ->
  exists fuel0, forall fuel, (fuel0 <= fuel)%nat ->
    Forall (fun it => Forall (double_converts midi fuel) (notes (snd it))) ts.
Proof.
  intros Hlong. induction 1 as [|it ts Hit Hts (f1 & H1)].
  - exists 0%nat. constructor.
  - destruct (double_converts_all midi (notes (snd it)) Hlong Hit) as (f2 & H2).
    exists (Nat.max f1 f2). intros fuel Hle. constructor.
    + apply H2. lia.
    + apply H1. lia.
Qed.

Lemma onsets_below_scanned b midi trackIndex :
  onsets_below b midi ->
  Forall (fun it => Forall (fun note => (note_ticks note < b)%Q) (notes (snd it)))
         (tracksToScan midi trackIndex).
Proof.
  intros Hall. apply List.Forall_forall. intros [ti track] HIn.
  unfold onsets_below in Hall. rewrite List.Forall_forall in Hall.
  apply Hall. eapply tracksToScan_In; eauto.
Qed.

(** * searchNotes: properties *)

Section SearchRuns.

Variables (midi : Midi) (opts : SearchOpts).

Lemma search_note_passing fuel ti note h :
  search_note fuel midi opts ti note = Some (Some h) -> from_passing_note opts h.
Proof.
  unfold search_note. destruct (pitch_skipped opts note) eqn:Hskip; [discriminate|].
  intros H. exists note. split; [exact Hskip|].
  destruct (tickToMeasureBeat fuel midi (note_ticks note)) as [pos|];
    destruct (measureStart opts), (measureEnd opts);
    try destruct (measure_skipped opts pos);
    try discriminate; now injection H as <-.
Qed.

Lemma search_track_passing fuel ti ns : forall results res,
  Forall (from_passing_note opts) results ->
  search_track fuel midi opts ti ns results = Some res ->
  Forall (from_passing_note opts) res.
Proof.
  induction ns as [|note ns IH]; intros results res Hres; simpl.
  - now intros [= <-].
  - destruct (search_note fuel midi opts ti note) as [[h|]|] eqn:E; [| |discriminate].
    + apply IH. apply Forall_app. split; [exact Hres|].
      constructor; [|constructor]. eapply search_note_passing; eauto.
    + now apply IH.
Qed.

Lemma search_tracks_passing fuel ts : forall results res,
  Forall (from_passing_note opts) results ->
  search_tracks fuel midi opts ts results = Some res ->
  Forall (from_passing_note opts) res.
Proof.
  induction ts as [|[ti track] ts IH]; intros results res Hres; simpl.
  - now intros [= <-].
  - destruct (search_track fuel midi opts ti (notes track) results) as [res'|] eqn:E;
      [|discriminate].
    apply IH. eapply search_track_passing; eauto.
Qed.

End SearchRuns.

(** C7: whenever the search of a loaded document returns, the returned
    list is the first 200 elements of the matches sorted ascending by
    (measure, beat, pitch), while count is the number of all matches; with
    more than 200 matches the list has 200 elements and count is larger.
    And the search does return, once the budget is large enough, on every
    document whose measures are at least one tick long and whose onsets lie
    below 2^53. *)
Theorem searchNotes_sorted_truncated_counted
    (st : Store) (alias : string) (e : Entry) (opts : SearchOpts) :
  st !! alias = Some e ->
  (forall fuel r,
     Double.searchNotes fuel st alias opts = Some (Return r) ->
     exists matches sorted,
       Double.search_tracks fuel (entry_midi e) opts
         (tracksToScan (entry_midi e) (opt_trackIndex opts)) [] = Some matches /\
       Permutation sorted matches /\
       StronglySorted hit_le sorted /\
       result_notes r = take 200 sorted /\
       count r = length matches /\
       ((200 < length matches)%nat ->
        length (result_notes r) = 200%nat /\ (length (result_notes r) < count r)%nat))
  /\ (measures_at_least 1 (entry_midi e) ->
      onsets_below two_53 (entry_midi e) ->
      exists fuel0, forall fuel, (fuel0 <= fuel)%nat ->
        exists r, Double.searchNotes fuel st alias opts = Some (Return r)).
Proof.
  intros Hentry. split.
  - intros fuel r. unfold Double.searchNotes. rewrite Hentry.
    destruct (Double.search_tracks fuel (entry_midi e) opts _ []) as [matches|] eqn:E;
      [|discriminate].
    intros [= <-]. exists matches, (Array_sort hit_compare matches).
    assert (Hbeats : Forall (fun h => is_double (hit_beat h)) matches).
    { eapply double_search_tracks_beats; [|exact E]. constructor. }
    rewrite (double_hit_sort matches Hbeats).
    cbn [count result_notes].
    split; [reflexivity|]. split; [apply Array_sort_perm|].
    split; [apply hit_sort_sorted|]. split; [reflexivity|].
    split; [apply Array_sort_length|].
    intros Hmany. rewrite length_take, Array_sort_length. lia.
  - intros Hlong Hbelow.
    destruct (double_converts_all_tracks (entry_midi e)
                (tracksToScan (entry_midi e) (opt_trackIndex opts)) Hlong
                (onsets_below_scanned _ _ _ Hbelow)) as (fuel0 & H0).
    exists fuel0. intros fuel Hle. unfold Double.searchNotes. rewrite Hentry.
    destruct (double_search_tracks_some (entry_midi e) opts fuel _ [] (H0 fuel Hle))
      as [res ->].
    eauto.
Qed.

Lemma crowded_song_checks :
  measures_at_least 1 (entry_midi crowded_song)
  /\ onsets_below two_53 (entry_midi crowded_song).
Proof.
  split.
  - apply measures_at_least_events. repeat constructor; vm_compute; discriminate.
  - constructor; [|constructor]. cbn [notes]. unfold crowded_notes.
    apply List.Forall_forall. intros n Hn. apply in_map_iff in Hn as (k & <- & Hk).
    cbn [note_ticks]. unfold two_53.
    change 9007199254740992%Q with (inject_Z 9007199254740992).
    rewrite <- Zlt_Qlt. apply in_seq in Hk. lia.
Qed.

(** The crowded track: 201 matches counted, 200 returned, in order; its
    measures are 1920 ticks long and its onsets at most 2010. *)
Lemma searchNotes_sorted_truncated_counted_witness :
  Double.searchNotes 3 crowded_store "busy" no_filters = Some (Return crowded_result) /\
  count crowded_result = 201%nat /\
  length (result_notes crowded_result) = 200%nat /\
  (exists sorted,
     StronglySorted hit_le sorted /\ result_notes crowded_result = take 200 sorted) /\
  exists fuel0, forall fuel, (fuel0 <= fuel)%nat ->
    exists r, Double.searchNotes fuel crowded_store "busy" no_filters = Some (Return r).
Proof.
  assert (Double.searchNotes 3 crowded_store "busy" no_filters
          = Some (Return crowded_result)) as Hrun
    by (vm_compute; reflexivity).
  destruct crowded_song_checks as [Hlong Hbelow].
  destruct (searchNotes_sorted_truncated_counted crowded_store "busy" crowded_song
              no_filters eq_refl) as [Hsorted Hreturns].
  destruct (Hsorted 3%nat crowded_result Hrun) as (matches & sorted & _ & _ & Hs & Htake & _).
  split; [exact Hrun|]. split; [reflexivity|]. split; [reflexivity|].
  split; [exists sorted; split; [exact Hs | exact Htake]|].
  exact (Hreturns Hlong Hbelow).
Defined.

(** ** The pitch-class filter and octave -1 *)

Lemma stripped_name_ends_in_minus p :
  0 <= p <= 11 -> last_char (strip_first_digits (midiToNoteName p)) = Some minus.
Proof.
  intros Hp.
  assert (p = 0 \/ p = 1 \/ p = 2 \/ p = 3 \/ p = 4 \/ p = 5 \/ p = 6 \/ p = 7 \/
          p = 8 \/ p = 9 \/ p = 10 \/ p = 11) as Hcases by lia.
  repeat destruct Hcases as [->|Hcases]; try subst p; reflexivity.
Qed.

Lemma last_char_has_char c s : last_char s = Some c -> has_char c s = true.
Proof.
  induction s as [|c' r IH]; [discriminate|]. simpl.
  destruct r as [|c'' r'].
  - intros [= ->]. now rewrite Ascii.eqb_refl.
  - intros H. rewrite (IH H). apply orb_true_r.
Qed.

Lemma upper_letter_not_minus c :
  is_letter c = true \/ is_accidental c = true ->
  Ascii.eqb (upper_char c) minus = false.
Proof.
  intros H.
  destruct c as [[] [] [] [] [] [] [] []]; try reflexivity;
    destruct H as [H|H]; discriminate H.
Qed.

Lemma upper_accidentals_no_minus s :
  all_accidentals s = true -> has_char minus (toUpperCase s) = false.
Proof.
  induction s as [|c r IH]; [reflexivity|]. simpl. intros H.
  apply andb_true_iff in H as [Hc Hr].
  rewrite (upper_letter_not_minus c (or_intror Hc)). now apply IH.
Qed.

Lemma upper_pitch_class_no_minus f :
  is_pitch_class f = true -> has_char minus (toUpperCase f) = false.
Proof.
  destruct f as [|c r]; [discriminate|]. simpl. intros H.
  apply andb_true_iff in H as [Hc Hr].
  rewrite (upper_letter_not_minus c (or_introl Hc)).
  now apply upper_accidentals_no_minus.
Qed.

Lemma stripped_name_not_pitch_class p f :
  0 <= p <= 11 -> is_pitch_class f = true ->
  strip_first_digits (midiToNoteName p) <> toUpperCase f.
Proof.
  intros Hp Hf E.
  pose proof (last_char_has_char _ _ (stripped_name_ends_in_minus p Hp)) as H.
  rewrite E, (upper_pitch_class_no_minus f Hf) in H. discriminate.
Qed.

Lemma pitch_skipped_octave_minus_one opts f note :
  noteName opts = Some f -> is_pitch_class f = true ->
  0 <= note_midi note <= 11 ->
  pitch_skipped opts note = true.
Proof.
  intros Hname Hf Hp. unfold pitch_skipped. rewrite Hname.
  assert (String.eqb f EmptyString = false) as ->
    by (destruct f; [discriminate|reflexivity]).
  assert (String.eqb (strip_first_digits (midiToNoteName (note_midi note)))
                     (toUpperCase f) = false) as ->.
  { apply String.eqb_neq. now apply stripped_name_not_pitch_class. }
  apply orb_true_r.
Qed.

(** C10: with a pitch-class filter (a letter A-G or a-g followed by sharps
    and flats) a search that returns never returns a note of pitch 0..11:
    the name of such a pitch with its digits removed ends in '-' and so
    differs from the uppercased filter. *)
Theorem searchNotes_noteName_misses_octave_minus_one
    (st : Store) (alias : string) (opts : SearchOpts) (f : string)
    (fuel : nat) (r : SearchResult) :
  noteName opts = Some f ->
  is_pitch_class f = true ->
  searchNotes fuel st alias opts = Some (Return r) ->
  Forall (fun h => ~ (0 <= hit_midi h <= 11)) (result_notes r)
  /\ (forall p, 0 <= p <= 11 ->
        last_char (strip_first_digits (midiToNoteName p)) = Some minus /\
        strip_first_digits (midiToNoteName p) <> toUpperCase f).
Proof.
  intros Hname Hf. unfold searchNotes.
  destruct (st !! alias) as [e|]; [|discriminate].
  destruct (search_tracks fuel (entry_midi e) opts _ []) as [matches|] eqn:E;
    [|discriminate].
  intros [= <-]. cbn [result_notes]. split.
  - apply Forall_take.
    apply (Permutation_Forall (Permutation_sym (Array_sort_perm hit_compare matches))).
    eapply Forall_impl.
    + eapply search_tracks_passing; [|exact E]. constructor.
    + intros h (note & Hpass & Hmidi) Hp. rewrite Hmidi in Hp.
      rewrite (pitch_skipped_octave_minus_one opts f note Hname Hf Hp) in Hpass.
      discriminate.
  - intros p Hp. split;
      [now apply stripped_name_ends_in_minus | now apply stripped_name_not_pitch_class].
Qed.

(** The three-note track holds a C#-1, and the filter "C#" finds nothing. *)
Lemma searchNotes_noteName_misses_octave_minus_one_witness :
  map midiToNoteName (map note_midi (track_notes three_note_store "song" 0))
    = ["A4"; "C#-1"; "G9"]%string /\
  is_pitch_class "C#" = true /\
  searchNotes 3 three_note_store "song" c_sharp_filter
    = Some (Return {| count := 0; result_notes := [] |}) /\
  strip_first_digits (midiToNoteName 1) <> toUpperCase "C#".
Proof.
  assert (searchNotes 3 three_note_store "song" c_sharp_filter
          = Some (Return {| count := 0; result_notes := [] |})) as Hrun
    by (vm_compute; reflexivity).
  assert (0 <= 1 <= 11) as Hp by lia.
  destruct (searchNotes_noteName_misses_octave_minus_one three_note_store "song"
              c_sharp_filter "C#" 3 _ eq_refl eq_refl Hrun) as [_ Hname].
  split; [reflexivity|]. split; [reflexivity|]. split; [exact Hrun|].
  exact (proj2 (Hname 1 Hp)).
Defined.

(** * Pitch-name codec: encoding and decoding together *)

Lemma midi_pitches_spec p : 0 <= p <= 127 -> In p midi_pitches.
Proof.
  intros Hp. unfold midi_pitches. apply in_map_iff.
  exists (Z.to_nat p). split; [lia|]. apply in_seq. lia.
Qed.

(** A property of pitches checked on all 128 of them holds of each. *)
Lemma midi_pitches_forallb (f : Z -> bool) p :
  forallb f midi_pitches = true -> 0 <= p <= 127 -> f p = true.
Proof.
  intros Hall Hp. rewrite forallb_forall in Hall.
  apply Hall. now apply midi_pitches_spec.
Qed.

(** X1: decoding the name that [midiToNoteName] gives a pitch of 0..127
    returns that pitch. *)
Theorem noteNameToMidi_midiToNoteName (p : Z) :
  0 <= p <= 127 -> noteNameToMidi (midiToNoteName p) = Return p.
Proof.
  intros Hp.
  pose proof (midi_pitches_forallb
                (fun q => match noteNameToMidi (midiToNoteName q) with
                          | Return r => r =? q
                          | Throw _ => false
                          end)
                p) as H.
  cbv beta in H.
  destruct (noteNameToMidi (midiToNoteName p)) as [r|e].
  - f_equal. apply Z.eqb_eq. apply H; [vm_compute; reflexivity | exact Hp].
  - discriminate H; [vm_compute; reflexivity | exact Hp].
Qed.

(** Pitch 0 is C-1 and pitch 127 is G9; both decode back. *)
Lemma noteNameToMidi_midiToNoteName_witness :
  0 <= 0 <= 127 /\ 0 <= 127 <= 127 /\
  midiToNoteName 0 = "C-1"%string /\ noteNameToMidi "C-1" = Return 0 /\
  midiToNoteName 127 = "G9"%string /\ noteNameToMidi "G9" = Return 127.
Proof.
  assert (0 <= 0 <= 127) as H0 by lia.
  assert (0 <= 127 <= 127) as H127 by lia.
  split; [exact H0|]. split; [exact H127|].
  split; [reflexivity|].
  split; [exact (noteNameToMidi_midiToNoteName 0 H0)|].
  split; [reflexivity|].
  exact (noteNameToMidi_midiToNoteName 127 H127).
Defined.

(** From octave 0 up, removing the digits of a name leaves the pitch-class
    name; in octave -1 it leaves the pitch-class name and the sign. *)
Lemma stripped_name_pitch_class p :
  12 <= p <= 127 ->
  strip_first_digits (midiToNoteName p) = pitch_class_name p.
Proof.
  intros Hp.
  pose proof (midi_pitches_forallb
                (fun q => (q <? 12) ||
                          String.eqb (strip_first_digits (midiToNoteName q))
                                     (pitch_class_name q)) p) as H.
  cbv beta in H.
  assert ((p <? 12) = false) as E by lia. rewrite E in H. simpl in H.
  apply String.eqb_eq. apply H; [vm_compute; reflexivity | lia].
Qed.

(** No name of a pitch has a 'B' after its first character, with or
    without its digits. *)
Lemma stripped_name_no_inner_B p :
  0 <= p <= 127 ->
  has_char "B" (string_tail (strip_first_digits (midiToNoteName p))) = false.
Proof.
  intros Hp.
  pose proof (midi_pitches_forallb
                (fun q => negb (has_char "B"
                                  (string_tail (strip_first_digits (midiToNoteName q)))))
                p) as H.
  cbv beta in H. apply negb_true_iff. apply H; [vm_compute; reflexivity | exact Hp].
Qed.

(** * searchNotes: what the filters select *)

Section SearchInvariant.

Variables (midi : Midi) (opts : SearchOpts) (fuel : nat) (P : Hit -> Prop).

Lemma search_track_forall ti ns : forall results res,
  (forall note h, In note ns ->
     search_note fuel midi opts ti note = Some (Some h) -> P h) ->
  Forall P results ->
  search_track fuel midi opts ti ns results = Some res ->
  Forall P res.
Proof.
  induction ns as [|note ns IH]; intros results res Hnote Hres; simpl.
  - now intros [= <-].
  - destruct (search_note fuel midi opts ti note) as [[h|]|] eqn:E; [| |discriminate].
    + apply IH; [intros n' h' HIn; apply Hnote; now right|].
      apply Forall_app. split; [exact Hres|].
      constructor; [|constructor]. apply (Hnote note h); [now left | exact E].
    + apply IH; [intros n' h' HIn; apply Hnote; now right | exact Hres].
Qed.

Lemma search_tracks_forall ts : forall results res,
  (forall ti track note h, In (ti, track) ts -> In note (notes track) ->
     search_note fuel midi opts ti note = Some (Some h) -> P h) ->
  Forall P results ->
  search_tracks fuel midi opts ts results = Some res ->
  Forall P res.
Proof.
  induction ts as [|[ti track] ts IH]; intros results res Hnote Hres; simpl.
  - now intros [= <-].
  - destruct (search_track fuel midi opts ti (notes track) results) as [res'|] eqn:E;
      [|discriminate].
    apply IH; [intros ti' track' note h HIn; apply Hnote; now right|].
    eapply search_track_forall; [|exact Hres|exact E].
    intros note h HIn. apply (Hnote ti track); [now left | exact HIn].
Qed.

End SearchInvariant.

(** What a pushed hit says of its note. *)
Lemma search_note_hit fuel midi opts ti note h :
  search_note fuel midi opts ti note = Some (Some h) ->
  pitch_skipped opts note = false /\
  exists pos,
    tickToMeasureBeat fuel midi (note_ticks note) = Some pos /\
    (measureStart opts = None /\ measureEnd opts = None \/
     measure_skipped opts pos = false) /\
    hit_track h = ti /\ hit_measure h = measure pos /\
    hit_midi h = note_midi note /\
    hit_name h = midiToNoteName (note_midi note).
Proof.
  unfold search_note. destruct (pitch_skipped opts note) eqn:Hskip; [discriminate|].
  intros H. split; [reflexivity|].
  destruct (tickToMeasureBeat fuel midi (note_ticks note)) as [pos|] eqn:Hpos.
  - exists pos. split; [reflexivity|].
    destruct (measureStart opts) as [a|] eqn:Ea, (measureEnd opts) as [b|] eqn:Eb;
      try (destruct (measure_skipped opts pos) eqn:Hm; [discriminate|]);
      injection H as <-; cbn; repeat split; auto.
  - destruct (measureStart opts), (measureEnd opts); discriminate.
Qed.

Lemma pitch_skipped_false opts note :
  pitch_skipped opts note = false ->
  (forall lo, pitchMin opts = Some lo -> lo <= note_midi note) /\
  (forall hi, pitchMax opts = Some hi -> note_midi note <= hi) /\
  (forall f, noteName opts = Some f -> f <> EmptyString ->
     strip_first_digits (midiToNoteName (note_midi note)) = toUpperCase f).
Proof.
  unfold pitch_skipped. intros H.
  apply orb_false_iff in H as [H Hname]. apply orb_false_iff in H as [Hlo Hhi].
  repeat split.
  - intros lo E. rewrite E in Hlo. lia.
  - intros hi E. rewrite E in Hhi. lia.
  - intros f E Hf. rewrite E in Hname.
    apply andb_false_iff in Hname as [Hname|Hname].
    + apply negb_false_iff, String.eqb_eq in Hname. contradiction.
    + now apply negb_false_iff, String.eqb_eq in Hname.
Qed.

Lemma measure_skipped_false opts pos :
  measure_skipped opts pos = false ->
  (forall a, measureStart opts = Some a -> a <= measure pos) /\
  (forall b, measureEnd opts = Some b -> measure pos <= b).
Proof.
  unfold measure_skipped. intros H. apply orb_false_iff in H as [Hlo Hhi]. split.
  - intros a E. rewrite E in Hlo. lia.
  - intros b E. rewrite E in Hhi. lia.
Qed.

Lemma tracksToScan_index midi i ti track :
  In (ti, track) (tracksToScan midi (Some i)) -> Z.of_nat ti = i.
Proof.
  unfold tracksToScan, track_at. destruct (Z.ltb_spec i 0); [intros []|].
  destruct (tracks midi !! Z.to_nat i); [|intros []].
  intros [[= <- _]|[]]. lia.
Qed.

(** The hits of a returning search are sorted, truncated matches. *)
Lemma searchNotes_results fuel st alias opts r :
  searchNotes fuel st alias opts = Some (Return r) ->
  exists e matches,
    st !! alias = Some e /\
    search_tracks fuel (entry_midi e) opts
      (tracksToScan (entry_midi e) (opt_trackIndex opts)) [] = Some matches /\
    count r = length matches /\
    result_notes r = take 200 (Array_sort hit_compare matches).
Proof.
  unfold searchNotes. destruct (st !! alias) as [e|]; [|discriminate].
  destruct (search_tracks fuel (entry_midi e) opts _ []) as [matches|] eqn:E;
    [|discriminate].
  intros [= <-]. exists e, matches. cbn [count result_notes].
  repeat split; [exact E | apply Array_sort_length].
Qed.

Lemma searchNotes_results_forall fuel st alias opts r (P : Hit -> Prop) :
  searchNotes fuel st alias opts = Some (Return r) ->
  (forall e matches,
     st !! alias = Some e ->
     search_tracks fuel (entry_midi e) opts
       (tracksToScan (entry_midi e) (opt_trackIndex opts)) [] = Some matches ->
     Forall P matches) ->
  Forall P (result_notes r).
Proof.
  intros Hrun HP.
  destruct (searchNotes_results _ _ _ _ _ Hrun) as (e & matches & He & Hm & _ & ->).
  apply Forall_take.
  apply (Permutation_Forall (Permutation_sym (Array_sort_perm hit_compare matches))).
  now apply (HP e).
Qed.

(** X2: every note a search returns satisfies every filter that was given:
    the pitch bounds, the pitch-class name (compared with the uppercased
    filter after removing the first run of digits from the note's name), the
    measure bounds and the track index; its name is the name of its pitch. *)
Theorem searchNotes_hits_satisfy_filters
    (fuel : nat) (st : Store) (alias : string) (opts : SearchOpts) (r : SearchResult) :
  searchNotes fuel st alias opts = Some (Return r) ->
  Forall (hit_satisfies opts) (result_notes r).
Proof.
  intros Hrun. apply (searchNotes_results_forall _ _ _ _ _ _ Hrun).
  intros e matches _ Hm.
  eapply search_tracks_forall; [|constructor|exact Hm].
  intros ti track note h HIn _ Hh.
  destruct (search_note_hit _ _ _ _ _ _ Hh)
    as (Hskip & pos & _ & Hmeasure & Hti & Hhm & Hmidi & Hname).
  destruct (pitch_skipped_false _ _ Hskip) as (Hlo & Hhi & Hf).
  unfold hit_satisfies. rewrite Hmidi, Hname, Hhm.
  split; [exact Hlo|]. split; [exact Hhi|]. split; [exact Hf|].
  split; [|split; [|split; [|reflexivity]]].
  - intros a Ea. destruct Hmeasure as [[Hnone _]|Hm']; [congruence|].
    now apply (measure_skipped_false _ _ Hm').
  - intros b Eb. destruct Hmeasure as [[_ Hnone]|Hm']; [congruence|].
    now apply (measure_skipped_false _ _ Hm').
  - intros i Ei. rewrite Ei in HIn. rewrite Hti.
    now apply (tracksToScan_index _ _ _ _ HIn).
Qed.

(** Measure 1 of the three-note track from pitch 60 up: the A4 alone. *)
Lemma searchNotes_hits_satisfy_filters_witness :
  searchNotes 3 three_note_store "song" from_c4_in_measure_1
    = Some (Return from_c4_result) /\
  map hit_midi (result_notes from_c4_result) = [69] /\
  Forall (hit_satisfies from_c4_in_measure_1) (result_notes from_c4_result).
Proof.
  assert (searchNotes 3 three_note_store "song" from_c4_in_measure_1
          = Some (Return from_c4_result)) as Hrun by (vm_compute; reflexivity).
  split; [exact Hrun|]. split; [reflexivity|].
  exact (searchNotes_hits_satisfy_filters 3 three_note_store "song"
           from_c4_in_measure_1 from_c4_result Hrun).
Defined.

(** Without note filters every note of a scanned track is pushed. *)
Lemma search_track_all fuel midi opts ti ns : forall results res,
  track_filter_only opts ->
  search_track fuel midi opts ti ns results = Some res ->
  length res = (length results + length ns)%nat.
Proof.
  intros results res (Hlo & Hhi & Hname & Ha & Hb).
  revert results res. induction ns as [|note ns IH]; intros results res; simpl.
  - intros [= <-]. lia.
  - unfold search_note, pitch_skipped. rewrite Hlo, Hhi, Hname, Ha, Hb. simpl.
    destruct (tickToMeasureBeat fuel midi (note_ticks note)); [|discriminate].
    intros H. apply IH in H. rewrite length_app in H. simpl in H. lia.
Qed.

Lemma search_tracks_all fuel midi opts ts : forall results res,
  track_filter_only opts ->
  search_tracks fuel midi opts ts results = Some res ->
  length res = (length results + length (concat (map (fun it => notes (snd it)) ts)))%nat.
Proof.
  intros results res Hopts. revert results res.
  induction ts as [|[ti track] ts IH]; intros results res; simpl.
  - intros [= <-]. lia.
  - destruct (search_track fuel midi opts ti (notes track) results) as [res'|] eqn:E;
      [|discriminate].
    intros H. apply IH in H. apply (search_track_all _ _ _ _ _ _ _ Hopts) in E.
    rewrite length_app. lia.
Qed.

Lemma imap_snd {A B} (l : list A) : forall (g : nat -> B),
  map snd (imap (fun i t => (g i, t)) l) = l.
Proof.
  induction l as [|x l IH]; intros g; [reflexivity|].
  simpl. f_equal. apply (IH (fun i => g (S i))).
Qed.

Lemma tracksToScan_all midi :
  map snd (tracksToScan midi None) = tracks midi.
Proof. unfold tracksToScan. apply (imap_snd (tracks midi) (fun i => i)). Qed.

(** X3: a returning search with no pitch, name or measure filter counts
    every note: all notes of all tracks when no track is given, the notes of
    the given track otherwise (none when the document has no such track). *)
Theorem searchNotes_counts_all_notes
    (fuel : nat) (st : Store) (alias : string) (e : Entry) (opts : SearchOpts)
    (r : SearchResult) :
  st !! alias = Some e ->
  track_filter_only opts ->
  searchNotes fuel st alias opts = Some (Return r) ->
  count r =
    match opt_trackIndex opts with
    | None => length (concat (map notes (tracks (entry_midi e))))
    | Some i => length (track_notes st alias i)
    end.
Proof.
  intros Hentry Hopts Hrun.
  destruct (searchNotes_results _ _ _ _ _ Hrun) as (e' & matches & He & Hm & -> & _).
  rewrite Hentry in He. injection He as <-.
  apply (search_tracks_all _ _ _ _ _ _ Hopts) in Hm. rewrite Hm. cbn [length Nat.add].
  destruct (opt_trackIndex opts) as [i|].
  - unfold track_notes, tracksToScan. rewrite Hentry.
    destruct (track_at (entry_midi e) i) as [t|]; simpl; [|reflexivity].
    now rewrite app_nil_r.
  - rewrite <- (tracksToScan_all (entry_midi e)). now rewrite map_map.
Qed.

(** The busy track: all of its 201 notes are counted. *)
Lemma searchNotes_counts_all_notes_witness :
  searchNotes 3 busy_store "busy" no_filters = Some (Return busy_result) /\
  count busy_result = length (concat (map notes (tracks (entry_midi busy_song)))) /\
  count busy_result = 201%nat.
Proof.
  assert (searchNotes 3 busy_store "busy" no_filters = Some (Return busy_result)) as Hrun
    by (vm_compute; reflexivity).
  assert (track_filter_only no_filters) as Hopts by (repeat split).
  split; [exact Hrun|]. split; [|reflexivity].
  exact (searchNotes_counts_all_notes 3 busy_store "busy" busy_song no_filters
           busy_result eq_refl Hopts Hrun).
Defined.

(** X4: a search of a track the document does not have is no error: it
    returns count 0 and no notes, whatever the other filters and the
    budget. *)
Theorem searchNotes_missing_track_is_empty
    (fuel : nat) (st : Store) (alias : string) (e : Entry) (opts : SearchOpts) (i : Z) :
  st !! alias = Some e ->
  opt_trackIndex opts = Some i ->
  track_at (entry_midi e) i = None ->
  searchNotes fuel st alias opts = Some (Return {| count := 0; result_notes := [] |}).
Proof.
  intros Hentry Hi Htrack. unfold searchNotes, tracksToScan.
  now rewrite Hentry, Hi, Htrack.
Qed.

Lemma searchNotes_missing_track_is_empty_witness :
  track_at (entry_midi three_note_song) 5 = None /\
  searchNotes 0 three_note_store "song" track_5_only
    = Some (Return {| count := 0; result_notes := [] |}).
Proof.
  split; [reflexivity|].
  exact (searchNotes_missing_track_is_empty 0 three_note_store "song" three_note_song
           track_5_only 5 eq_refl eq_refl eq_refl).
Defined.

(** ** Filters with a flat *)

Lemma upper_has_flat s :
  has_char flat s = true -> has_char "B" (toUpperCase s) = true.
Proof.
  induction s as [|c r IH]; [discriminate|]. simpl. intros H.
  apply orb_true_iff in H as [H|H].
  - apply Ascii.eqb_eq in H as ->. reflexivity.
  - rewrite (IH H). apply orb_true_r.
Qed.

(** X5: a name filter with a flat sign after its first character (such as
    "Bb" or "eb") matches no note of pitch 0..127: uppercasing turns the flat
    into 'B', and the names of the pitches are spelled with sharps only. *)
Theorem searchNotes_flat_filter_matches_nothing
    (fuel : nat) (st : Store) (alias : string) (opts : SearchOpts)
    (c : ascii) (rest : string) (r : SearchResult) :
  noteName opts = Some (String c rest) ->
  has_char flat rest = true ->
  searchNotes fuel st alias opts = Some (Return r) ->
  Forall (fun h => ~ (0 <= hit_midi h <= 127)) (result_notes r).
Proof.
  intros Hname Hflat Hrun. apply (searchNotes_results_forall _ _ _ _ _ _ Hrun).
  intros e matches _ Hm.
  eapply search_tracks_forall; [|constructor|exact Hm].
  intros ti track note h _ _ Hh Hp.
  destruct (search_note_hit _ _ _ _ _ _ Hh) as (Hskip & pos & _ & _ & _ & _ & Hmidi & _).
  destruct (pitch_skipped_false _ _ Hskip) as (_ & _ & Hf).
  specialize (Hf _ Hname ltac:(discriminate)).
  rewrite Hmidi in Hp.
  pose proof (stripped_name_no_inner_B _ Hp) as HB.
  rewrite Hf in HB. cbn [toUpperCase string_tail] in HB.
  rewrite (upper_has_flat _ Hflat) in HB. discriminate.
Qed.

(** A track holding an A#4, which is a Bb4: the filter "Bb" finds nothing. *)
Lemma searchNotes_flat_filter_matches_nothing_witness :
  has_char flat "b" = true /\
  map note_midi (track_notes a_sharp_store "song" 0) = [70] /\
  noteNameToMidi "Bb4" = Return 70 /\
  searchNotes 3 a_sharp_store "song" b_flat_filter
    = Some (Return {| count := 0; result_notes := [] |}) /\
  Forall (fun h => ~ (0 <= hit_midi h <= 127))
    (result_notes {| count := 0; result_notes := [] |}).
Proof.
  assert (searchNotes 3 a_sharp_store "song" b_flat_filter
          = Some (Return {| count := 0; result_notes := [] |})) as Hrun
    by (vm_compute; reflexivity).
  split; [reflexivity|]. split; [reflexivity|]. split; [reflexivity|].
  split; [exact Hrun|].
  exact (searchNotes_flat_filter_matches_nothing 3 a_sharp_store "song"
           b_flat_filter "B" "b" _ eq_refl eq_refl Hrun).
Defined.

(** X6: for a pitch from octave 0 up (12..127) the name filter keeps a note
    exactly when the uppercased filter is the pitch-class name of the note:
    the octave plays no part, nor does the case of the filter's letter. *)
Theorem name_filter_selects_pitch_class (opts : SearchOpts) (f : string) (note : Note) :
  pitchMin opts = None -> pitchMax opts = None ->
  noteName opts = Some f -> f <> EmptyString ->
  12 <= note_midi note <= 127 ->
  (pitch_skipped opts note = false <->
   toUpperCase f = pitch_class_name (note_midi note)).
Proof.
  intros Hlo Hhi Hname Hf Hp. unfold pitch_skipped. rewrite Hlo, Hhi, Hname.
  rewrite (stripped_name_pitch_class _ Hp). cbn [orb].
  assert (String.eqb f EmptyString = false) as -> by now apply String.eqb_neq.
  cbn [negb andb]. rewrite negb_false_iff, String.eqb_eq.
  split; intros H; now symmetry.
Qed.

(** The filter "a" keeps the A4 of the three-note track. *)
Lemma name_filter_selects_pitch_class_witness :
  toUpperCase "a" = pitch_class_name 69 /\
  pitch_skipped lower_a_filter
    {| note_midi := 69; note_ticks := 1800; note_durationTicks := 480;
       note_velocity := 80 # 127 |} = false.
Proof.
  assert ("a"%string <> EmptyString) as Hf by discriminate.
  assert (12 <= 69 <= 127) as Hp by lia.
  split; [reflexivity|].
  apply (name_filter_selects_pitch_class lower_a_filter "a"
           {| note_midi := 69; note_ticks := 1800; note_durationTicks := 480;
              note_velocity := 80 # 127 |} eq_refl eq_refl eq_refl Hf Hp).
  reflexivity.
Defined.

(** * Coordinate converter: measures as a tiling of the tick axis *)

Lemma measure_walk_succ midi n : forall ct,
  measure_walk midi (S n) ct
  = (measure_walk midi n ct + ticksPerMeasure midi (measure_walk midi n ct))%Q.
Proof.
  induction n as [|n IH]; intros ct; [reflexivity|].
  change (measure_walk midi (S (S n)) ct)
    with (measure_walk midi (S n) (ct + ticksPerMeasure midi ct)%Q).
  rewrite IH. reflexivity.
Qed.

(** X7: in doubles the measures tile the tick axis from tick 0: measure 1
    starts at 0, each measure ends where the next one starts, at its start
    plus [ticksPerMeasure] there (rounded); a measure number below 1 gives
    the range of measure 1; with positive ppq and signature parts no measure
    ends before it starts, and a measure of at least one tick that starts
    below 2^53 is not empty. *)
Theorem measureToTicks_tiles (midi : Midi) (m : Z) :
  let range := Double.measureToTicks midi m in
  start (Double.measureToTicks midi 1) = 0%Q
  /\ end_ range = JS.add (start range) (Double.ticksPerMeasure midi (start range))
  /\ (1 <= m -> start (Double.measureToTicks midi (m + 1)) = end_ range)
  /\ (m <= 1 -> range = Double.measureToTicks midi 1)
  /\ (well_formed midi -> (0 <= start range <= end_ range)%Q)
  /\ (measures_at_least 1 midi -> (start range < two_53)%Q ->
      (start range < end_ range)%Q).
Proof.
  intros range.
  split; [reflexivity|]. split; [reflexivity|]. split; [|split; [|split]].
  - intros Hm. unfold range. rewrite double_measureToTicks_end.
    unfold Double.measureToTicks. cbn [start].
    replace (Z.to_nat (m + 1 - 1)) with (S (Z.to_nat (m - 1))) by lia. reflexivity.
  - intros Hm. unfold range, Double.measureToTicks.
    replace (Z.to_nat (m - 1)) with 0%nat by lia. reflexivity.
  - intros Hwf.
    pose proof (double_ticksPerMeasure_nonneg midi Hwf) as Hnn.
    unfold range. rewrite double_measureToTicks_end.
    unfold Double.measureToTicks. cbn [start]. split.
    + apply (double_measure_walk_ge midi Hnn), zero_is_double.
    + apply (double_measure_walk_mono midi Hnn); [exact zero_is_double | lia].
  - apply double_measure_not_empty.
Qed.

(** In the waltz document measure 3 ends where measure 4 starts. *)
Lemma measureToTicks_tiles_witness :
  1 <= 3 /\ well_formed waltz_midi /\ measures_at_least 1 waltz_midi /\
  start (Double.measureToTicks waltz_midi (3 + 1)) = end_ (Double.measureToTicks waltz_midi 3) /\
  (start (Double.measureToTicks waltz_midi 3) < end_ (Double.measureToTicks waltz_midi 3))%Q /\
  end_ (Double.measureToTicks waltz_midi 3) = 5280%Q.
Proof.
  assert (1 <= 3) as H3 by lia.
  destruct (measureToTicks_tiles waltz_midi 3) as (_ & _ & Hnext & _ & _ & Hpos).
  split; [exact H3|]. split; [exact waltz_midi_well_formed|].
  split; [exact waltz_measures_at_least_1|].
  split; [exact (Hnext H3)|].
  split; [apply (Hpos waltz_measures_at_least_1); vm_compute; reflexivity|].
  vm_compute. reflexivity.
Defined.

Lemma timeSigAtTick_single midi s tick :
  timeSignatures (header midi) = [s] ->
  timeSigAtTick midi tick = (fst (ts_timeSignature s), snd (ts_timeSignature s)).
Proof.
  intros E. unfold timeSigAtTick. rewrite E. simpl.
  now destruct (JS.leb (ts_ticks s) tick).
Qed.

(** ** One time signature throughout *)

(** X8: with a single time-signature event - wherever its tick lies, since
    ticks before the first event take the first event's signature - or with
    none (4/4), if the measure length ppq * num * (4 / den) as computed is a
    whole number n >= 0 and (m-1) * n does not exceed 2^53, measure m >= 1
    starts at exactly (m-1) * n. *)
Theorem measureToTicks_single_signature (midi : Midi) (m n : Z) :
  1 <= m -> 0 <= n -> (m - 1) * n <= 2 ^ 53 ->
  (forall s,
     timeSignatures (header midi) = [s] ->
     (double_measure_length midi (ts_timeSignature s) == inject_Z n)%Q ->
     (start (Double.measureToTicks midi m) == inject_Z ((m - 1) * n))%Q)
  /\ (timeSignatures (header midi) = [] ->
      (double_measure_length midi (4%Q, 4%Q) == inject_Z n)%Q ->
      (start (Double.measureToTicks midi m) == inject_Z ((m - 1) * n))%Q).
Proof.
  intros Hm Hn Hb.
  assert (Main : (forall tick, (Double.ticksPerMeasure midi tick == inject_Z n)%Q) ->
                 (start (Double.measureToTicks midi m) == inject_Z ((m - 1) * n))%Q).
  { intros Hc. unfold Double.measureToTicks. cbn [start].
    rewrite (double_measure_walk_constant midi n (Z.to_nat (m - 1)) 0 0%Q Hc Hn);
      try lia; try reflexivity.
    rewrite Z2Nat.id by lia. replace (0 + (m - 1)) with (m - 1) by ring. reflexivity. }
  split.
  - intros s E Hlen. apply Main. intros tick.
    unfold Double.ticksPerMeasure. rewrite (timeSigAtTick_single midi s tick E).
    exact Hlen.
  - intros E Hlen. apply Main. intros tick.
    unfold Double.ticksPerMeasure, timeSigAtTick. rewrite E. exact Hlen.
Qed.

(** Measure 3 of the 3/4 document starts at tick 2 * 1440. *)
Lemma measureToTicks_single_signature_witness :
  1 <= 3 /\ 0 <= 1440 /\ (3 - 1) * 1440 <= 2 ^ 53 /\
  (double_measure_length three_four_midi (3%Q, 4%Q) == inject_Z 1440)%Q /\
  (start (Double.measureToTicks three_four_midi 3) == inject_Z ((3 - 1) * 1440))%Q.
Proof.
  assert (1 <= 3) as H3 by lia.
  assert (0 <= 1440) as Hn by lia.
  assert ((3 - 1) * 1440 <= 2 ^ 53) as Hb by (vm_compute; discriminate).
  assert (double_measure_length three_four_midi (3%Q, 4%Q) == inject_Z 1440)%Q as Hlen
    by reflexivity.
  split; [exact H3|]. split; [exact Hn|]. split; [exact Hb|]. split; [exact Hlen|].
  destruct (measureToTicks_single_signature three_four_midi 3 1440 H3 Hn Hb) as [Hone _].
  exact (Hone _ eq_refl Hlen).
Defined.

(** ** Where a tick falls *)






(** ** The measure of a tick *)

(** X10: with positive ppq and signature parts, a tick inside the range
    [measureToTicks] gives for measure m >= 1 (start <= tick < end) converts
    to measure m, and to the beat 1 + (tick - start) / ticksPerBeat as the
    doubles compute it, once the budget covers the m measures walked. *)
Theorem tickToMeasureBeat_finds_measure
    (midi : Midi) (m : Z) (tick : Q) (fuel : nat) :
  well_formed midi -> 1 <= m ->
  let range := Double.measureToTicks midi m in
  (start range <= tick < end_ range)%Q ->
  (Z.to_nat m <= fuel)%nat ->
  Double.tickToMeasureBeat fuel midi tick =
    Some {| measure := m;
            beat := JS.add (JS.div (JS.sub tick (start range))
                              (Double.ticksPerBeat midi (start range))) 1 |}.
Proof.
  intros Hwf Hm range [Hlo Hhi] Hfuel.
  now apply double_tickToMeasureBeat_in_range.
Qed.

(** Tick 6000 lies 720 ticks into measure 4 of the waltz document: beat
    2.5. *)
Lemma tickToMeasureBeat_finds_measure_witness :
  well_formed waltz_midi /\ 1 <= 4 /\
  (start (Double.measureToTicks waltz_midi 4) <= 6000
   < end_ (Double.measureToTicks waltz_midi 4))%Q /\
  (Z.to_nat 4 <= 4)%nat /\
  Double.tickToMeasureBeat 4 waltz_midi 6000 = Some {| measure := 4; beat := 5 # 2 |}.
Proof.
  assert (1 <= 4) as H1 by lia.
  assert (start (Double.measureToTicks waltz_midi 4) <= 6000
          < end_ (Double.measureToTicks waltz_midi 4))%Q as Hin
    by (split; vm_compute; [discriminate | reflexivity]).
  assert (Z.to_nat 4 <= 4)%nat as Hfuel by (simpl; lia).
  split; [exact waltz_midi_well_formed|]. split; [exact H1|].
  split; [exact Hin|]. split; [exact Hfuel|].
  rewrite (tickToMeasureBeat_finds_measure waltz_midi 4 6000 4
             waltz_midi_well_formed H1 Hin Hfuel).
  vm_compute. reflexivity.
Defined.

(** * addNotes: where an added note lies *)

Lemma double_ticksPerBeat_nonneg midi tick :
  well_formed midi -> (0 <= Double.ticksPerBeat midi tick)%Q.
Proof.
  intros Hwf. unfold Double.ticksPerBeat.
  pose proof (timeSigAtTick_positive midi Hwf tick) as [_ Hd].
  destruct Hwf as [Hp _].
  destruct (timeSigAtTick midi tick) as [num den]. cbn [snd] in Hd.
  apply double_nonneg. apply Qmult_le_0_compat; [lra|].
  apply double_nonneg. apply Qle_shift_div_l; [exact Hd | lra].
Qed.

Lemma Math_round_nonneg x : (0 <= x)%Q -> 0 <= JS.Math_round x.
Proof.
  intros Hx. unfold JS.Math_round. change 0 with (Qfloor 0).
  apply Qfloor_resp_le. lra.
Qed.

(** The velocity a search reports for a note stored with a whole-number
    velocity of 0..127 is that number: checked on each of them. *)
Lemma velocity_round_trip v :
  0 <= v <= 127 ->
  JS.Math_round (JS.mul (JS.div (inject_Z v) 127) 127) = v.
Proof.
  intros Hv. apply Z.eqb_eq.
  apply (midi_pitches_forallb
           (fun q => JS.Math_round (JS.mul (JS.div (inject_Z q) 127) 127) =? q));
    [vm_compute; reflexivity | exact Hv].
Qed.

(** X11: the note that [addNotes] builds for an input at (measure m >= 1,
    beat b) has the onset start(m) + round((b - 1) * ticksPerBeat), each
    operation rounded; for b >= 1 that onset is not before the start of
    measure m, and when it lies inside the range of measure m it converts
    back to measure m.  Its stored velocity, scaled by 127 and rounded as a
    search reports it, is the whole-number velocity 0..127 given, and 80
    when none is given. *)
Theorem note_of_input_converts_back
    (midi : Midi) (n : NoteInput) (p : Z) (fuel : nat) :
  well_formed midi ->
  1 <= in_measure n ->
  (Z.to_nat (in_measure n) <= fuel)%nat ->
  let range := Double.measureToTicks midi (in_measure n) in
  let note := Double.note_of_input midi n p in
  note_ticks note
  = JS.add (start range)
      (inject_Z (JS.Math_round
                   (JS.mul (JS.sub (in_beat n) 1)
                           (Double.ticksPerBeat midi (start range)))))
  /\ ((1 <= in_beat n)%Q -> (start range <= note_ticks note)%Q)
  /\ ((start range <= note_ticks note < end_ range)%Q ->
      exists mb,
        Double.tickToMeasureBeat fuel midi (note_ticks note) = Some mb /\
        measure mb = in_measure n)
  /\ (forall v, 0 <= v <= 127 -> in_velocity n = Some (inject_Z v) ->
        JS.Math_round (JS.mul (note_velocity note) 127) = v)
  /\ (in_velocity n = None -> JS.Math_round (JS.mul (note_velocity note) 127) = 80).
Proof.
  intros Hwf Hm Hfuel range note.
  split; [reflexivity|]. split; [|split; [|split]].
  - intros Hbeat. unfold note, Double.note_of_input. cbn [note_ticks]. fold range.
    apply add_ge.
    + unfold range, Double.measureToTicks. cbn [start].
      apply double_measure_walk_is_double, zero_is_double.
    + change 0%Q with (inject_Z 0). rewrite <- Zle_Qle.
      apply Math_round_nonneg. apply double_nonneg.
      apply Qmult_le_0_compat; [|apply double_ticksPerBeat_nonneg, Hwf].
      apply double_nonneg. lra.
  - intros [Hlo Hhi].
    rewrite (double_tickToMeasureBeat_in_range midi (in_measure n) (note_ticks note) fuel
               Hwf Hm Hlo Hhi Hfuel).
    eexists. split; reflexivity.
  - intros v Hv Hgiven. unfold note, Double.note_of_input. cbn [note_velocity].
    rewrite Hgiven. apply velocity_round_trip, Hv.
  - intros Hnone. unfold note, Double.note_of_input. cbn [note_velocity].
    rewrite Hnone. vm_compute. reflexivity.
Qed.

(** Beat 2.5 of measure 4 of the waltz document, velocity 100. *)
Lemma note_of_input_converts_back_witness :
  well_formed waltz_midi /\
  note_ticks (Double.note_of_input waltz_midi beat_2_5_of_measure_4 64) = 6000%Q /\
  Double.tickToMeasureBeat 4 waltz_midi 6000 = Some {| measure := 4; beat := 5 # 2 |} /\
  JS.Math_round
    (JS.mul (note_velocity (Double.note_of_input waltz_midi beat_2_5_of_measure_4 64)) 127)
  = 100.
Proof.
  assert (1 <= in_measure beat_2_5_of_measure_4) as Hm by (simpl; lia).
  assert (Z.to_nat (in_measure beat_2_5_of_measure_4) <= 4)%nat as Hfuel by (simpl; lia).
  assert (0 <= 100 <= 127) as Hv by lia.
  assert (note_ticks (Double.note_of_input waltz_midi beat_2_5_of_measure_4 64) = 6000%Q)
    as Hticks by (vm_compute; reflexivity).
  split; [exact waltz_midi_well_formed|]. split; [exact Hticks|].
  destruct (note_of_input_converts_back waltz_midi beat_2_5_of_measure_4 64 4
              waltz_midi_well_formed Hm Hfuel) as (_ & _ & Hback & Hvel & _).
  split; [vm_compute; reflexivity|].
  exact (Hvel 100 Hv eq_refl).
Defined.

(** * Tempo and time-signature events: lookup and replacement *)

Section EventFacts.

Context {A B : Type} (key : A -> Q) (val : A -> B).

Lemma key_compare_le x y :
  JS.leb (key_compare key x y) 0 = true <-> key_le key x y.
Proof. unfold key_compare, key_le. rewrite JSFacts.leb_le. split; intros; lra. Qed.

#[local] Instance key_le_trans : Transitive (key_le key).
Proof. intros a b c. unfold key_le. apply Qle_trans. Qed.

#[local] Instance key_lt_trans : Transitive (key_lt key).
Proof. intros a b c. unfold key_lt. apply Qlt_trans. Qed.

Lemma key_sort_sorted l : StronglySorted (key_le key) (Array_sort (key_compare key) l).
Proof.
  apply Sorted_StronglySorted; [exact key_le_trans|].
  apply Array_sort_sorted.
  - intros x y. apply key_compare_le.
  - intros x y H. apply JSFacts.leb_gt in H. unfold key_compare, key_le in *. lra.
Qed.

Lemma StronglySorted_filter (R : A -> A -> Prop) (f : A -> bool) l :
  StronglySorted R l -> StronglySorted R (List.filter f l).
Proof.
  induction 1 as [|a l Hs IH Hall]; simpl; [constructor|].
  destruct (f a); [|exact IH]. constructor; [exact IH|].
  rewrite Forall_forall in *. intros x Hx. apply Hall.
  apply list_elem_of_In. apply list_elem_of_In in Hx. now apply filter_In in Hx.
Qed.

Lemma events_upto_late tick a l :
  StronglySorted (key_le key) (a :: l) ->
  JS.leb (key a) tick = false ->
  events_upto key tick l = [].
Proof.
  intros Hs Hlate. apply StronglySorted_inv in Hs as [_ Hall].
  apply JSFacts.leb_gt in Hlate.
  induction l as [|u l IH]; [reflexivity|].
  apply Forall_cons in Hall as [Hu Hall]. simpl.
  assert (JS.leb (key u) tick = false) as ->.
  { apply JSFacts.leb_gt. unfold key_le in Hu. lra. }
  auto.
Qed.

(** On events in ascending tick order the scan finds the last event at or
    before the tick. *)
Lemma event_scan_last l : forall tick b,
  StronglySorted (key_le key) l ->
  event_scan key val l tick b =
    match last (events_upto key tick l) with
    | Some e => val e
    | None => b
    end.
Proof.
  induction l as [|a l IH]; intros tick b Hs; [reflexivity|].
  simpl. destruct (JS.leb (key a) tick) eqn:Ha.
  - rewrite IH by (apply StronglySorted_inv in Hs; tauto).
    rewrite last_cons. fold (events_upto key tick l).
    destruct (last (events_upto key tick l)); reflexivity.
  - fold (events_upto key tick l). erewrite events_upto_late; eauto.
Qed.

Lemma last_is_greatest (R : A -> A -> Prop) l : forall e,
  StronglySorted R l -> last l = Some e ->
  forall x, In x l -> x = e \/ R x e.
Proof.
  induction l as [|a l IH]; intros e Hs Hlast x Hx; [destruct Hx|].
  apply StronglySorted_inv in Hs as [Hs Hall].
  rewrite last_cons in Hlast.
  destruct (last l) as [e'|] eqn:El.
  - injection Hlast as <-. destruct Hx as [<-|Hx].
    + right. rewrite Forall_forall in Hall. apply Hall.
      apply list_elem_of_In. apply last_Some in El as [l' ->].
      apply in_or_app. right. now left.
    + now apply IH.
  - injection Hlast as <-. apply last_None in El. subst l.
    destruct Hx as [<-|[]]. now left.
Qed.

Lemma set_event_perm new l :
  Permutation (set_event key new l)
    (List.filter (fun a => negb (Qeq_bool (key a) (key new))) l ++ [new]).
Proof. apply Array_sort_perm. Qed.

(** The events after a replacement: the new one, and the old ones at other
    ticks. *)
Lemma set_event_In new l x :
  In x (set_event key new l) <->
  x = new \/ (In x l /\ ~ (key x == key new)%Q).
Proof.
  split.
  - intros H. apply (Permutation_in _ (set_event_perm new l)) in H.
    apply in_app_or in H as [H|[<-|[]]]; [|now left].
    apply filter_In in H as [HIn Hne]. right. split; [exact HIn|].
    apply negb_true_iff in Hne. intros E. apply Qeq_bool_iff in E. congruence.
  - intros H. apply (Permutation_in _ (Permutation_sym (set_event_perm new l))).
    apply in_or_app. destruct H as [->|[HIn Hne]]; [right; now left|].
    left. apply filter_In. split; [exact HIn|].
    apply negb_true_iff. destruct (Qeq_bool (key x) (key new)) eqn:E; [|reflexivity].
    now apply Qeq_bool_iff in E.
Qed.

(** Looking up the tick just set finds the event just set. *)
Lemma event_scan_set_event new l tick b :
  (tick == key new)%Q ->
  event_scan key val (set_event key new l) tick b = val new.
Proof.
  intros Htick.
  rewrite event_scan_last by apply key_sort_sorted.
  assert (In new (events_upto key tick (set_event key new l))) as Hnew.
  { apply filter_In. split; [apply set_event_In; now left|].
    apply JSFacts.leb_le. lra. }
  destruct (last (events_upto key tick (set_event key new l))) as [e|] eqn:El.
  - assert (In e (events_upto key tick (set_event key new l))) as He.
    { apply last_Some in El as [l' ->]. apply in_or_app. right. now left. }
    apply filter_In in He as [He Hle]. apply JSFacts.leb_le in Hle.
    destruct (last_is_greatest (key_le key) _ e
                (StronglySorted_filter _ _ _ (key_sort_sorted _)) El new Hnew)
      as [->|Hge]; [reflexivity|].
    apply set_event_In in He as [->|[_ Hne]]; [reflexivity|].
    exfalso. apply Hne. unfold key_le in Hge. lra.
  - apply last_None in El. rewrite El in Hnew. destruct Hnew.
Qed.

Lemma sort_insert_sorted_on (R : A -> A -> Prop) (cmp : A -> A -> Q) x l :
  (forall y, In y l -> JS.leb (cmp x y) 0 = true -> R x y) ->
  (forall y, In y l -> JS.leb (cmp x y) 0 = false -> R y x) ->
  Sorted R l -> Sorted R (sort_insert cmp x l).
Proof.
  induction l as [|y l IH]; intros Hle Hgt Hs; simpl; [repeat constructor|].
  destruct (JS.leb (cmp x y) 0) eqn:E.
  - constructor; [exact Hs|]. constructor. apply Hle; [now left | exact E].
  - apply Sorted_inv in Hs as [Hs Hhd]. constructor.
    + apply IH; [intros z Hz; apply Hle; now right
                |intros z Hz; apply Hgt; now right | exact Hs].
    + assert (R y x) as Hyx by (apply Hgt; [now left | exact E]).
      destruct l as [|z l]; simpl; [now constructor|].
      destruct (JS.leb (cmp x z) 0); constructor; [exact Hyx | now inversion Hhd].
Qed.

(** Replacing an event keeps strictly increasing ticks strictly increasing:
    no tick occurs twice. *)
Lemma set_event_strict new l :
  Sorted (key_lt key) l -> Sorted (key_lt key) (set_event key new l).
Proof.
  intros Hs. apply Sorted_StronglySorted in Hs; [|exact key_lt_trans].
  unfold set_event.
  pose proof (StronglySorted_filter (key_lt key)
                (fun a => negb (Qeq_bool (key a) (key new))) l Hs) as HF.
  assert (Forall (fun a => ~ (key a == key new)%Q)
            (List.filter (fun a => negb (Qeq_bool (key a) (key new))) l)) as Hne.
  { apply Forall_forall. intros a Ha. apply list_elem_of_In, filter_In in Ha as [_ Ha].
    apply negb_true_iff in Ha. intros E. apply Qeq_bool_iff in E. congruence. }
  induction (List.filter (fun a => negb (Qeq_bool (key a) (key new))) l)
    as [|f F IH]; [repeat constructor|].
  apply StronglySorted_inv in HF as [HF Hall].
  apply Forall_cons in Hne as [Hf Hne].
  change (Array_sort (key_compare key) ((f :: F) ++ [new]))
    with (sort_insert (key_compare key) f (Array_sort (key_compare key) (F ++ [new]))).
  assert (forall y, In y (Array_sort (key_compare key) (F ++ [new])) ->
                    ~ (key f == key y)%Q) as Hdistinct.
  { intros y Hy. apply (Permutation_in _ (Array_sort_perm _ _)) in Hy.
    apply in_app_or in Hy as [Hy|[<-|[]]]; [|exact Hf].
    rewrite Forall_forall in Hall. apply list_elem_of_In, Hall in Hy.
    unfold key_lt in Hy. lra. }
  apply sort_insert_sorted_on; [| |now apply IH].
  - intros y Hy E. apply key_compare_le in E. specialize (Hdistinct y Hy).
    unfold key_le, key_lt in *. lra.
  - intros y Hy E. apply JSFacts.leb_gt in E. unfold key_compare, key_lt in *. lra.
Qed.

End EventFacts.

(** The two scans of the engine are event scans. *)
Lemma tempo_scan_event_scan ts : forall tick b,
  tempo_scan ts tick b = event_scan tempo_ticks tempo_bpm ts tick b.
Proof.
  induction ts as [|t ts IH]; intros tick b; [reflexivity|].
  simpl. now rewrite !IH.
Qed.

Lemma sig_scan_event_scan ss : forall tick sig,
  sig_scan ss tick sig = event_scan ts_ticks sig_pair ss tick sig.
Proof.
  induction ss as [|s ss IH]; intros tick sig; [reflexivity|].
  simpl. now rewrite !IH.
Qed.

(** * setTempo and setTimeSignature: properties *)

Lemma StronglySorted_weaken {A} (R S : A -> A -> Prop) l :
  (forall x y, R x y -> S x y) -> StronglySorted R l -> StronglySorted S l.
Proof.
  intros HRS. induction 1 as [|a l Hs IH Hall]; constructor; [exact IH|].
  eapply Forall_impl; [exact Hall|]. intros x. apply HRS.
Qed.

Lemma strict_events_ascending {A} (key : A -> Q) l :
  Sorted (key_lt key) l -> StronglySorted (key_le key) l.
Proof.
  intros Hs. apply Sorted_StronglySorted in Hs; [|apply key_lt_trans].
  eapply StronglySorted_weaken; [|exact Hs].
  intros x y. unfold key_lt, key_le. apply Qlt_le_weak.
Qed.

(** X12: for strictly increasing time-signature ticks, [timeSigAtTick] is
    the signature of the last event at or before the tick; when there is none
    it is 4/4 for an empty list and the signature of the first event
    otherwise. *)
Theorem timeSigAtTick_step_function (midi : Midi) (T : Q) :
  Sorted sig_before (timeSignatures (header midi)) ->
  timeSigAtTick midi T =
    match last (events_upto ts_ticks T (timeSignatures (header midi))) with
    | Some s => sig_pair s
    | None =>
        match timeSignatures (header midi) with
        | [] => (4%Q, 4%Q)
        | s0 :: _ => sig_pair s0
        end
    end.
Proof.
  intros Hs. apply (strict_events_ascending ts_ticks) in Hs.
  unfold timeSigAtTick.
  destruct (timeSignatures (header midi)) as [|s0 ss] eqn:E; [reflexivity|].
  rewrite sig_scan_event_scan.
  now rewrite (event_scan_last ts_ticks sig_pair (s0 :: ss) T _ Hs).
Qed.

(** The waltz document: 4/4 still at tick 3839, 3/4 from tick 3840. *)
Lemma timeSigAtTick_step_function_witness :
  Sorted sig_before (timeSignatures (header waltz_midi)) /\
  timeSigAtTick waltz_midi 3839 = (4%Q, 4%Q) /\
  timeSigAtTick waltz_midi 3840 = (3%Q, 4%Q).
Proof.
  assert (Sorted sig_before (timeSignatures (header waltz_midi))) as Hs
    by (repeat constructor).
  split; [exact Hs|]. split.
  - exact (timeSigAtTick_step_function waltz_midi 3839 Hs).
  - exact (timeSigAtTick_step_function waltz_midi 3840 Hs).
Defined.

Lemma setTempo_run st alias e bpm atTick :
  st !! alias = Some e ->
  let T := match atTick with Some t => t | None => 0%Q end in
  setTempo alias bpm atTick st =
    (<[alias := entry_after_setTempo e bpm T]> st,
     Return {| set_bpm := bpm; set_atTick := T;
               allTempos := tempos (header (entry_midi (entry_after_setTempo e bpm T))) |}).
Proof.
  intros Hentry T.
  unfold setTempo, bind, requireLoaded, update_tempos, set_dirty, read_header, ret.
  rewrite Hentry. rewrite (alter_alt_Some _ _ _ _ Hentry), !alter_insert_eq.
  rewrite lookup_insert_eq. reflexivity.
Qed.

Lemma setTimeSignature_run st alias e num den atTick :
  st !! alias = Some e ->
  let T := match atTick with Some t => t | None => 0%Q end in
  setTimeSignature alias num den atTick st =
    (<[alias := entry_after_setTimeSignature e num den T]> st,
     Return {| set_signature := {| text_numerator := num; text_denominator := den |};
               set_sig_atTick := T;
               allSignatures :=
                 map (fun ts =>
                        {| signature :=
                             {| text_numerator := fst (ts_timeSignature ts);
                                text_denominator := snd (ts_timeSignature ts) |};
                           signature_ticks := ts_ticks ts |})
                     (timeSignatures
                        (header (entry_midi (entry_after_setTimeSignature e num den T)))) |}).
Proof.
  intros Hentry T.
  unfold setTimeSignature, bind, requireLoaded, update_timeSignatures, set_dirty,
    read_header, ret.
  rewrite Hentry. rewrite (alter_alt_Some _ _ _ _ Hentry), !alter_insert_eq.
  rewrite lookup_insert_eq. reflexivity.
Qed.

(** X13: on a loaded alias [setTempo] returns, sets the dirty flag and
    touches the tempo list only; afterwards the tempo at the tick set is the
    bpm set, the tempo events are the new one and the old ones at other ticks,
    and ticks that were strictly increasing still are. *)
Theorem setTempo_sets_tempo
    (st : Store) (alias : string) (e : Entry) (bpm : Q) (atTick : option Q) :
  st !! alias = Some e ->
  let T := match atTick with Some t => t | None => 0%Q end in
  let e' := entry_after_setTempo e bpm T in
  (exists r, setTempo alias bpm atTick st = (<[alias := e']> st, Return r) /\
             allTempos r = tempos (header (entry_midi e')))
  /\ dirty e' = true
  /\ tracks (entry_midi e') = tracks (entry_midi e)
  /\ timeSignatures (header (entry_midi e')) = timeSignatures (header (entry_midi e))
  /\ ppq (header (entry_midi e')) = ppq (header (entry_midi e))
  /\ (forall tick, (tick == T)%Q -> tempoAtTick (entry_midi e') tick = bpm)
  /\ (forall t, In t (tempos (header (entry_midi e'))) <->
                t = {| tempo_ticks := T; tempo_bpm := bpm |} \/
                (In t (tempos (header (entry_midi e))) /\ ~ (tempo_ticks t == T)%Q))
  /\ (Sorted tempo_before (tempos (header (entry_midi e))) ->
      Sorted tempo_before (tempos (header (entry_midi e')))).
Proof.
  intros Hentry T e'.
  split; [rewrite (setTempo_run st alias e bpm atTick Hentry); eexists; split; reflexivity|].
  do 4 (split; [reflexivity|]).
  split; [|split].
  - intros tick Htick. unfold tempoAtTick.
    destruct (tempos (header (entry_midi e'))) as [|t0 ts'] eqn:E.
    + exfalso.
      assert (In {| tempo_ticks := T; tempo_bpm := bpm |}
                 (tempos (header (entry_midi e')))) as HIn
        by (apply (set_event_In tempo_ticks); now left).
      rewrite E in HIn. destruct HIn.
    + rewrite tempo_scan_event_scan. rewrite <- E.
      apply (event_scan_set_event tempo_ticks tempo_bpm
               {| tempo_ticks := T; tempo_bpm := bpm |}). exact Htick.
  - intros t. apply (set_event_In tempo_ticks).
  - apply (set_event_strict tempo_ticks).
Qed.

(** Setting 90 bpm at tick 960 of the three-tempo document replaces the
    140 bpm there. *)
Lemma setTempo_sets_tempo_witness :
  tempoAtTick three_tempo_midi 960 = 140%Q /\
  tempoAtTick (entry_midi (entry_after_setTempo three_tempo_song 90 960)) 960 = 90%Q /\
  map tempo_bpm (tempos (header (entry_midi (entry_after_setTempo three_tempo_song 90 960))))
    = [100; 90; 80]%Q.
Proof.
  destruct (setTempo_sets_tempo three_tempo_store "tempo" three_tempo_song
              90 (Some 960%Q) eq_refl) as (_ & _ & _ & _ & _ & Hat & _).
  split; [reflexivity|]. split; [apply Hat; reflexivity|]. reflexivity.
Defined.

(** X14: on a loaded alias [setTimeSignature] returns, sets the dirty flag
    and touches the time-signature list only; afterwards the signature at the
    tick set is the one set, strictly increasing ticks stay strictly
    increasing, and a well-formed document stays well-formed when the
    numerator and the denominator set are positive. *)
Theorem setTimeSignature_sets_signature
    (st : Store) (alias : string) (e : Entry) (num den : Q) (atTick : option Q) :
  st !! alias = Some e ->
  let T := match atTick with Some t => t | None => 0%Q end in
  let e' := entry_after_setTimeSignature e num den T in
  (exists r, setTimeSignature alias num den atTick st = (<[alias := e']> st, Return r))
  /\ dirty e' = true
  /\ tracks (entry_midi e') = tracks (entry_midi e)
  /\ tempos (header (entry_midi e')) = tempos (header (entry_midi e))
  /\ (forall tick, (tick == T)%Q -> timeSigAtTick (entry_midi e') tick = (num, den))
  /\ (Sorted sig_before (timeSignatures (header (entry_midi e))) ->
      Sorted sig_before (timeSignatures (header (entry_midi e'))))
  /\ ((0 < num)%Q -> (0 < den)%Q -> well_formed (entry_midi e) ->
      well_formed (entry_midi e')).
Proof.
  intros Hentry T e'.
  split; [rewrite (setTimeSignature_run st alias e num den atTick Hentry);
          eexists; reflexivity|].
  do 3 (split; [reflexivity|]).
  split; [|split].
  - intros tick Htick. unfold timeSigAtTick.
    destruct (timeSignatures (header (entry_midi e'))) as [|s0 ss'] eqn:E.
    + exfalso.
      assert (In {| ts_ticks := T; ts_timeSignature := (num, den) |}
                 (timeSignatures (header (entry_midi e')))) as HIn
        by (apply (set_event_In ts_ticks); now left).
      rewrite E in HIn. destruct HIn.
    + rewrite sig_scan_event_scan. rewrite <- E.
      apply (event_scan_set_event ts_ticks sig_pair
               {| ts_ticks := T; ts_timeSignature := (num, den) |}). exact Htick.
  - apply (set_event_strict ts_ticks).
  - intros Hn Hd [Hp Hall]. split; [exact Hp|].
    apply Forall_forall. intros s Hs.
    apply list_elem_of_In, (set_event_In ts_ticks) in Hs as [->|[Hs _]].
    + split; assumption.
    + rewrite Forall_forall in Hall. now apply Hall, list_elem_of_In.
Qed.

(** Setting 6/8 at tick 3840 of the waltz document replaces the 3/4 there. *)
Lemma setTimeSignature_sets_signature_witness :
  timeSigAtTick waltz_midi 3840 = (3%Q, 4%Q) /\
  timeSigAtTick (entry_midi (entry_after_setTimeSignature waltz_song 6 8 3840)) 3840
    = (6%Q, 8%Q) /\
  well_formed (entry_midi (entry_after_setTimeSignature waltz_song 6 8 3840)).
Proof.
  destruct (setTimeSignature_sets_signature waltz_store "waltz" waltz_song
              6 8 (Some 3840%Q) eq_refl)
    as (_ & _ & _ & _ & Hat & _ & Hwf).
  split; [reflexivity|]. split; [apply Hat; reflexivity|].
  apply Hwf; [reflexivity | reflexivity | exact waltz_midi_well_formed].
Defined.

(** * totalMeasures: properties *)

Lemma last_tick_of_notes_ge ns : forall b,
  (b <= last_tick_of_notes ns b)%Q /\
  Forall (fun note =>
            note_ticks note + inject_Z (note_durationTicks note)
            <= last_tick_of_notes ns b)%Q ns.
Proof.
  induction ns as [|note ns IH]; intros b; [split; [apply Qle_refl | constructor]|].
  set (endTick := (note_ticks note + inject_Z (note_durationTicks note))%Q).
  set (b' := if JS.ltb b endTick then endTick else b).
  change (last_tick_of_notes (note :: ns) b) with (last_tick_of_notes ns b').
  destruct (IH b') as [Hb' Hall].
  assert (b <= b' /\ endTick <= b')%Q as [H1 H2].
  { unfold b'. destruct (JS.ltb b endTick) eqn:E.
    - apply JSFacts.ltb_lt in E. split; lra.
    - apply JSFacts.ltb_ge in E. split; lra. }
  split; [lra|]. constructor; [cbv beta; fold endTick; lra | exact Hall].
Qed.

Lemma last_tick_tracks_ge ts : forall b,
  let r := fold_left (fun lastTick track => last_tick_of_notes (notes track) lastTick)
                     ts b in
  (b <= r)%Q /\
  forall track note, In track ts -> In note (notes track) ->
    (note_ticks note + inject_Z (note_durationTicks note) <= r)%Q.
Proof.
  induction ts as [|t ts IH]; intros b r; [split; [apply Qle_refl | intros ? ? []]|].
  unfold r. cbn [fold_left].
  destruct (IH (last_tick_of_notes (notes t) b)) as [Hb Hall]. cbv zeta in Hb, Hall.
  destruct (last_tick_of_notes_ge (notes t) b) as [Hb0 Hnotes].
  split; [lra|].
  intros track note [<-|Ht] Hn; [|now apply (Hall track)].
  rewrite Forall_forall in Hnotes. apply list_elem_of_In, Hnotes in Hn.
  cbv beta in Hn. lra.
Qed.

Lemma last_tick_no_notes ts : forall b,
  (forall track, In track ts -> notes track = []) ->
  fold_left (fun lastTick track => last_tick_of_notes (notes track) lastTick) ts b = b.
Proof.
  induction ts as [|t ts IH]; intros b Hempty; [reflexivity|].
  cbn [fold_left]. rewrite (Hempty t) by now left. cbn.
  apply IH. intros track Ht. apply Hempty. now right.
Qed.

(** What the counting loop returns, read off the loop. *)
Lemma total_loop_result midi lt : forall fuel ct k r,
  total_loop fuel midi lt ct k = Some r ->
  exists n,
    r = k + Z.of_nat n /\
    (lt <= measure_walk midi n ct)%Q /\
    (forall j, (j < n)%nat -> (measure_walk midi j ct < lt)%Q).
Proof.
  induction fuel as [|fuel IH]; intros ct k r; cbn [total_loop];
    destruct (JS.ltb ct lt) eqn:E; try discriminate.
  - intros [= <-]. exists 0%nat. repeat split; [lia|now apply JSFacts.ltb_ge|lia].
  - intros H. destruct (IH _ _ _ H) as (n & -> & Hge & Hlt).
    exists (S n). split; [lia|]. split; [exact Hge|].
    intros [|j] Hj; [now apply JSFacts.ltb_lt|]. apply Hlt. lia.
  - intros [= <-]. exists 0%nat. repeat split; [lia|now apply JSFacts.ltb_ge|lia].
Qed.

(** X15: when [totalMeasures] returns n, no note ends after the last tick
    it found; n is 0 exactly when that last tick is 0 (in particular when no
    track has a note); and for n >= 1 the last tick lies in measure n, after
    its start and at or before its end: n measures cover every note and n-1
    do not. *)
Theorem totalMeasures_covers_notes (fuel : nat) (midi : Midi) (n : Z) :
  totalMeasures fuel midi = Some n ->
  0 <= n
  /\ (n = 0 <-> (last_tick midi == 0)%Q)
  /\ (forall track note, In track (tracks midi) -> In note (notes track) ->
        (note_ticks note + inject_Z (note_durationTicks note) <= last_tick midi)%Q)
  /\ ((forall track, In track (tracks midi) -> notes track = []) -> n = 0)
  /\ (1 <= n ->
      (start (measureToTicks midi n) < last_tick midi <= end_ (measureToTicks midi n))%Q).
Proof.
  intros Hrun.
  destruct (last_tick_tracks_ge (tracks midi) 0%Q) as [Hnonneg Hnotes].
  fold (last_tick midi) in Hnonneg, Hnotes.
  assert ((forall track, In track (tracks midi) -> notes track = []) ->
          last_tick midi = 0%Q) as Hempty
    by (intros H; unfold last_tick; now apply last_tick_no_notes).
  unfold totalMeasures in Hrun.
  destruct (Qeq_bool (last_tick midi) 0) eqn:Ez.
  - injection Hrun as <-. apply Qeq_bool_iff in Ez.
    split; [lia|]. split; [tauto|]. split; [exact Hnotes|]. split; [reflexivity|]. lia.
  - assert (~ (last_tick midi == 0)%Q) as Hnz
      by (intros H; apply Qeq_bool_iff in H; congruence).
    destruct (total_loop_result _ _ _ _ _ _ Hrun) as (k & -> & Hge & Hlt).
    destruct k as [|k].
    { exfalso. apply Hnz. cbn [measure_walk] in Hge. lra. }
    split; [lia|]. split; [split; [lia | tauto]|]. split; [exact Hnotes|].
    split; [intros H; rewrite (Hempty H) in Hnz; exfalso; now apply Hnz|].
    intros _. unfold measureToTicks. cbn [start end_].
    replace (Z.to_nat (0 + Z.of_nat (S k) - 1)) with k by lia.
    rewrite <- measure_walk_succ. split; [apply Hlt; lia | exact Hge].
Qed.

(** The three-note track ends at tick 4340, in measure 3. *)
Lemma totalMeasures_covers_notes_witness :
  totalMeasures 5 (entry_midi three_note_song) = Some 3 /\
  (last_tick (entry_midi three_note_song) == 4340)%Q /\
  (start (measureToTicks (entry_midi three_note_song) 3)
   < last_tick (entry_midi three_note_song)
   <= end_ (measureToTicks (entry_midi three_note_song) 3))%Q.
Proof.
  assert (totalMeasures 5 (entry_midi three_note_song) = Some 3) as Hrun
    by (vm_compute; reflexivity).
  assert (1 <= 3) as H3 by lia.
  destruct (totalMeasures_covers_notes 5 _ 3 Hrun) as (_ & _ & _ & _ & Hin).
  split; [exact Hrun|]. split; [vm_compute; reflexivity|]. exact (Hin H3).
Defined.

(** X16: when every measure is at least one tick long and the last tick
    found (the largest note end, as the doubles add it up) does not exceed
    2^53, the counting loop of [totalMeasures] ends within ceil(lastTick)
    iterations, and more iterations allowed do not change the count. *)
Theorem totalMeasures_terminates (midi : Midi) :
  measures_at_least 1 midi ->
  (Double.last_tick midi <= two_53)%Q ->
  exists n, forall fuel,
    (Z.to_nat (Qceiling (Double.last_tick midi)) <= fuel)%nat ->
    Double.totalMeasures fuel midi = Some n.
Proof.
  intros Hlong Hb. unfold Double.totalMeasures.
  destruct (Qeq_bool (Double.last_tick midi) 0); [exists 0; reflexivity|].
  destruct (double_total_loop_returns midi (Double.last_tick midi) Hlong Hb
              (Z.to_nat (Qceiling (Double.last_tick midi))) 0%Q 0
              zero_is_double (Qle_refl 0)) as [r E].
  { change (Qfloor 0) with 0. rewrite Z.sub_0_r. lia. }
  exists r. intros fuel Hfuel. eapply double_total_loop_fuel_mono; eauto.
Qed.

(** The three-note track ends at tick 4340: three measures. *)
Lemma totalMeasures_terminates_witness :
  measures_at_least 1 (entry_midi three_note_song) /\
  (Double.last_tick (entry_midi three_note_song) <= two_53)%Q /\
  Double.last_tick (entry_midi three_note_song) = 4340%Q /\
  Double.totalMeasures 3 (entry_midi three_note_song) = Some 3 /\
  exists n, forall fuel,
    (Z.to_nat (Qceiling (Double.last_tick (entry_midi three_note_song))) <= fuel)%nat ->
    Double.totalMeasures fuel (entry_midi three_note_song) = Some n.
Proof.
  assert (measures_at_least 1 (entry_midi three_note_song)) as Hlong
    by (apply measures_at_least_events; repeat constructor; vm_compute; discriminate).
  assert (Double.last_tick (entry_midi three_note_song) <= two_53)%Q as Hb
    by (vm_compute; discriminate).
  split; [exact Hlong|]. split; [exact Hb|].
  split; [vm_compute; reflexivity|]. split; [vm_compute; reflexivity|].
  exact (totalMeasures_terminates (entry_midi three_note_song) Hlong Hb).
Defined.

(** * Errors, and what a failed call leaves behind *)

(** X17: on an alias that is not loaded every call fails with the
    not-loaded error and leaves the store as it was; [searchNotes] fails
    likewise, and [unloadMidi] with its own error. *)
Theorem calls_on_missing_alias
    (Track_addNote : Note -> list Note -> list Note) (st : Store) (alias : string) :
  st !! alias = None ->
  (forall i ns, addNotes Track_addNote alias i ns st = (st, Throw (NoMidiLoaded alias)))
  /\ (forall i ms me opts,
        deleteNotes alias i ms me opts st = (st, Throw (NoMidiLoaded alias)))
  /\ (forall i s ms me,
        transposeNotes alias i s ms me st = (st, Throw (NoMidiLoaded alias)))
  /\ (forall i g ms me,
        quantizeNotes alias i g ms me st = (st, Throw (NoMidiLoaded alias)))
  /\ (forall bpm atTick, setTempo alias bpm atTick st = (st, Throw (NoMidiLoaded alias)))
  /\ (forall num den atTick,
        setTimeSignature alias num den atTick st = (st, Throw (NoMidiLoaded alias)))
  /\ (forall fuel opts, searchNotes fuel st alias opts = Some (Throw (NoMidiLoaded alias)))
  /\ unloadMidi alias st = (st, NothingToUnload alias).
Proof.
  intros Hnone.
  repeat split; intros;
    unfold addNotes, deleteNotes, transposeNotes, quantizeNotes, setTempo,
      setTimeSignature, searchNotes, unloadMidi, bind, requireLoaded;
    now rewrite Hnone.
Qed.

Lemma calls_on_missing_alias_witness :
  three_note_store !! "other"%string = None /\
  transposeNotes "other" 0 12 None None three_note_store
    = (three_note_store, Throw (NoMidiLoaded "other")) /\
  searchNotes 3 three_note_store "other" no_filters
    = Some (Throw (NoMidiLoaded "other")).
Proof.
  destruct (calls_on_missing_alias insert_by_ticks three_note_store "other" eq_refl)
    as (_ & _ & Htr & _ & _ & _ & Hsearch & _).
  split; [reflexivity|]. split; [apply Htr | apply Hsearch].
Defined.

(** X18: on a loaded document without the track addressed - an index
    past the last track, or a negative one - the four note-editing calls fail
    with the no-such-track error and leave the store, dirty flag included, as
    it was; [quantizeNotes] does so before it looks at the grid. *)
Theorem edits_on_missing_track
    (Track_addNote : Note -> list Note -> list Note)
    (st : Store) (alias : string) (e : Entry) (i : Z) :
  st !! alias = Some e ->
  (i < 0 \/ Z.of_nat (length (tracks (entry_midi e))) <= i) ->
  track_at (entry_midi e) i = None
  /\ (forall ns, addNotes Track_addNote alias i ns st = (st, Throw (TrackDoesNotExist i)))
  /\ (forall ms me opts,
        deleteNotes alias i ms me opts st = (st, Throw (TrackDoesNotExist i)))
  /\ (forall s ms me,
        transposeNotes alias i s ms me st = (st, Throw (TrackDoesNotExist i)))
  /\ (forall g ms me,
        quantizeNotes alias i g ms me st = (st, Throw (TrackDoesNotExist i))).
Proof.
  intros Hentry Hi.
  assert (track_at (entry_midi e) i = None) as Htrack.
  { unfold track_at. destruct (Z.ltb_spec i 0); [reflexivity|].
    apply lookup_ge_None. lia. }
  split; [exact Htrack|].
  repeat split; intros;
    unfold addNotes, deleteNotes, transposeNotes, quantizeNotes, bind,
      requireLoaded, requireTrack, throw;
    now rewrite Hentry, Htrack.
Qed.

Lemma edits_on_missing_track_witness :
  deleteNotes "song" 1 1 9 no_pitch_opts three_note_store
    = (three_note_store, Throw (TrackDoesNotExist 1)) /\
  quantizeNotes "song" (-1) 0 None None three_note_store
    = (three_note_store, Throw (TrackDoesNotExist (-1))).
Proof.
  assert (1 < 0 \/ Z.of_nat (length (tracks (entry_midi three_note_song))) <= 1) as H1
    by (right; simpl; lia).
  assert (-1 < 0 \/ Z.of_nat (length (tracks (entry_midi three_note_song))) <= -1) as H2
    by (left; lia).
  destruct (edits_on_missing_track insert_by_ticks three_note_store "song"
              three_note_song 1 eq_refl H1) as (_ & _ & Hdel & _).
  destruct (edits_on_missing_track insert_by_ticks three_note_store "song"
              three_note_song (-1) eq_refl H2) as (_ & _ & _ & _ & Hq).
  split; [apply Hdel | apply Hq].
Defined.

Lemma Math_round_nonpositive x : JS.Math_round x <= 0 <-> (x < 1 # 2)%Q.
Proof.
  pose proof (Math_round_bounds x) as [Hlo Hhi].
  set (k := JS.Math_round x) in *. split.
  - intros Hk. rewrite Zle_Qle in Hk. change (inject_Z 0) with 0%Q in Hk. lra.
  - intros Hx. destruct (Z.le_gt_cases k 0) as [Hk|Hk]; [exact Hk|].
    exfalso. assert (1 <= k) as H1 by lia.
    rewrite Zle_Qle in H1. change (inject_Z 1) with 1%Q in H1. lra.
Qed.

(** X19: on an existing track [quantizeNotes] rejects the grid, leaving the
    store as it was, exactly when the product ppq * gridBeats, as the doubles
    compute it, is below one half; otherwise it returns.  An exact product
    of one half or more is never rejected; one just below one half is
    accepted when it rounds to one half. *)
Theorem quantizeNotes_grid_check
    (st : Store) (alias : string) (i : Z) (e : Entry) (t : Track)
    (gridBeats : Q) (ms me : option Z) :
  st !! alias = Some e ->
  track_at (entry_midi e) i = Some t ->
  let product := JS.mul (ppq (header (entry_midi e))) gridBeats in
  ((product < 1 # 2)%Q ->
   Double.quantizeNotes alias i gridBeats ms me st = (st, Throw GridNotPositive))
  /\ ((1 # 2 <= product)%Q ->
      exists r, snd (Double.quantizeNotes alias i gridBeats ms me st) = Return r)
  /\ ((1 # 2 <= ppq (header (entry_midi e)) * gridBeats)%Q -> (1 # 2 <= product)%Q).
Proof.
  intros Hentry Htrack product. subst product. split; [|split].
  - intros Hsmall. apply Math_round_nonpositive in Hsmall.
    unfold Double.quantizeNotes. enter_call Hentry Htrack.
    unfold Double.gridTicks.
    now destruct (Z.leb_spec
                    (JS.Math_round (JS.mul (ppq (header (entry_midi e))) gridBeats)) 0);
      [|lia].
  - intros Hbig.
    assert (0 < Double.gridTicks (entry_midi e) gridBeats) as Hg.
    { unfold Double.gridTicks.
      destruct (Z.lt_ge_cases 0
                  (JS.Math_round (JS.mul (ppq (header (entry_midi e))) gridBeats)))
        as [H|H]; [exact H|].
      apply Math_round_nonpositive in H. lra. }
    rewrite (double_quantizeNotes_run st alias i e t gridBeats ms me Hentry Htrack Hg).
    eexists; reflexivity.
  - intros Hexact. unfold JS.mul.
    apply double_ge_double; [vm_compute; reflexivity | exact Hexact].
Qed.

(** At ppq 480 a grid of a thousandth of a beat is 0.48 ticks: rejected.
    The double nearest to 1/960 lies below 1/960, and yet its product with
    480 rounds to one half: accepted, with a grid of one tick. *)
Lemma quantizeNotes_grid_check_witness :
  (JS.mul 480 (JS.double (1 # 1000)) < 1 # 2)%Q /\
  Double.quantizeNotes "song" 0 (JS.double (1 # 1000)) None None three_note_store
    = (three_note_store, Throw GridNotPositive) /\
  (JS.double (1 # 960) < 1 # 960)%Q /\
  (1 # 2 <= JS.mul 480 (JS.double (1 # 960)))%Q /\
  exists r,
    snd (Double.quantizeNotes "song" 0 (JS.double (1 # 960)) None None three_note_store)
    = Return r.
Proof.
  assert (JS.mul 480 (JS.double (1 # 1000)) < 1 # 2)%Q as Hsmall
    by (vm_compute; reflexivity).
  assert (1 # 2 <= JS.mul 480 (JS.double (1 # 960)))%Q as Hhalf
    by (vm_compute; discriminate).
  destruct (quantizeNotes_grid_check three_note_store "song" 0 three_note_song
              three_note_track (JS.double (1 # 1000)) None None eq_refl eq_refl)
    as (Hthrow & _ & _).
  destruct (quantizeNotes_grid_check three_note_store "song" 0 three_note_song
              three_note_track (JS.double (1 # 960)) None None eq_refl eq_refl)
    as (_ & Hret & _).
  split; [exact Hsmall|]. split; [exact (Hthrow Hsmall)|].
  split; [vm_compute; reflexivity|]. split; [exact Hhalf|].
  exact (Hret Hhalf).
Defined.

(** * deleteNotes twice *)

Lemma deleteNotes_run st alias i e t ms me opts :
  st !! alias = Some e ->
  track_at (entry_midi e) i = Some t ->
  deleteNotes alias i ms me opts st =
    (<[alias := with_dirty true
                  (entry_set_notes e i
                     (List.filter
                        (delete_keeps (start (measureToTicks (entry_midi e) ms))
                           (end_ (measureToTicks (entry_midi e) me)) opts)
                        (notes t)))]> st,
     Return {| del_trackIndex := i;
               removedCount :=
                 length (notes t)
                 - length (List.filter
                             (delete_keeps (start (measureToTicks (entry_midi e) ms))
                                (end_ (measureToTicks (entry_midi e) me)) opts)
                             (notes t));
               remainingNotes :=
                 length (List.filter
                           (delete_keeps (start (measureToTicks (entry_midi e) ms))
                              (end_ (measureToTicks (entry_midi e) me)) opts)
                           (notes t)) |}).
Proof.
  intros Hentry Htrack.
  set (kept := List.filter _ (notes t)).
  unfold deleteNotes. enter_call Hentry Htrack.
  unfold bind at 1. rewrite (update_notes_run st alias e i t Hentry Htrack).
  fold kept.
  assert (track_at (entry_midi (entry_set_notes e i kept)) i
          = Some {| track_name := track_name t; notes := kept |}) as Htrack'
    by now apply track_at_set_notes.
  unfold bind at 1.
  rewrite (read_notes_run _ alias _ i _ (lookup_insert_eq _ _ _) Htrack').
  unfold bind at 1.
  rewrite (set_dirty_run _ alias (entry_set_notes e i kept) (lookup_insert_eq _ _ _)).
  rewrite insert_insert_eq. unfold bind at 1.
  rewrite (read_notes_run _ alias (with_dirty true (entry_set_notes e i kept)) i
             {| track_name := track_name t; notes := kept |}
             (lookup_insert_eq _ _ _) Htrack').
  reflexivity.
Qed.

Lemma filter_filter_same {A} (f : A -> bool) (l : list A) :
  List.filter f (List.filter f l) = List.filter f l.
Proof.
  induction l as [|x l IH]; [reflexivity|]. simpl.
  destruct (f x) eqn:E; [|exact IH]. simpl. now rewrite E, IH.
Qed.

(** X20: deleting the same range a second time changes nothing: the store
    stays as the first deletion left it, and the second call reports 0 notes
    removed and the same number remaining. *)
Theorem deleteNotes_twice
    (st : Store) (alias : string) (i : Z) (e : Entry) (t : Track)
    (ms me : Z) (opts : PitchOpts) :
  st !! alias = Some e ->
  track_at (entry_midi e) i = Some t ->
  let once := deleteNotes alias i ms me opts st in
  let twice := deleteNotes alias i ms me opts (fst once) in
  fst twice = fst once
  /\ exists r1 r2,
       snd once = Return r1 /\ snd twice = Return r2 /\
       removedCount r2 = 0%nat /\ remainingNotes r2 = remainingNotes r1.
Proof.
  intros Hentry Htrack once twice.
  pose proof (deleteNotes_run st alias i e t ms me opts Hentry Htrack) as Honce.
  fold once in Honce.
  set (kept := List.filter
                 (delete_keeps (start (measureToTicks (entry_midi e) ms))
                    (end_ (measureToTicks (entry_midi e) me)) opts) (notes t)) in *.
  set (e1 := with_dirty true (entry_set_notes e i kept)) in *.
  assert (track_at (entry_midi e1) i = Some {| track_name := track_name t; notes := kept |})
    as Htrack1 by (unfold e1; rewrite track_at_with_dirty; now apply track_at_set_notes).
  pose proof (deleteNotes_run (<[alias:=e1]> st) alias i e1
                {| track_name := track_name t; notes := kept |} ms me opts
                (lookup_insert_eq _ _ _) Htrack1) as Htwice.
  rewrite (measureToTicks_header (entry_midi e1) (entry_midi e) eq_refl ms),
          (measureToTicks_header (entry_midi e1) (entry_midi e) eq_refl me) in Htwice.
  cbn [notes] in Htwice.
  assert (List.filter
            (delete_keeps (start (measureToTicks (entry_midi e) ms))
               (end_ (measureToTicks (entry_midi e) me)) opts) kept = kept) as Hkept
    by (unfold kept; apply filter_filter_same).
  rewrite Hkept in Htwice.
  rewrite insert_insert_eq in Htwice.
  assert (with_dirty true (entry_set_notes e1 i kept) = e1) as He1.
  { unfold e1.
    change (entry_set_notes (with_dirty true (entry_set_notes e i kept)) i kept)
      with (with_dirty true (entry_set_notes (entry_set_notes e i kept) i kept)).
    now rewrite entry_set_notes_twice. }
  rewrite He1 in Htwice.
  assert (twice = deleteNotes alias i ms me opts (<[alias:=e1]> st)) as Etw
    by (unfold twice; now rewrite Honce).
  rewrite Htwice in Etw. rewrite Etw, Honce. cbn [fst snd].
  split; [reflexivity|]. do 2 eexists. split; [reflexivity|]. split; [reflexivity|].
  cbn [removedCount remainingNotes]. split; [lia | reflexivity].
Qed.

(** Measure 2 of the three-note track, deleted twice. *)
Lemma deleteNotes_twice_witness :
  snd (deleteNotes "song" 0 2 2 no_pitch_opts
         (fst (deleteNotes "song" 0 2 2 no_pitch_opts three_note_store)))
    = Return {| del_trackIndex := 0; removedCount := 0; remainingNotes := 2 |} /\
  fst (deleteNotes "song" 0 2 2 no_pitch_opts
         (fst (deleteNotes "song" 0 2 2 no_pitch_opts three_note_store)))
    = fst (deleteNotes "song" 0 2 2 no_pitch_opts three_note_store).
Proof.
  destruct (deleteNotes_twice three_note_store "song" 0 three_note_song
              three_note_track 2 2 no_pitch_opts eq_refl eq_refl) as (Hsame & _).
  split; [vm_compute; reflexivity | exact Hsame].
Defined.

(** * The dirty flag and unloading *)

Lemma addNotes_run_all Track_addNote st alias i e t ns :
  st !! alias = Some e ->
  track_at (entry_midi e) i = Some t ->
  Forall decodable ns ->
  addNotes Track_addNote alias i ns st =
    (<[alias := with_dirty true
                  (entry_set_notes e i
                     (notes_after Track_addNote (entry_midi e) ns (notes t)))]> st,
     Return {| add_trackIndex := i;
               added := map (fun n => added_of_input n (pitch_of n)) ns;
               totalNotesInTrack :=
                 length (notes_after Track_addNote (entry_midi e) ns (notes t)) |}).
Proof.
  intros Hentry Htrack Hall.
  set (all := notes_after Track_addNote (entry_midi e) ns (notes t)).
  unfold addNotes. enter_call Hentry Htrack.
  unfold bind at 1.
  rewrite <- (app_nil_r ns) at 1.
  rewrite (addNotes_loop_decodable Track_addNote alias i (entry_midi e) ns
             [] st e t [] Hentry Htrack Hall).
  cbn [addNotes_loop app]. unfold ret at 1. fold all.
  unfold bind at 1.
  rewrite (set_dirty_run _ alias (entry_set_notes e i all) (lookup_insert_eq _ _ _)).
  rewrite insert_insert_eq. unfold bind at 1.
  rewrite (read_notes_run _ alias (with_dirty true (entry_set_notes e i all)) i
             {| track_name := track_name t; notes := all |}
             (lookup_insert_eq _ _ _));
    [reflexivity|].
  rewrite track_at_with_dirty. now apply track_at_set_notes.
Qed.

Lemma marked_dirty_insert st alias e :
  dirty e = true -> marked_dirty alias (<[alias := e]> st).
Proof.
  intros Hd. exists e. split; [apply lookup_insert_eq|]. split; [exact Hd|].
  unfold unloadMidi. rewrite lookup_insert_eq. cbn [snd]. now rewrite Hd.
Qed.

(** X21: every edit that returns leaves the document marked dirty, so that
    unloading it next reports unsaved changes: [addNotes] with decodable
    names, [deleteNotes], [transposeNotes], [quantizeNotes] with a grid of at
    least one tick, [setTempo] and [setTimeSignature] - also when the edit
    changed no note. *)
Theorem returning_edits_mark_dirty
    (Track_addNote : Note -> list Note -> list Note)
    (st : Store) (alias : string) (i : Z) (e : Entry) (t : Track) :
  st !! alias = Some e ->
  track_at (entry_midi e) i = Some t ->
  (forall ns, Forall decodable ns ->
     marked_dirty alias (fst (addNotes Track_addNote alias i ns st)))
  /\ (forall ms me opts, marked_dirty alias (fst (deleteNotes alias i ms me opts st)))
  /\ (forall s ms me, marked_dirty alias (fst (transposeNotes alias i s ms me st)))
  /\ (forall g ms me,
        0 < JS.Math_round (ppq (header (entry_midi e)) * g)%Q ->
        marked_dirty alias (fst (quantizeNotes alias i g ms me st)))
  /\ (forall bpm atTick, marked_dirty alias (fst (setTempo alias bpm atTick st)))
  /\ (forall num den atTick,
        marked_dirty alias (fst (setTimeSignature alias num den atTick st))).
Proof.
  intros Hentry Htrack. repeat split.
  - intros ns Hns. rewrite (addNotes_run_all _ _ _ _ _ _ _ Hentry Htrack Hns).
    now apply marked_dirty_insert.
  - intros ms me opts. rewrite (deleteNotes_run _ _ _ _ _ _ _ _ Hentry Htrack).
    now apply marked_dirty_insert.
  - intros s ms me. rewrite (transposeNotes_run _ _ _ _ _ _ _ _ Hentry Htrack).
    now apply marked_dirty_insert.
  - intros g ms me Hg. rewrite (quantizeNotes_run _ _ _ _ _ _ _ _ Hentry Htrack Hg).
    now apply marked_dirty_insert.
  - intros bpm atTick. rewrite (setTempo_run _ _ _ _ _ Hentry).
    now apply marked_dirty_insert.
  - intros num den atTick. rewrite (setTimeSignature_run _ _ _ _ _ _ Hentry).
    now apply marked_dirty_insert.
Qed.

(** Deleting from measure 9 of the saved three-note song removes nothing
    and marks it dirty all the same. *)
Lemma returning_edits_mark_dirty_witness :
  dirty three_note_song = false /\
  snd (deleteNotes "song" 0 9 9 no_pitch_opts three_note_store)
    = Return {| del_trackIndex := 0; removedCount := 0; remainingNotes := 3 |} /\
  marked_dirty "song" (fst (deleteNotes "song" 0 9 9 no_pitch_opts three_note_store)).
Proof.
  destruct (returning_edits_mark_dirty insert_by_ticks three_note_store "song" 0
              three_note_song three_note_track eq_refl eq_refl)
    as (_ & Hdel & _).
  split; [reflexivity|]. split; [vm_compute; reflexivity | apply Hdel].
Defined.

(** X22: unloading a loaded alias reports its dirty flag and forgets that
    alias only: the other aliases keep their entries, a search of the alias
    then fails as not loaded, and a second unload fails with nothing to
    unload. *)
Theorem unloadMidi_forgets_alias (st : Store) (alias : string) (e : Entry) :
  st !! alias = Some e ->
  let st' := fst (unloadMidi alias st) in
  snd (unloadMidi alias st)
    = Unloaded {| unload_alias := alias; unloaded := true;
                  hadUnsavedChanges := dirty e |}
  /\ st' !! alias = None
  /\ (forall other, other <> alias -> st' !! other = st !! other)
  /\ (forall fuel opts, searchNotes fuel st' alias opts = Some (Throw (NoMidiLoaded alias)))
  /\ unloadMidi alias st' = (st', NothingToUnload alias).
Proof.
  intros Hentry st'.
  assert (unloadMidi alias st
          = (delete alias st,
             Unloaded {| unload_alias := alias; unloaded := true;
                         hadUnsavedChanges := dirty e |})) as Hrun
    by (unfold unloadMidi; now rewrite Hentry).
  assert (st' !! alias = None) as Hgone
    by (unfold st'; rewrite Hrun; apply lookup_delete_eq).
  split; [now rewrite Hrun|]. split; [exact Hgone|]. split; [|split].
  - intros other Hne. unfold st'. rewrite Hrun. cbn [fst].
    now apply lookup_delete_ne.
  - intros fuel opts. unfold searchNotes. now rewrite Hgone.
  - unfold unloadMidi. now rewrite Hgone.
Qed.

Lemma unloadMidi_forgets_alias_witness :
  snd (unloadMidi "song" three_note_store)
    = Unloaded {| unload_alias := "song"; unloaded := true;
                  hadUnsavedChanges := false |} /\
  fst (unloadMidi "song" three_note_store) !! "song"%string = None.
Proof.
  destruct (unloadMidi_forgets_alias three_note_store "song" three_note_song eq_refl)
    as (Hrep & Hgone & _).
  split; [exact Hrep | exact Hgone].
Defined.

(** * getMeasures: properties *)

Lemma measure_note_compare_le a b :
  JS.leb (measure_note_compare a b) 0 = true <-> measure_note_le a b.
Proof.
  unfold measure_note_compare, measure_note_le. rewrite JSFacts.leb_le.
  destruct (Qeq_dec (mn_beat a - mn_beat b) 0) as [Eb|Nb].
  - rewrite or_else_zero by exact Eb. rewrite <- (Zle_Qle _ 0).
    split; [intros H; right; split; [lra|lia]|].
    intros [H|[_ H]]; [lra|lia].
  - rewrite or_else_nonzero by exact Nb.
    split; [intros H; left; lra|]. intros [H|[H _]]; lra.
Qed.

Lemma measure_note_le_total a b : measure_note_le a b \/ measure_note_le b a.
Proof.
  unfold measure_note_le.
  destruct (Q_dec (mn_beat a) (mn_beat b)) as [[Hb|Hb]|Hb];
    [left; now left | right; now left|].
  destruct (Z.le_ge_cases (mn_midi a) (mn_midi b)).
  - left; right. now split.
  - right; right. split; [now symmetry | assumption].
Qed.

Lemma measure_note_le_trans : Transitive measure_note_le.
Proof.
  intros a b c. unfold measure_note_le.
  intros [H1|[Q1 H1]] [H2|[Q2 H2]]; try (left; lra). right. split; [lra|lia].
Qed.

Lemma measure_notes_sorted l :
  StronglySorted measure_note_le (Array_sort measure_note_compare l).
Proof.
  apply Sorted_StronglySorted; [exact measure_note_le_trans|].
  apply Array_sort_sorted.
  - intros x y. apply measure_note_compare_le.
  - intros x y H. destruct (measure_note_le_total x y) as [Hxy|Hyx]; [|exact Hyx].
    apply measure_note_compare_le in Hxy. congruence.
Qed.

Section MeasureScan.

Variables (fuel : nat) (midi : Midi) (s e den : Q).

Lemma measure_track_midis ti ns : forall acc res,
  measure_track fuel midi s e den ti ns acc = Some res ->
  map mn_midi res
  = map mn_midi acc ++ map note_midi (List.filter (in_range s (Some e)) ns).
Proof.
  induction ns as [|note ns IH]; intros acc res; simpl.
  - intros [= <-]. now rewrite app_nil_r.
  - unfold measure_note, in_range.
    destruct (JS.leb s (note_ticks note) && JS.ltb (note_ticks note) e).
    + destruct (tickToMeasureBeat fuel midi (note_ticks note)); [|discriminate].
      intros H. rewrite (IH _ _ H), map_app, <- app_assoc. reflexivity.
    + apply IH.
Qed.

Lemma measure_tracks_midis ts : forall acc res,
  measure_tracks fuel midi s e den ts acc = Some res ->
  map mn_midi res
  = map mn_midi acc
    ++ map note_midi
         (List.filter (in_range s (Some e))
            (concat (map (fun it => notes (snd it)) ts))).
Proof.
  induction ts as [|[ti track] ts IH]; intros acc res; simpl.
  - intros [= <-]. now rewrite app_nil_r.
  - destruct (measure_track fuel midi s e den ti (notes track) acc) as [acc'|] eqn:E;
      [|discriminate].
    intros H. rewrite (IH _ _ H), (measure_track_midis _ _ _ _ E).
    rewrite List.filter_app, map_app, <- app_assoc. reflexivity.
Qed.

End MeasureScan.

Lemma measure_info_lists fuel midi trackIndex m info :
  measure_info fuel midi trackIndex m = Some info ->
  info_measure info = m /\ lists_onsets_of_measure midi trackIndex info.
Proof.
  unfold measure_info, lists_onsets_of_measure.
  destruct (timeSigAtTick midi (start (measureToTicks midi m))) as [num den] eqn:Esig.
  destruct (measure_tracks fuel midi _ _ den (tracksToScan midi trackIndex) [])
    as [measureNotes|] eqn:E; [|discriminate].
  intros [= <-]. cbn [info_measure info_notes info_timeSignature info_tempo
                      text_numerator text_denominator].
  split; [reflexivity|]. split; [|split; [apply measure_notes_sorted|split]].
  - rewrite (Permutation_map mn_midi (Array_sort_perm measure_note_compare measureNotes)).
    rewrite (measure_tracks_midis _ _ _ _ _ _ _ _ E). reflexivity.
  - now rewrite Esig.
  - reflexivity.
Qed.

Lemma measure_numbers_from m count :
  map (fun k => m + Z.of_nat k) (seq 0 (S count))
  = m :: map (fun k => m + 1 + Z.of_nat k) (seq 0 count).
Proof.
  cbn [seq map]. f_equal; [lia|].
  rewrite <- seq_shift, map_map. apply map_ext. intros k. lia.
Qed.

Lemma measures_loop_lists fuel midi trackIndex count : forall m acc res,
  measures_loop fuel midi trackIndex count m acc = Some res ->
  map info_measure res
  = map info_measure acc ++ map (fun k => m + Z.of_nat k) (seq 0 count)
  /\ (Forall (lists_onsets_of_measure midi trackIndex) acc ->
      Forall (lists_onsets_of_measure midi trackIndex) res).
Proof.
  induction count as [|count IH]; intros m acc res.
  - cbn. intros [= <-]. now rewrite app_nil_r.
  - cbn [measures_loop].
    destruct (measure_info fuel midi trackIndex m) as [info|] eqn:E; [|discriminate].
    intros H. destruct (IH _ _ _ H) as [Hnum Hall].
    destruct (measure_info_lists _ _ _ _ _ E) as [Hm Hok].
    split.
    + rewrite Hnum, measure_numbers_from, map_app, <- app_assoc. cbn. now rewrite Hm.
    + intros Hacc. apply Hall. apply Forall_app. split; [exact Hacc|].
      now constructor.
Qed.

(** X23: when [getMeasures] returns, it reports the measure count of
    [totalMeasures], the start measure raised to 1 and the end measure lowered
    to that count, and lists exactly the measures from the one to the other
    in order (none when the document has no notes); each listed measure
    holds the notes of the scanned tracks whose onset lies in its tick range
    - a note sounding on from an earlier measure is not among them - sorted
    by (beat, pitch), with the time signature and the tempo in effect at the
    measure's start. *)
Theorem getMeasures_lists_measures
    (fuel : nat) (st : Store) (alias : string) (entry : Entry)
    (startMeasure endMeasure : Z) (trackIndex : option Z) (r : MeasuresResult) :
  st !! alias = Some entry ->
  getMeasures fuel st alias startMeasure endMeasure trackIndex = Some (Return r) ->
  totalMeasures fuel (entry_midi entry) = Some (res_totalMeasures r)
  /\ res_startMeasure r = Z.max 1 startMeasure
  /\ res_endMeasure r = Z.min endMeasure (res_totalMeasures r)
  /\ map info_measure (res_measures r)
     = measure_numbers (res_startMeasure r) (res_endMeasure r)
  /\ (res_totalMeasures r = 0 -> res_measures r = [])
  /\ Forall (lists_onsets_of_measure (entry_midi entry) trackIndex) (res_measures r).
Proof.
  intros Hentry. unfold getMeasures. rewrite Hentry.
  destruct (totalMeasures fuel (entry_midi entry)) as [total|] eqn:Etotal;
    [|discriminate].
  set (s' := if startMeasure <? 1 then 1 else startMeasure).
  set (e' := if endMeasure >? total then total else endMeasure).
  destruct (measures_loop fuel (entry_midi entry) trackIndex
              (Z.to_nat (e' - s' + 1)) s' []) as [ms|] eqn:Eloop; [|discriminate].
  intros [= <-]. cbn [res_startMeasure res_endMeasure res_totalMeasures res_measures].
  destruct (measures_loop_lists _ _ _ _ _ _ _ Eloop) as [Hnum Hall].
  assert (s' = Z.max 1 startMeasure) as Hs
    by (unfold s'; destruct (Z.ltb_spec startMeasure 1); lia).
  assert (e' = Z.min endMeasure total) as He
    by (unfold e'; rewrite Z.gtb_ltb; destruct (Z.ltb_spec total endMeasure); lia).
  split; [reflexivity|]. split; [exact Hs|]. split; [exact He|].
  split; [exact Hnum|]. split; [|apply Hall; constructor].
  intros Hzero.
  assert (Z.to_nat (e' - s' + 1) = 0%nat) as Hcount by lia.
  rewrite Hcount in Eloop. cbn in Eloop. now injection Eloop as <-.
Qed.

(** Measures 0 to 9 of the three-note song: measures 1 to 3, with the A4
    in measure 1 only, although it sounds on into measure 2. *)
Lemma getMeasures_lists_measures_witness :
  exists r,
    getMeasures 5 three_note_store "song" 0 9 None = Some (Return r) /\
    res_totalMeasures r = 3 /\
    map info_measure (res_measures r) = [1; 2; 3] /\
    map (fun info => map mn_midi (info_notes info)) (res_measures r)
      = [[69]; [1]; [127]] /\
    Forall (lists_onsets_of_measure (entry_midi three_note_song) None) (res_measures r).
Proof.
  destruct (getMeasures 5 three_note_store "song" 0 9 None) as [[r|err]|] eqn:E;
    [|vm_compute in E; discriminate..].
  exists r. split; [reflexivity|].
  destruct (getMeasures_lists_measures 5 three_note_store "song" three_note_song
              0 9 None r eq_refl E) as (_ & _ & _ & _ & _ & Hall).
  vm_compute in E. injection E as <-.
  split; [reflexivity|]. split; [reflexivity|]. split; [reflexivity|]. exact Hall.
Defined.
